(** * Assessment Session Engine of dystopia-dashboard (server, [part_004])

    Shallow embedding of the scoring function, the patch merge engine, the
    leaderboard projection and the per-session state machine (input
    handler, event open/close passes, finalization) of the Node server. *)

From Stdlib Require Import ZArith QArith Qround Qminmax Lqa Lia List String Bool.
From Stdlib Require Import Permutation Sorted.
Import ListNotations.
Open Scope string_scope.
Open Scope list_scope.

(** ** JavaScript numbers

    Event fields loaded from the scenario JSON are finite rationals; the
    only non-finite values the scoring code can produce come from division.
    Rounding of finite values is exact (no overflow is modelled). *)

Inductive num : Type :=
| Fin (q : Q)
| NaN
| PInf
| NInf.

Definition qltb (a b : Q) : bool := negb (Qle_bool b a).

Definition num_neg (x : num) : num :=
  match x with
  | Fin q => Fin (- q)
  | NaN => NaN
  | PInf => NInf
  | NInf => PInf
  end.

(** [x + y] *)
Definition num_add (x y : num) : num :=
  match x, y with
  | NaN, _ | _, NaN => NaN
  | PInf, NInf | NInf, PInf => NaN
  | PInf, _ | _, PInf => PInf
  | NInf, _ | _, NInf => NInf
  | Fin a, Fin b => Fin (a + b)
  end.

(** [x - y] *)
Definition num_sub (x y : num) : num := num_add x (num_neg y).

Definition sign_inf (pos : bool) : num := if pos then PInf else NInf.

(** [x * y] *)
Definition num_mul (x y : num) : num :=
  match x, y with
  | NaN, _ | _, NaN => NaN
  | Fin a, Fin b => Fin (a * b)
  | Fin a, PInf | PInf, Fin a =>
      if Qeq_bool a 0 then NaN else sign_inf (qltb 0 a)
  | Fin a, NInf | NInf, Fin a =>
      if Qeq_bool a 0 then NaN else sign_inf (qltb a 0)
  | PInf, PInf | NInf, NInf => PInf
  | PInf, NInf | NInf, PInf => NInf
  end.

(** [x / y] *)
Definition num_div (x y : num) : num :=
  match x, y with
  | NaN, _ | _, NaN => NaN
  | Fin a, Fin b =>
      if Qeq_bool b 0 then
        (if Qeq_bool a 0 then NaN else sign_inf (qltb 0 a))
      else Fin (a / b)
  | Fin _, PInf | Fin _, NInf => Fin 0
  | PInf, Fin b => sign_inf (Qle_bool 0 b)
  | NInf, Fin b => sign_inf (negb (Qle_bool 0 b))
  | _, _ => NaN
  end.

(** [Math.max(0, x)] *)
Definition num_max0 (x : num) : num :=
  match x with
  | Fin q => Fin (Qmax 0 q)
  | NaN => NaN
  | PInf => PInf
  | NInf => Fin 0
  end.

(** [Math.round] on a finite value: [floor (q + 1/2)]. *)
Definition js_round (q : Q) : Z := Qfloor (q + (1 # 2)).

Definition num_round (x : num) : num :=
  match x with
  | Fin q => Fin (inject_Z (js_round q))
  | other => other
  end.

(** ** Scenario events *)

(** The per-event penalty table; [None] is a key absent from the JSON. *)
Record penalties := mkPenalties {
  pen_wrong : option Q;
  pen_late : option Q;
  pen_noResponse : option Q
}.

Definition no_penalties : penalties := mkPenalties None None None.

Record event := mkEvent {
  ev_id : string;
  ev_t : Q;                         (* offset, seconds from start *)
  ev_responseWindowSec : Q;
  ev_correctAction : string;
  ev_pointsPossible : option Q;
  ev_penalties : penalties;
  ev_algoCopy : option (list (Q * string));  (* (tOffset, text) hints *)
  ev_location : string;
  ev_dashboard : bool;              (* has an open-time dashboard patch whose
                                       application broadcasts a (non-empty)
                                       outgoing patch *)
  ev_dashboardClose : bool;         (* the same for the close-time patch *)
  ev_opened : bool;                 (* _opened *)
  ev_closed : bool                  (* _closed *)
}.

Definition with_default (d : Q) (o : option Q) : Q :=
  match o with Some q => q | None => d end.

(** ** Scoring (Kahoot-style): [computeScore] *)

Record score_result := mkScore {
  sr_delta : num;
  sr_reason : string;
  sr_responseTime : option Q
}.

Definition computeScore (ev : event) (action : string) (nowSec : Q)
  : score_result :=
  let window := ev_responseWindowSec ev in
  let start := ev_t ev in
  let end_ := start + window in
  let pointsPossible := with_default 100 (ev_pointsPossible ev) in
  let pen := ev_penalties ev in
  let late := with_default (-50) (pen_late pen) in
  let wrong := with_default (-100) (pen_wrong pen) in
  if qltb end_ nowSec then mkScore (Fin late) "late" None
  else if qltb nowSec start then mkScore (Fin 0) "too_early" None
  else if negb (String.eqb action (ev_correctAction ev)) then
    mkScore (Fin wrong) "wrong" None
  else
    let responseTime := Qmax 0 (nowSec - start) in
    let factor :=
      num_sub (Fin 1) (num_div (num_div (Fin responseTime) (Fin window)) (Fin 2)) in
    let pts := num_round (num_mul (num_max0 factor) (Fin pointsPossible)) in
    mkScore pts "correct" (Some responseTime).

(** The decay formula as the spec writes it:
    [round((1 - ((n - t) / w) / 2) * P)]. *)
Definition decay_formula (t w P n : Q) : Z :=
  js_round ((1 - ((n - t) / w) / 2) * P).

Definition points_of (ev : event) : Q := with_default 100 (ev_pointsPossible ev).


(** Scenario event of the spec's worked example: offset 10 s, window 10 s,
    correct action "Dispatch", default budget and penalties. *)
Definition ev_dispatch : event :=
  mkEvent "E1" 10 10 "Dispatch" None no_penalties None "Sector C"
          false false false false.

Definition ev_with (t w : Q) (P : option Q) : event :=
  mkEvent "E1" t w "Dispatch" P no_penalties None "Sector C"
          false false false false.

(** ** JSON values as handled by the patch merge engine

    Objects are lists of own properties in insertion order (keys unique).
    Objects and arrays parsed from a patch are distinct references, so
    SameValueZero never equates two of them. *)

Set Warnings "-register-all".

Inductive jsval : Type :=
| JUndef
| JNull
| JBool (b : bool)
| JNum (q : Q)
| JStr (s : string)
| JArr (l : list jsval)
| JObj (fields : list (string * jsval)).

(** JavaScript truthiness. *)
Definition truthy (v : jsval) : bool :=
  match v with
  | JUndef | JNull => false
  | JBool b => b
  | JNum q => negb (Qeq_bool q 0)
  | JStr s => negb (String.eqb s "")
  | JArr _ | JObj _ => true
  end.

(** SameValueZero, the key equality of [Map] and [Set]. *)
Definition sv0 (a b : jsval) : bool :=
  match a, b with
  | JUndef, JUndef | JNull, JNull => true
  | JBool x, JBool y => Bool.eqb x y
  | JNum x, JNum y => Qeq_bool x y
  | JStr x, JStr y => String.eqb x y
  | _, _ => false
  end.

(** [o[k]]; when a parsed object repeats a key, the last value wins. *)
Definition lookup_step (k : string) (r : jsval) (kv : string * jsval) : jsval :=
  if String.eqb (fst kv) k then snd kv else r.

Definition prop_lookup (k : string) (fs : list (string * jsval)) : jsval :=
  fold_left (lookup_step k) fs JUndef.

(** [v.id]: [None] is the TypeError thrown on [null] / [undefined]. *)
Definition get_id (v : jsval) : option jsval :=
  match v with
  | JUndef | JNull => None
  | JObj fs => Some (prop_lookup "id" fs)
  | _ => Some JUndef
  end.

(** [v.id] on a value known not to be [null] / [undefined]. *)
Definition prop_id (v : jsval) : jsval :=
  match get_id v with Some i => i | None => JUndef end.

(** Own enumerable properties, as copied by an object spread; in the
    merge engine only objects and [undefined] are spread. *)
Definition own_props (v : jsval) : list (string * jsval) :=
  match v with JObj fs => fs | _ => [] end.

(** Defining property [k] on an object literal under construction. *)
Definition assign (fs : list (string * jsval)) (kv : string * jsval)
  : list (string * jsval) :=
  let '(k, v) := kv in
  if existsb (fun kv' => String.eqb (fst kv') k) fs
  then List.map (fun kv' => if String.eqb (fst kv') k then (fst kv', v) else kv') fs
  else fs ++ [(k, v)].

(** [{ ...a, ...b }] *)
Definition spread_merge (a b : jsval) : jsval :=
  JObj (fold_left assign (own_props a ++ own_props b) []).

(** *** Insertion-ordered maps ([Map]) *)

Section OrderedMap.
Context {K V : Type} (keq : K -> K -> bool).

Definition omap := list (K * V).

Fixpoint map_get (m : omap) (k : K) : option V :=
  match m with
  | [] => None
  | (k', v) :: rest => if keq k' k then Some v else map_get rest k
  end.

Definition map_has (m : omap) (k : K) : bool :=
  match map_get m k with Some _ => true | None => false end.

(** [m.set(k, v)]: an existing key keeps its position. *)
Definition map_set (m : omap) (k : K) (v : V) : omap :=
  if map_has m k
  then List.map (fun kv => if keq (fst kv) k then (fst kv, v) else kv) m
  else m ++ [(k, v)].

Definition map_values (m : omap) : list V := map snd m.
End OrderedMap.

(** ASCII lower-casing ([toLowerCase] on the mode names). *)
Definition ascii_lower (c : Ascii.ascii) : Ascii.ascii :=
  let n := Ascii.nat_of_ascii c in
  if (65 <=? n)%nat && (n <=? 90)%nat then Ascii.ascii_of_nat (n + 32) else c.

Fixpoint lower (s : string) : string :=
  match s with
  | EmptyString => EmptyString
  | String c rest => String (ascii_lower c) (lower rest)
  end.

(** *** [mergeList] *)

(** The patch argument [{ mode, items, removeIds }]; [JUndef] is a missing
    key, which takes the destructuring default. *)
Record patch := mkPatch {
  p_mode : jsval;
  p_items : jsval;
  p_removeIds : jsval
}.

(** [new Map(current.map((it) => [it.id, it]))] *)
Fixpoint id_pairs (l : list jsval) : option (list (jsval * jsval)) :=
  match l with
  | [] => Some []
  | it :: rest =>
      match get_id it, id_pairs rest with
      | Some i, Some ps => Some ((i, it) :: ps)
      | _, _ => None
      end
  end.

Definition map_of_pairs (ps : list (jsval * jsval)) : omap :=
  fold_left (fun m kv => map_set sv0 m (fst kv) (snd kv)) ps [].

(** One iteration of the upsert loop. *)
Definition upsert_step (m : @omap jsval jsval) (item : jsval) : omap :=
  if negb (truthy item) || negb (truthy (prop_id item)) then m
  else
    let old := match map_get sv0 m (prop_id item) with Some o => o | None => JUndef end in
    map_set sv0 m (prop_id item) (spread_merge old item).

(** The final [removeIds] filter. *)
Definition removal (removeIds : jsval) (next : list jsval) : list jsval :=
  match removeIds with
  | JArr ((_ :: _) as rs) =>
      List.filter (fun it => truthy it && negb (existsb (fun r => sv0 r (prop_id it)) rs)) next
  | _ => next
  end.

(** [None] is an exception thrown by the call. *)
Definition mergeList (existing : jsval) (pt : patch) : option (list jsval) :=
  let mode := match p_mode pt with JUndef => JStr "replace" | m => m end in
  let items := match p_items pt with JUndef => JArr [] | i => i end in
  let removeIds := match p_removeIds pt with JUndef => JArr [] | r => r end in
  let current := match existing with JArr l => l | _ => [] end in
  let normalizedItems := match items with JArr l => l | _ => [] end in
  let modeKey :=
    if truthy mode
    then match mode with JStr s => Some (lower s) | _ => None end
    else Some "replace" in
  match modeKey with
  | None => None
  | Some mk =>
      let next :=
        if String.eqb mk "replace" then Some normalizedItems
        else if String.eqb mk "append" then Some (current ++ normalizedItems)
        else if String.eqb mk "prepend" then Some (normalizedItems ++ current)
        else if String.eqb mk "upsert" then
          match id_pairs current with
          | None => None
          | Some ps => Some (map_values (fold_left upsert_step normalizedItems (map_of_pairs ps)))
          end
        else Some current in
      match next with
      | None => None
      | Some n => Some (removal removeIds n)
      end
  end.

(** *** Patch Merge Engine: the spec's description of [upsert] *)

(** One incoming item: merged into the entry with the same id, or added
    at the end; items without a (truthy) id are ignored. *)
Definition upsert_item (acc : list jsval) (item : jsval) : list jsval :=
  if negb (truthy item) || negb (truthy (prop_id item)) then acc
  else if existsb (fun e => sv0 (prop_id e) (prop_id item)) acc
  then List.map (fun e => if sv0 (prop_id e) (prop_id item)
                          then spread_merge e item else e) acc
  else acc ++ [spread_merge JUndef item].

Definition upsert_spec (existing items : list jsval) : list jsval :=
  fold_left upsert_item items existing.

(** No existing entry is [null] / [undefined]. *)
Definition ids_present (l : list jsval) : bool :=
  forallb (fun e => match get_id e with Some _ => true | None => false end) l.

(** No two existing entries have SameValueZero-equal ids. *)
Fixpoint ids_distinct (l : list jsval) : bool :=
  match l with
  | [] => true
  | e :: rest =>
      forallb (fun e' => negb (sv0 (prop_id e) (prop_id e'))) rest && ids_distinct rest
  end.

Definition obj_a_x1 : jsval := JObj [("id", JStr "a"); ("x", JNum 1)].
Definition obj_a_y2 : jsval := JObj [("id", JStr "a"); ("y", JNum 2)].
Definition upsert_patch (items : list jsval) : patch :=
  mkPatch (JStr "upsert") (JArr items) JUndef.

(** ** Participants and the leaderboard *)

Record participant := mkParticipant {
  p_id : string;
  p_codename : string;
  p_score : num
}.

(** [{ participantId, codename, score: p.score || 0 }] *)
Record lb_row := mkRow {
  row_participantId : string;
  row_codename : string;
  row_score : num
}.

Record lb_ranked := mkRanked {
  rk_participantId : string;
  rk_codename : string;
  rk_score : num;
  rk_rank : nat
}.

(** [x || 0] on a number: 0 and NaN are falsy. *)
Definition score_or0 (x : num) : num :=
  match x with
  | Fin q => if Qeq_bool q 0 then Fin 0 else Fin q
  | NaN => Fin 0
  | other => other
  end.

Definition project (p : participant) : lb_row :=
  mkRow (p_id p) (p_codename p) (score_or0 (p_score p)).

(** The comparator [(a, b) => b.score - a.score]. *)
Definition lb_cmp (a b : lb_row) : num := num_sub (row_score b) (row_score a).

(** A comparator result below zero puts [a] before [b]. *)
Definition num_ltz (x : num) : bool :=
  match x with Fin q => qltb q 0 | NInf => true | _ => false end.

(** [Array.prototype.sort] is stable; with a consistent comparator its
    result is the stable sorted order, computed here by insertion. *)
Fixpoint sort_insert (x : lb_row) (l : list lb_row) : list lb_row :=
  match l with
  | [] => [x]
  | y :: ys => if num_ltz (lb_cmp x y) then x :: y :: ys else y :: sort_insert x ys
  end.

Definition js_sort (l : list lb_row) : list lb_row :=
  fold_left (fun acc x => sort_insert x acc) l [].

(** [.map((r, i) => ({ ...r, rank: i + 1 }))] *)
Fixpoint rank_from (n : nat) (l : list lb_row) : list lb_ranked :=
  match l with
  | [] => []
  | r :: rs =>
      mkRanked (row_participantId r) (row_codename r) (row_score r) n :: rank_from (S n) rs
  end.

(** The leaderboard of [GET /api/session/:id/leaderboard] and of
    [finalizeSession], over the participants map in insertion order. *)
Definition leaderboard (participants : @omap string participant) : list lb_ranked :=
  rank_from 1 (js_sort (List.map project (map_values participants))).

Definition unrank (r : lb_ranked) : lb_row :=
  mkRow (rk_participantId r) (rk_codename r) (rk_score r).

(** Row [a] has a finite score at least that of row [b]. *)
Definition row_ge (a b : lb_row) : Prop :=
  exists qa qb, row_score a = Fin qa /\ row_score b = Fin qb /\ qb <= qa.

Definition example_participants : @omap string participant :=
  [("p1", mkParticipant "p1" "Unit 0001" (Fin 50));
   ("p2", mkParticipant "p2" "Unit 0002" (Fin 90));
   ("p3", mkParticipant "p3" "Unit 0003" (Fin 90))].

(** ** Session state *)

(** [{ participantId, eventId, action, t, delta, reason }] *)
Record input_rec := mkInput {
  in_participantId : string;
  in_eventId : string;
  in_action : string;
  in_t : Z;
  in_delta : num;
  in_reason : string
}.

Record score_agg := mkAgg {
  agg_mean : num;
  agg_max : num;
  agg_activeCount : nat
}.

(** Pending one-shot timers ([setTimeout]); the delay is in milliseconds. *)
Inductive timer : Type :=
| TAlgo (eventId : string) (windowEnd : Q) (text : string) (delay : Q)
| TClose (eventId : string) (delay : Q)
| TFinalize (delay : Q).

(** Messages pushed to sockets. *)
Inductive msg : Type :=
| MTick (t : Z)
| MEventOpen (eventId : string)
| MEventClose (eventId : string)
| MAlgo (eventId : string) (text : string)
| MFeedback (eventId : string) (delta total : num) (reason : string)
| MScoreAgg (agg : score_agg)
| MFinalBoard (rows : list lb_ranked)
| MFinalPersonal (total : num)
| MLog (tag : string)
| MDashboardPatch
| MHelloAck (participantId codename : string).

(** A broadcast to the ops set, to the control set, or a send to one
    socket (named by its identity). *)
Inductive effect : Type :=
| ToOps (m : msg)
| ToControl (m : msg)
| ToSocket (ws : string) (m : msg).

(** [session]: [startedAt] is [Date.now()] at start (a positive number);
    [intervalOn] says whether the tick interval is armed; [control] is the
    Set [sockets.control] in insertion order, each socket (named by its
    identity) with its [ws._pid]. *)
Record session := mkSession {
  s_startedAt : option Z;
  s_intervalOn : bool;
  s_finalized : bool;
  s_events : list event;
  s_endBufferSec : option Q;
  s_participants : @omap string participant;
  s_inputs : @omap string (@omap string input_rec);
  s_scoreAgg : score_agg;
  s_control : @omap string string;
  s_timers : list timer
}.

Definition set_events (s : session) (evs : list event) : session :=
  mkSession (s_startedAt s) (s_intervalOn s) (s_finalized s) evs (s_endBufferSec s)
            (s_participants s) (s_inputs s) (s_scoreAgg s) (s_control s) (s_timers s).
Definition set_participants (s : session) (ps : @omap string participant) : session :=
  mkSession (s_startedAt s) (s_intervalOn s) (s_finalized s) (s_events s) (s_endBufferSec s)
            ps (s_inputs s) (s_scoreAgg s) (s_control s) (s_timers s).
Definition set_inputs (s : session) (ins : @omap string (@omap string input_rec)) : session :=
  mkSession (s_startedAt s) (s_intervalOn s) (s_finalized s) (s_events s) (s_endBufferSec s)
            (s_participants s) ins (s_scoreAgg s) (s_control s) (s_timers s).
Definition set_scoreAgg (s : session) (a : score_agg) : session :=
  mkSession (s_startedAt s) (s_intervalOn s) (s_finalized s) (s_events s) (s_endBufferSec s)
            (s_participants s) (s_inputs s) a (s_control s) (s_timers s).
Definition set_control (s : session) (c : @omap string string) : session :=
  mkSession (s_startedAt s) (s_intervalOn s) (s_finalized s) (s_events s) (s_endBufferSec s)
            (s_participants s) (s_inputs s) (s_scoreAgg s) c (s_timers s).
Definition set_timers (s : session) (ts : list timer) : session :=
  mkSession (s_startedAt s) (s_intervalOn s) (s_finalized s) (s_events s) (s_endBufferSec s)
            (s_participants s) (s_inputs s) (s_scoreAgg s) (s_control s) ts.
Definition set_clock (s : session) (st : option Z) (on fin : bool) : session :=
  mkSession st on fin (s_events s) (s_endBufferSec s)
            (s_participants s) (s_inputs s) (s_scoreAgg s) (s_control s) (s_timers s).

Definition set_opened (e : event) : event :=
  mkEvent (ev_id e) (ev_t e) (ev_responseWindowSec e) (ev_correctAction e)
          (ev_pointsPossible e) (ev_penalties e) (ev_algoCopy e) (ev_location e)
          (ev_dashboard e) (ev_dashboardClose e) true (ev_closed e).
Definition set_closed (e : event) : event :=
  mkEvent (ev_id e) (ev_t e) (ev_responseWindowSec e) (ev_correctAction e)
          (ev_pointsPossible e) (ev_penalties e) (ev_algoCopy e) (ev_location e)
          (ev_dashboard e) (ev_dashboardClose e) (ev_opened e) true.
(** [delete ev._opened; delete ev._closed] *)
Definition clear_flags (e : event) : event :=
  mkEvent (ev_id e) (ev_t e) (ev_responseWindowSec e) (ev_correctAction e)
          (ev_pointsPossible e) (ev_penalties e) (ev_algoCopy e) (ev_location e)
          (ev_dashboard e) (ev_dashboardClose e) false false.

Definition set_score (p : participant) (x : num) : participant :=
  mkParticipant (p_id p) (p_codename p) x.

(** A session as created by [POST /api/session]. *)
Definition new_session (events : list event) (endBufferSec : option Q) : session :=
  mkSession None false false events endBufferSec [] [] (mkAgg (Fin 0) (Fin 0) 0) [] [].

(** [getSessionT]: whole seconds since start. *)
Definition getSessionT (s : session) (now : Z) : Z :=
  match s_startedAt s with
  | None => 0
  | Some st => Z.max 0 ((now - st) / 1000)
  end.

(** [Math.max(a, b)] *)
Definition num_max (a b : num) : num :=
  match a, b with
  | NaN, _ | _, NaN => NaN
  | PInf, _ | _, PInf => PInf
  | NInf, x | x, NInf => x
  | Fin x, Fin y => Fin (Qmax x y)
  end.

(** [recomputeAgg] *)
Definition recomputeAgg (ps : @omap string participant) : score_agg :=
  let vals := List.map (fun p => score_or0 (p_score p)) (map_values ps) in
  let n := List.length vals in
  let mean := match vals with
              | [] => Fin 0
              | _ => num_div (fold_left num_add vals (Fin 0)) (Fin (inject_Z (Z.of_nat n)))
              end in
  let mx := match vals with [] => Fin 0 | _ => fold_left num_max vals NInf end in
  mkAgg mean mx n.

(** [bcastPersonal] / the [find] over control sockets by [_pid]. *)
Definition personal (s : session) (pid : string) (m : msg) : list effect :=
  match List.find (fun kv => String.eqb (snd kv) pid) (s_control s) with
  | Some (ws, _) => [ToSocket ws m]
  | None => []
  end.

(** ** Event lifecycle *)

Definition ascii_upper (c : Ascii.ascii) : Ascii.ascii :=
  let n := Ascii.nat_of_ascii c in
  if (97 <=? n)%nat && (n <=? 122)%nat then Ascii.ascii_of_nat (n - 32) else c.

Fixpoint upper (s : string) : string :=
  match s with
  | EmptyString => EmptyString
  | String c rest => String (ascii_upper c) (upper rest)
  end.

(** The default "abrasive" prompt of an event without [algoCopy]. *)
Definition default_algo_text (ev : event) : string :=
  String.append "EXECUTE: "
    (String.append (upper (ev_correctAction ev))
       (String.append " at " (String.append (ev_location ev) "."))).

(** What the body of the [openEventsIfNeeded] loop sends for [ev]. *)
Definition open_effects (ev : event) : list effect :=
  [ToOps (MLog "EVENT OPEN"); ToOps (MEventOpen (ev_id ev)); ToControl (MEventOpen (ev_id ev))]
  ++ match ev_algoCopy ev with
     | Some _ => []
     | None => [ToControl (MAlgo (ev_id ev) (default_algo_text ev));
                ToOps (MAlgo (ev_id ev) (default_algo_text ev))]
     end
  ++ (if ev_dashboard ev then [ToOps MDashboardPatch] else []).

(** The timers the loop body schedules for [ev]: one per hint, then the
    auto-close. *)
Definition open_timers (ev : event) (tSec : Q) : list timer :=
  let windowEnd := ev_t ev + ev_responseWindowSec ev in
  match ev_algoCopy ev with
  | Some hints =>
      List.map (fun h => TAlgo (ev_id ev) windowEnd (snd h)
                               (Qmax 0 ((ev_t ev + fst h - tSec) * 1000))) hints
  | None => []
  end
  ++ [TClose (ev_id ev) (Qmax 0 ((windowEnd - tSec) * 1000))].

(** The loop of [openEventsIfNeeded] over the scenario's events. *)
Fixpoint open_pass (evs : list event) (tSec : Q) : list event * list effect * list timer :=
  match evs with
  | [] => ([], [], [])
  | ev :: rest =>
      let '(rest', eff, tms) := open_pass rest tSec in
      if ev_opened ev || qltb tSec (ev_t ev) then (ev :: rest', eff, tms)
      else (set_opened ev :: rest', open_effects ev ++ eff, open_timers ev tSec ++ tms)
  end.

Definition openEventsIfNeeded (s : session) (tSec : Z) : session * list effect :=
  let '(evs, eff, tms) := open_pass (s_events s) (inject_Z tSec) in
  (set_timers (set_events s evs) (s_timers s ++ tms), eff).

Definition find_event (evs : list event) (eventId : string) : option event :=
  find (fun e => String.eqb (ev_id e) eventId) evs.

(** [ev._closed = true] on the event that [find] returned. *)
Fixpoint close_first (eventId : string) (evs : list event) : list event :=
  match evs with
  | [] => []
  | e :: rest =>
      if String.eqb (ev_id e) eventId then set_closed e :: rest
      else e :: close_first eventId rest
  end.

(** The noResponse loop over [session.participants]. *)
Fixpoint penalize_missing (s : session) (eventId : string) (delta : Q)
         (perEvent : @omap string input_rec) (ps : @omap string participant)
  : @omap string participant * list effect :=
  match ps with
  | [] => ([], [])
  | (pid, p) :: rest =>
      let '(rest', eff) := penalize_missing s eventId delta perEvent rest in
      if map_has String.eqb perEvent pid then ((pid, p) :: rest', eff)
      else
        let p' := set_score p (num_add (score_or0 (p_score p)) (Fin delta)) in
        ((pid, p') :: rest',
         personal s pid (MFeedback eventId (Fin delta) (p_score p') "no_response") ++ eff)
  end.

Definition closeEvent (s : session) (eventId : string) : session * list effect :=
  match find_event (s_events s) eventId with
  | None => (s, [])
  | Some ev =>
      if ev_closed ev then (s, [])
      else
        let evs := close_first eventId (s_events s) in
        let perEvent := match map_get String.eqb (s_inputs s) eventId with
                        | Some m => m | None => [] end in
        let delta := with_default (-50) (pen_noResponse (ev_penalties ev)) in
        let '(ps, feedback) := penalize_missing s eventId delta perEvent (s_participants s) in
        let s1 := set_scoreAgg (set_participants (set_events s evs) ps) (recomputeAgg ps) in
        let allClosed := forallb ev_closed evs in
        let endDelay := with_default 8 (s_endBufferSec s) * 1000 in
        let s2 := if allClosed then set_timers s1 (s_timers s1 ++ [TFinalize endDelay]) else s1 in
        (s2,
         [ToOps (MLog "EVENT CLOSE")] ++ feedback ++
         [ToOps (MEventClose eventId); ToControl (MEventClose eventId)] ++
         (if ev_dashboardClose ev then [ToOps MDashboardPatch] else []))
  end.

(** ** Finalization *)

Definition finalizeSession (s : session) : session * list effect :=
  if s_finalized s then (s, [])
  else
    let board := leaderboard (s_participants s) in
    let finals :=
      List.map (fun kv =>
        ToSocket (fst kv) (MFinalPersonal
          (match map_get String.eqb (s_participants s) (snd kv) with
           | Some me => score_or0 (p_score me)
           | None => Fin 0
           end))) (s_control s) in
    (set_clock s (s_startedAt s) false true,
     [ToOps (MLog "SESSION"); ToOps (MFinalBoard board)] ++ finals).

(** ** HTTP and socket handlers *)

(** Body of [POST /api/session/:id/input] after [toString()];
    [rq_freshId] / [rq_freshCodename] stand for the [nanoid(10)] and the
    random ["Unit NNNN"] used when the field is empty. *)
Record input_req := mkReq {
  rq_participantId : string;
  rq_codename : string;
  rq_eventId : string;
  rq_action : string;
  rq_freshId : string;
  rq_freshCodename : string
}.

Inductive response : Type :=
| RStatus (code : Z) (error : string)
| RAccepted (accepted : bool) (reason : option string).

Definition req_pid (rq : input_req) : string :=
  if String.eqb (rq_participantId rq) "" then rq_freshId rq else rq_participantId rq.

Definition req_codename (rq : input_req) : string :=
  if String.eqb (rq_codename rq) "" then rq_freshCodename rq else rq_codename rq.

(** [const p = s.participants.get(pid) || {...}; p.codename = codename || p.codename] *)
Definition upsert_participant (ps : @omap string participant) (pid codename : string)
  : participant :=
  let p := match map_get String.eqb ps pid with
           | Some p => p
           | None => mkParticipant pid codename (Fin 0)
           end in
  mkParticipant (p_id p) (if String.eqb codename "" then p_codename p else codename) (p_score p).

Definition postInput (s : session) (now : Z) (rq : input_req)
  : session * list effect * response :=
  let participantId := req_pid rq in
  let codename := req_codename rq in
  let eventId := rq_eventId rq in
  let action := rq_action rq in
  let p := upsert_participant (s_participants s) participantId codename in
  let s1 := set_participants s (map_set String.eqb (s_participants s) participantId p) in
  match find_event (s_events s1) eventId with
  | None => (s1, [], RStatus 400 "EVENT_NOT_FOUND")
  | Some ev =>
      let nowSec := getSessionT s1 now in
      if qltb (inject_Z nowSec) (ev_t ev) then (s1, [], RStatus 409 "TOO_EARLY")
      else if qltb (ev_t ev + ev_responseWindowSec ev) (inject_Z nowSec) then
        let delta := with_default (-50) (pen_late (ev_penalties ev)) in
        let p' := set_score p (num_add (p_score p) (Fin delta)) in
        let ps := map_set String.eqb (s_participants s1) participantId p' in
        let s2 := set_scoreAgg (set_participants s1 ps) (recomputeAgg ps) in
        (s2,
         personal s2 participantId (MFeedback eventId (Fin delta) (p_score p') "late")
         ++ [ToOps (MLog "INPUT")],
         RAccepted false (Some "late"))
      else
        let perEvent := match map_get String.eqb (s_inputs s1) eventId with
                        | Some m => m | None => [] end in
        if map_has String.eqb perEvent participantId then
          (s1, [ToOps (MLog "INPUT")], RAccepted false (Some "duplicate"))
        else
          let r := computeScore ev action (inject_Z nowSec) in
          let rec_ := mkInput participantId eventId action nowSec (sr_delta r) (sr_reason r) in
          let perEvent' := map_set String.eqb perEvent participantId rec_ in
          let ins := map_set String.eqb (s_inputs s1) eventId perEvent' in
          let p' := set_score p (num_add (p_score p) (sr_delta r)) in
          let ps := map_set String.eqb (s_participants s1) participantId p' in
          let s2 := set_scoreAgg (set_participants (set_inputs s1 ins) ps) (recomputeAgg ps) in
          (s2,
           personal s2 participantId
             (MFeedback eventId (sr_delta r) (p_score p') (sr_reason r))
           ++ [ToOps (MScoreAgg (recomputeAgg ps)); ToOps (MLog "INPUT")],
           RAccepted true None)
  end.

(** [POST /api/session/:id/start] *)
Definition startSession (s : session) (now : Z) : session * list effect :=
  match s_startedAt s with
  | Some _ => (s, [])
  | None =>
      (set_clock (set_events s (List.map clear_flags (s_events s))) (Some now) true
                 (s_finalized s),
       [ToOps (MLog "SESSION")])
  end.

(** One firing of the [TICK_MS] interval. *)
Definition tick (s : session) (now : Z) : session * list effect :=
  if s_intervalOn s then
    let tSec := getSessionT s now in
    let '(s', eff) := openEventsIfNeeded s tSec in
    (s', [ToOps (MTick tSec); ToControl (MTick tSec)] ++ eff)
  else (s, []).

(** [POST /api/session/:id/dev/open] *)
Definition devOpen (s : session) (now : Z) (windowSec : Q)
           (correctAction location newId : string) : session * list effect :=
  match s_startedAt s with
  | None => (s, [])
  | Some _ =>
      let nowT := getSessionT s now in
      let text := String.append "EXECUTE: "
                    (String.append correctAction
                       (String.append " at " (String.append location "."))) in
      let ev := mkEvent newId (inject_Z nowT) windowSec correctAction (Some 100)
                        (mkPenalties (Some (-100)) (Some (-50)) (Some (-50)))
                        (Some [(0, text)]) location false false false false in
      let '(s', eff) := openEventsIfNeeded (set_events s (s_events s ++ [ev])) nowT in
      (s', eff ++ [ToOps (MLog "DEV")])
  end.

(** The [hello] handshake of a participant ([role = "control"]) on the
    socket [ws], at wall-clock time [now]; [pid] and [codename] are the
    resolved [participantId] and [codename].  [ws._pid = participantId]
    and [sockets.control.add(ws)]: a socket already in the Set keeps its
    place and gets its new [_pid]. *)
Definition helloControl (s : session) (ws pid codename : string) (now : Z)
  : session * list effect :=
  let wasExisting := map_has String.eqb (s_participants s) pid in
  let p := upsert_participant (s_participants s) pid codename in
  let s1 := set_control (set_participants s (map_set String.eqb (s_participants s) pid p))
                        (map_set String.eqb (s_control s) ws pid) in
  (s1, [ToSocket ws (MHelloAck pid codename);
        ToOps (MLog (if wasExisting then "REJOIN" else "JOIN"));
        ToSocket ws (MTick (getSessionT s1 now))]
       ++ List.map (fun ev => ToSocket ws (MEventOpen (ev_id ev)))
            (List.filter (fun ev => ev_opened ev && negb (ev_closed ev)) (s_events s1))).

(** [sockets.control.delete(ws)] *)
Definition control_delete (c : @omap string string) (ws : string) : @omap string string :=
  List.filter (fun kv => negb (String.eqb (fst kv) ws)) c.

(** A socket closing: only a participant socket (one that said [hello]
    as [control], hence is in the Set) is removed, with a [LEAVE] log. *)
Definition leaveControl (s : session) (ws : string) : session * list effect :=
  if map_has String.eqb (s_control s) ws
  then (set_control s (control_delete (s_control s) ws), [ToOps (MLog "LEAVE")])
  else (s, []).

Fixpoint remove_nth {A} (k : nat) (l : list A) : list A :=
  match k, l with
  | _, [] => []
  | O, _ :: rest => rest
  | S k', x :: rest => x :: remove_nth k' rest
  end.

(** Firing the [k]-th pending timer at wall-clock time [now]. *)
Definition fireTimer (s : session) (k : nat) (now : Z) : session * list effect :=
  match nth_error (s_timers s) k with
  | None => (s, [])
  | Some tm =>
      let s0 := set_timers s (remove_nth k (s_timers s)) in
      match tm with
      | TClose eventId _ => closeEvent s0 eventId
      | TFinalize _ => finalizeSession s0
      | TAlgo eventId windowEnd text _ =>
          if Qle_bool (inject_Z (getSessionT s0 now)) windowEnd
          then (s0, [ToControl (MAlgo eventId text); ToOps (MAlgo eventId text)])
          else (s0, [])
      end
  end.

(** Everything that can happen to one session.  Timers may fire in any
    order: their delays are recorded but not enforced, which only adds
    behaviours. *)
Inductive op : Type :=
| OStart (now : Z)
| OTick (now : Z)
| OFire (k : nat) (now : Z)
| OInput (now : Z) (rq : input_req)
| ODevOpen (now : Z) (windowSec : Q) (correctAction location newId : string)
| OHello (now : Z) (ws pid codename : string)
| OLeave (ws : string).

Definition step (s : session) (o : op) : session * list effect :=
  match o with
  | OStart now => startSession s now
  | OTick now => tick s now
  | OFire k now => fireTimer s k now
  | OInput now rq => let '(s', eff, _) := postInput s now rq in (s', eff)
  | ODevOpen now w ca loc nid => devOpen s now w ca loc nid
  | OHello now ws pid cn => helloControl s ws pid cn now
  | OLeave ws => leaveControl s ws
  end.

Fixpoint exec (s : session) (ops : list op) : session * list effect :=
  match ops with
  | [] => (s, [])
  | o :: rest =>
      let '(s1, e1) := step s o in
      let '(s2, e2) := exec s1 rest in
      (s2, e1 ++ e2)
  end.

(** Score of a participant, 0 for one not yet known. *)
Definition score_of (s : session) (pid : string) : num :=
  match map_get String.eqb (s_participants s) pid with
  | Some p => p_score p
  | None => Fin 0
  end.

(** The stored InputRecord of an (event, participant) pair. *)
Definition input_of (s : session) (eventId pid : string) : option input_rec :=
  match map_get String.eqb (s_inputs s) eventId with
  | Some m => map_get String.eqb m pid
  | None => None
  end.

Definition late_penalty (ev : event) : Q := with_default (-50) (pen_late (ev_penalties ev)).

Definition post_state (s : session) (now : Z) (rq : input_req) : session :=
  fst (fst (postInput s now rq)).
Definition post_response (s : session) (now : Z) (rq : input_req) : response :=
  snd (postInput s now rq).

(** The same request resubmitted at each of the instants [nows]. *)
Definition resubmit (s : session) (rq : input_req) (nows : list Z) : session :=
  fold_left (fun s' now => post_state s' now rq) nows s.

Definition rq_p1 (action : string) : input_req :=
  mkReq "p1" "Ash" "E1" action "x" "Unit 0001".

(** Started at 0 with the example event; "p1" answered "Dispatch" at 12 s. *)
Definition session_answered : session :=
  fst (exec (new_session [ev_dispatch] None) [OStart 0; OInput 12000 (rq_p1 "Dispatch")]).

Definition session_started : session :=
  fst (startSession (new_session [ev_dispatch] None) 0).

(** ** Traces *)

(** The states after each operation. *)
Fixpoint trace (s : session) (ops : list op) : list session :=
  match ops with
  | [] => []
  | o :: rest => let s1 := fst (step s o) in s1 :: trace s1 rest
  end.

(** Number of false -> true transitions in a sequence of flags. *)
Fixpoint rises (l : list bool) : nat :=
  match l with
  | a :: ((b :: _) as rest) => (if negb a && b then 1 else 0) + rises rest
  | _ => 0
  end.

(** A flag of the [i]-th event; false while there is no such event. *)
Definition flag_at (f : event -> bool) (i : nat) (evs : list event) : bool :=
  match nth_error evs i with Some e => f e | None => false end.
Definition opened_at (i : nat) (s : session) : bool := flag_at ev_opened i (s_events s).
Definition closed_at (i : nat) (s : session) : bool := flag_at ev_closed i (s_events s).

(** What the loop of [openEventsIfNeeded] does to one event. *)
Definition open_step (tSec : Q) (ev : event) : event :=
  if ev_opened ev || qltb tSec (ev_t ev) then ev else set_opened ev.
Definition open_step_effects (tSec : Q) (ev : event) : list effect :=
  if ev_opened ev || qltb tSec (ev_t ev) then [] else open_effects ev.
Definition open_step_timers (tSec : Q) (ev : event) : list timer :=
  if ev_opened ev || qltb tSec (ev_t ev) then [] else open_timers ev tSec.

(** The instant of the operations that run the open pass. *)
Definition open_pass_time (o : op) : option Z :=
  match o with
  | OTick now => Some now
  | ODevOpen now _ _ _ _ => Some now
  | _ => None
  end.

(** The states a session can be in: before the start no timer is pending,
    the interval is off, nothing is finalized and no event is flagged; a
    finalized session has its interval off. *)
Definition session_okb (s : session) : bool :=
  match s_startedAt s with
  | None =>
      match s_timers s with [] => true | _ :: _ => false end
      && negb (s_intervalOn s) && negb (s_finalized s)
      && forallb (fun e => negb (ev_opened e) && negb (ev_closed e)) (s_events s)
  | Some _ => true
  end
  && implb (s_finalized s) (negb (s_intervalOn s)).

Definition is_final_board (e : effect) : bool :=
  match e with ToOps (MFinalBoard _) => true | _ => false end.
Definition count_board (effs : list effect) : nat := List.length (List.filter is_final_board effs).

Definition is_finalize_timer (tm : timer) : bool :=
  match tm with TFinalize _ => true | _ => false end.
Definition count_fin (ts : list timer) : nat := List.length (List.filter is_finalize_timer ts).

Definition full_run : list op :=
  [OStart 0; OHello 1000 "w1" "p1" "Ash"; OTick 10000; OInput 12000 (rq_p1 "Dispatch");
   OFire 0 20000; OFire 0 28000; OTick 29000].

(** The event built by [POST /api/session/:id/dev/open]. *)
Definition dev_event (s : session) (now : Z) (w : Q) (ca loc nid : string) : event :=
  mkEvent nid (inject_Z (getSessionT s now)) w ca (Some 100)
          (mkPenalties (Some (-100)) (Some (-50)) (Some (-50)))
          (Some [(0, String.append "EXECUTE: "
                       (String.append ca (String.append " at " (String.append loc "."))))])
          loc false false false false.

(** Every adjacent pair of a flag sequence goes false -> anything or true -> true. *)
Fixpoint monotone (l : list bool) : Prop :=
  match l with
  | a :: ((b :: _) as rest) => (a = true -> b = true) /\ monotone rest
  | _ => True
  end.

(** ** Session log ([sessionLog]) *)

Definition MAX_SESSION_LOGS : nat := 400.

(** [l.slice(-n)] *)
Definition lastn {A} (n : nat) (l : list A) : list A :=
  skipn (Nat.sub (List.length l) n) l.

(** [session.logs.push(entry)], then
    [if (logs.length > MAX_SESSION_LOGS) logs.splice(0, logs.length - MAX_SESSION_LOGS)]. *)
Definition log_push {A} (logs : list A) (entry : A) : list A :=
  let l := logs ++ [entry] in
  if Nat.ltb MAX_SESSION_LOGS (List.length l)
  then skipn (Nat.sub (List.length l) MAX_SESSION_LOGS) l
  else l.

(** The logs after [sessionLog] ran for each entry of [entries]. *)
Definition log_all {A} (logs entries : list A) : list A :=
  fold_left log_push entries logs.

(** ** Dashboard state ([applyDashboardPatch]) *)

(** *** [trendSeries] *)

(** A point as [normalizeTrendPoint] builds it: [t] is always a finite
    number (the parsed [t], [Date.parse(ts)] or [Date.now()]). *)
Record trend_point := mkTrend {
  tp_t : Q;
  tp_incidents : Q;
  tp_recalibrations : Q
}.

(** ToIntegerOrInfinity of a finite number: truncation toward zero. *)
Definition q_trunc (q : Q) : Z := if Qle_bool 0 q then Qfloor q else Qceiling q.

(** [l.slice(start)] for a finite [start]. *)
Definition slice_from {A} (l : list A) (start : Q) : list A :=
  let len := Z.of_nat (List.length l) in
  let rs := q_trunc start in
  let k := if (rs <? 0)%Z then Z.max (len + rs) 0 else Z.min rs len in
  skipn (Z.to_nat k) l.

(** [.sort((a, b) => a.t - b.t)], as stable insertion (see [js_sort]). *)
Fixpoint trend_insert (x : trend_point) (l : list trend_point) : list trend_point :=
  match l with
  | [] => [x]
  | y :: ys => if qltb (tp_t x - tp_t y) 0 then x :: y :: ys else y :: trend_insert x ys
  end.

Definition trend_sort (l : list trend_point) : list trend_point :=
  fold_left (fun acc x => trend_insert x acc) l [].

(** [map.set(point.t, point)] over a list, starting from [m]; numeric keys
    compare with SameValueZero, i.e. by value. *)
Definition trend_set_all (m : @omap Q trend_point) (l : list trend_point) : @omap Q trend_point :=
  fold_left (fun m p => map_set Qeq_bool m (tp_t p) p) l m.

(** The mode step of the [trendSeries] branch; [mode] is the lower-cased
    [cfg.mode || "replace"] and [normalized] the normalized [cfg.points]. *)
Definition trend_merge (mode : string) (series normalized : list trend_point)
  : list trend_point :=
  if String.eqb mode "replace" then normalized
  else if String.eqb mode "append" then series ++ normalized
  else if String.eqb mode "prepend" then normalized ++ series
  else if String.eqb mode "upsert" then
    (* new Map(state.trendSeries.map((it) => [it.t, it])), then the loop *)
    trend_sort (map_values (trend_set_all (trend_set_all [] series) normalized))
  else series.

(** [limit = Number.isFinite(Number(cfg.limit)) ? Number(cfg.limit) : 120],
    given [Number(cfg.limit)]. *)
Definition trend_limit_of (n : num) : Q :=
  match n with Fin q => q | _ => 120 end.

(** [if (series.length > limit) series = series.slice(series.length - limit)] *)
Definition trend_cap (limit : Q) (l : list trend_point) : list trend_point :=
  let len := inject_Z (Z.of_nat (List.length l)) in
  if qltb limit len then slice_from l (len - limit) else l.

(** The [trendSeries] branch; [limitNum] is [Number(cfg.limit)]. *)
Definition trendSeries_patch (mode : string) (series normalized : list trend_point)
           (limitNum : num) : list trend_point :=
  trend_cap (trend_limit_of limitNum) (trend_merge mode series normalized).

(** *** [socialFeed] *)

(** [v[k]] on a value that is a non-null object (an array has no named
    properties in parsed JSON). *)
Definition obj_get (v : jsval) (k : string) : jsval :=
  match v with JObj fs => prop_lookup k fs | _ => JUndef end.

(** [typeof v === "string" ? v : undefined] *)
Definition str_or_undef (v : jsval) : jsval :=
  match v with JStr s => JStr s | _ => JUndef end.

(** [typeof v === "string" && v ? v : dflt] *)
Definition nonempty_or (v : jsval) (dflt : string) : string :=
  match v with JStr s => if String.eqb s "" then dflt else s | _ => dflt end.

(** The callback of [normalizeSocialItems] for one entry; [fresh] is the
    [nanoid(6)] it draws when it needs one; [None] is the [null] result. *)
Definition normalize_social_entry (fresh : string) (entry : jsval) : option jsval :=
  match entry with
  | JStr s => Some (JObj [("id", JStr fresh); ("text", JStr s)])
  | JArr _ | JObj _ =>
      let id := nonempty_or (obj_get entry "id") fresh in
      match obj_get entry "text" with
      | JStr text =>
          if String.eqb text "" then None
          else Some (JObj [("id", JStr id); ("text", JStr text);
                           ("tone", str_or_undef (obj_get entry "tone"));
                           ("source", str_or_undef (obj_get entry "source"))])
      | _ => None
      end
  | _ => None
  end.

(** [items.map(...).filter(Boolean)]; entry [i] draws [fresh i]. *)
Fixpoint social_from (fresh : nat -> string) (i : nat) (l : list jsval) : list jsval :=
  match l with
  | [] => []
  | e :: rest =>
      match normalize_social_entry (fresh i) e with
      | Some it => it :: social_from fresh (S i) rest
      | None => social_from fresh (S i) rest
      end
  end.

Definition normalizeSocialItems (fresh : nat -> string) (items : jsval) : list jsval :=
  match items with JArr l => social_from fresh 0 l | _ => [] end.

(** One iteration of [map.set(item.id, { ...map.get(item.id), ...item })]. *)
Definition social_upsert_step (m : @omap jsval jsval) (item : jsval) : @omap jsval jsval :=
  let old := match map_get sv0 m (prop_id item) with Some o => o | None => JUndef end in
  map_set sv0 m (prop_id item) (spread_merge old item).

(** The [socialFeed] branch, from the current feed and the normalized items. *)
Definition socialFeed_patch (mode : string) (current normalized : list jsval) : list jsval :=
  if String.eqb mode "replace" then normalized
  else if String.eqb mode "append" then current ++ normalized
  else if String.eqb mode "prepend" then normalized ++ current
  else if String.eqb mode "upsert" then
    map_values (fold_left social_upsert_step normalized
                  (map_of_pairs (List.map (fun it => (prop_id it, it)) current)))
  else current.

(** The two shapes [normalizeSocialItems] produces. *)
Definition social_shaped (v : jsval) : Prop :=
  (exists i t, v = JObj [("id", JStr i); ("text", JStr t)]) \/
  (exists i t a b, v = JObj [("id", JStr i); ("text", JStr t); ("tone", a); ("source", b)]).

(** *** [publicEvent] *)

Definition array_nonempty (v : jsval) : bool :=
  match v with JArr (_ :: _) => true | _ => false end.

(** [const { _opened, _closed, ...rest } = ev], then the [actions] fallback. *)
Definition publicEvent (ev : list (string * jsval)) : list (string * jsval) :=
  let rest := List.filter (fun kv => negb (String.eqb (fst kv) "_opened")
                                     && negb (String.eqb (fst kv) "_closed")) ev in
  if negb (array_nonempty (prop_lookup "actions" rest))
     && array_nonempty (prop_lookup "allowedActions" rest)
  then assign rest ("actions", prop_lookup "allowedActions" rest)
  else rest.

(** ** Auxiliary notions of the proofs below *)

(** Strict sortedness by [t]. *)
Definition t_lt (a b : trend_point) : Prop := tp_t a < tp_t b.

(** The map built by the [upsert] branch: each key is the [t] of its
    point, and no two keys are equal. *)
Definition trend_map_ok (m : @omap Q trend_point) : Prop :=
  Forall (fun kv => fst kv == tp_t (snd kv)) m /\
  ForallOrdPairs (fun a b => ~ fst a == fst b) m.

(** The entries whose [normalizeSocialItems] callback returns an object. *)
Definition social_kept (e : jsval) : bool :=
  match e with
  | JStr _ => true
  | JArr _ | JObj _ =>
      match obj_get e "text" with JStr t => negb (String.eqb t "") | _ => false end
  | _ => false
  end.

Definition internal_flag (k : string) : bool :=
  String.eqb k "_opened" || String.eqb k "_closed".

(** [p.score || 0] as a rational, for scores that are finite or NaN. *)
Definition score_q (p : participant) : Q :=
  match score_or0 (p_score p) with Fin q => q | _ => 0 end.

(** A started session where "p1" answered the example event and "p2" did not. *)
Definition session_half_answered : session :=
  fst (exec (new_session [ev_dispatch] None)
            [OStart 0; OHello 1000 "w2" "p2" "Bo"; OInput 12000 (rq_p1 "Dispatch")]).


(** * Proofs *)

(** ** Scoring *)

Lemma js_round_Z (k : Z) : js_round (inject_Z k) = k.
Proof.
  unfold js_round.
  pose proof (Qfloor_le (inject_Z k + (1 # 2))) as H1.
  pose proof (Qlt_floor (inject_Z k + (1 # 2))) as H2.
  set (f := Qfloor (inject_Z k + (1 # 2))) in *.
  rewrite inject_Z_plus in H2.
  assert (A : (f < k + 1)%Z).
  { rewrite Zlt_Qlt, inject_Z_plus. change (inject_Z 1) with 1 in *. lra. }
  assert (B : (k < f + 1)%Z).
  { rewrite Zlt_Qlt, inject_Z_plus. change (inject_Z 1) with 1 in *. lra. }
  lia.
Qed.

Lemma js_round_mono (a b : Q) : a <= b -> (js_round a <= js_round b)%Z.
Proof. intro H. unfold js_round. apply Qfloor_resp_le. lra. Qed.

Lemma js_round_comp (a b : Q) : a == b -> js_round a = js_round b.
Proof. intro H. unfold js_round. apply Qfloor_comp. rewrite H. reflexivity. Qed.

Lemma qltb_false (a b : Q) : b <= a -> qltb a b = false.
Proof. intro H. unfold qltb. apply Qle_bool_iff in H. now rewrite H. Qed.

Lemma qltb_true (a b : Q) : a < b -> qltb a b = true.
Proof.
  intro H. unfold qltb. destruct (Qle_bool b a) eqn:E; [|reflexivity].
  apply Qle_bool_iff in E. lra.
Qed.

(** The decay factor lies in [1/2, 1] inside the window. *)
Lemma decay_factor_range (t w n : Q) :
  0 < w -> t <= n <= t + w ->
  1 # 2 <= 1 - ((n - t) / w) / 2 <= 1.
Proof.
  intros Hw [H1 H2].
  assert (0 <= (n - t) / w).
  { apply Qle_shift_div_l; lra. }
  assert ((n - t) / w <= 1).
  { apply Qle_shift_div_r; lra. }
  set (r := (n - t) / w) in *.
  unfold Qdiv. change (/ 2) with (1 # 2).
  split; lra.
Qed.

Lemma computeScore_correct_path (ev : event) (n : Q) :
  0 < ev_responseWindowSec ev ->
  ev_t ev <= n <= ev_t ev + ev_responseWindowSec ev ->
  computeScore ev (ev_correctAction ev) n =
  mkScore (Fin (inject_Z (decay_formula (ev_t ev) (ev_responseWindowSec ev)
                                        (points_of ev) n)))
          "correct" (Some (Qmax 0 (n - ev_t ev))).
Proof.
  intros Hw [H1 H2].
  unfold computeScore, decay_formula, points_of.
  rewrite (qltb_false _ _ H2), (qltb_false _ _ H1), String.eqb_refl. simpl.
  destruct (Qeq_bool (ev_responseWindowSec ev) 0) eqn:E.
  { apply Qeq_bool_eq in E. lra. }
  simpl. do 3 f_equal.
  pose proof (decay_factor_range _ _ _ Hw (conj H1 H2)) as [F1 F2].
  set (w := ev_responseWindowSec ev) in *.
  set (P := with_default 100 (ev_pointsPossible ev)).
  apply js_round_comp.
  assert (M : Qmax 0 (n - ev_t ev) == n - ev_t ev) by (apply Q.max_r; lra).
  rewrite M.
  rewrite Q.max_r by lra.
  reflexivity.
Qed.

Lemma decay_formula_bounds (t w n : Q) (k : Z) :
  0 < w -> t <= n <= t + w -> (0 <= k)%Z ->
  (js_round ((1 # 2) * inject_Z k) <= decay_formula t w (inject_Z k) n <= k)%Z.
Proof.
  intros Hw Hn Hk.
  pose proof (decay_factor_range _ _ _ Hw Hn) as [F1 F2].
  assert (HP : 0 <= inject_Z k) by (change 0 with (inject_Z 0); rewrite <- Zle_Qle; exact Hk).
  unfold decay_formula. split.
  - apply js_round_mono. apply Qmult_le_compat_r; assumption.
  - rewrite <- (js_round_Z k) at 2. apply js_round_mono.
    rewrite <- (Qmult_1_l (inject_Z k)) at 2.
    apply Qmult_le_compat_r; assumption.
Qed.

Lemma decay_formula_antitone (t w P n n' : Q) :
  0 < w -> 0 <= P -> n <= n' ->
  (decay_formula t w P n' <= decay_formula t w P n)%Z.
Proof.
  intros Hw HP Hn.
  unfold decay_formula. apply js_round_mono. apply Qmult_le_compat_r; [|exact HP].
  assert (D : (n - t) / w <= (n' - t) / w).
  { unfold Qdiv. apply Qmult_le_compat_r; [lra|].
    apply Qinv_le_0_compat. lra. }
  set (a := (n - t) / w) in *. set (b := (n' - t) / w) in *.
  unfold Qdiv. change (/ 2) with (1 # 2). lra.
Qed.

(** C1 (amended).  For an event with a positive response window [w] and a
    budget [P] that is a non-negative integer, a correct submission at
    elapsed time [n] with [t <= n <= t + w] is scored "correct" with delta
    [round((1 - ((n - t)/w)/2) * P)]; this delta lies between
    [round(P/2)] and [P] and does not increase with [n].  For the spec's
    example (t = 10, w = 10, P = 100) a submission at 12 yields 90. *)
Theorem computeScore_correct_in_window (ev : event) (n : Q) (k : Z) :
  0 < ev_responseWindowSec ev ->
  ev_t ev <= n <= ev_t ev + ev_responseWindowSec ev ->
  points_of ev = inject_Z k -> (0 <= k)%Z ->
  sr_reason (computeScore ev (ev_correctAction ev) n) = "correct" /\
  sr_delta (computeScore ev (ev_correctAction ev) n) =
    Fin (inject_Z (decay_formula (ev_t ev) (ev_responseWindowSec ev) (points_of ev) n)) /\
  (js_round ((1 # 2) * points_of ev)
     <= decay_formula (ev_t ev) (ev_responseWindowSec ev) (points_of ev) n <= k)%Z /\
  (forall n', n <= n' <= ev_t ev + ev_responseWindowSec ev ->
     (decay_formula (ev_t ev) (ev_responseWindowSec ev) (points_of ev) n'
      <= decay_formula (ev_t ev) (ev_responseWindowSec ev) (points_of ev) n)%Z) /\
  sr_delta (computeScore ev_dispatch "Dispatch" 12) = Fin 90.
Proof.
  intros Hw Hn HP Hk.
  rewrite (computeScore_correct_path ev n Hw Hn). simpl.
  split; [reflexivity|]. split; [reflexivity|].
  split; [rewrite HP; apply decay_formula_bounds; assumption|].
  split; [|reflexivity].
  intros n' [H1 H2]. apply decay_formula_antitone; [exact Hw| |exact H1].
  rewrite HP. change 0 with (inject_Z 0). rewrite <- Zle_Qle. exact Hk.
Qed.

Lemma computeScore_correct_in_window_witness :
  (0 < ev_responseWindowSec ev_dispatch /\
   ev_t ev_dispatch <= 12 <= ev_t ev_dispatch + ev_responseWindowSec ev_dispatch /\
   points_of ev_dispatch = inject_Z 100 /\ (0 <= 100)%Z) /\
  sr_delta (computeScore ev_dispatch (ev_correctAction ev_dispatch) 12) =
    Fin (inject_Z (decay_formula 10 10 100 12)).
Proof.
  assert (A : 0 < ev_responseWindowSec ev_dispatch) by (vm_compute; reflexivity).
  assert (B : ev_t ev_dispatch <= 12 <= ev_t ev_dispatch + ev_responseWindowSec ev_dispatch)
    by (split; vm_compute; discriminate).
  assert (C : points_of ev_dispatch = inject_Z 100) by reflexivity.
  assert (D : (0 <= 100)%Z) by lia.
  split; [repeat split; assumption|].
  exact (proj1 (proj2 (computeScore_correct_in_window ev_dispatch 12 100 A B C D))).
Defined.

(** C1 (counterexample).  The bound fails without the preconditions: with a
    zero window the correct path divides 0 by 0 and the delta is NaN; a
    budget of 1/2 yields delta 1 > P; a budget of -100 yields delta -100,
    below round(-50) = -50. *)
Lemma computeScore_bound_counterexample :
  sr_reason (computeScore (ev_with 10 0 None) "Dispatch" 10) = "correct" /\
  sr_delta (computeScore (ev_with 10 0 None) "Dispatch" 10) = NaN /\
  ~ (exists q, sr_delta (computeScore (ev_with 10 0 None) "Dispatch" 10) = Fin q) /\
  sr_delta (computeScore (ev_with 10 10 (Some (1 # 2))) "Dispatch" 10) = Fin 1 /\
  sr_delta (computeScore (ev_with 10 10 (Some (-100))) "Dispatch" 10) = Fin (-100) /\
  js_round ((1 # 2) * (-100)) = (-50)%Z.
Proof.
  vm_compute. repeat split; try reflexivity.
  intros [q Hq]. discriminate Hq.
Qed.

(** ** Patch Merge Engine *)

(** C8.  From the empty collection, upserting [{id:"a", x:1}] and then
    [{id:"a", y:2}] leaves exactly one entry [{id:"a", x:1, y:2}]. *)
Theorem mergeList_upsert_roundtrip :
  match mergeList (JArr []) (upsert_patch [obj_a_x1]) with
  | Some l => mergeList (JArr l) (upsert_patch [obj_a_y2])
  | None => None
  end = Some [JObj [("id", JStr "a"); ("x", JNum 1); ("y", JNum 2)]].
Proof. vm_compute. reflexivity. Qed.

Lemma removal_default (r : jsval) (l : list jsval) :
  removal (match r with JUndef => JArr [] | r' => r' end) l = removal r l.
Proof. destruct r; reflexivity. Qed.

Lemma removal_nil_or_undef (r : jsval) (l : list jsval) :
  r = JUndef \/ r = JArr [] -> removal r l = l.
Proof. intros [-> | ->]; reflexivity. Qed.

(** C10 (amended).  A non-empty mode string whose lower-cased form is none
    of "replace", "append", "prepend", "upsert" leaves the existing entries
    as they are, up to the [removeIds] filter, which (when [removeIds] is a
    non-empty array) drops the falsy entries and those whose id is listed;
    without [removeIds] the collection is returned unchanged.  No error is
    raised. *)
Theorem mergeList_unknown_mode (cur : list jsval) (items removeIds : jsval) (m : string) :
  m <> "" ->
  lower m <> "replace" -> lower m <> "append" ->
  lower m <> "prepend" -> lower m <> "upsert" ->
  mergeList (JArr cur) (mkPatch (JStr m) items removeIds) = Some (removal removeIds cur) /\
  (removeIds = JUndef \/ removeIds = JArr [] ->
   mergeList (JArr cur) (mkPatch (JStr m) items removeIds) = Some cur).
Proof.
  intros Hm H1 H2 H3 H4.
  assert (E : mergeList (JArr cur) (mkPatch (JStr m) items removeIds) =
              Some (removal removeIds cur)).
  { unfold mergeList. simpl.
    apply String.eqb_neq in Hm. rewrite Hm. simpl.
    apply String.eqb_neq in H1, H2, H3, H4.
    rewrite H1, H2, H3, H4. destruct removeIds; reflexivity. }
  split; [exact E|]. intro Hr. rewrite E. now rewrite removal_nil_or_undef.
Qed.

Lemma mergeList_unknown_mode_witness :
  ("Foo" <> "" /\ lower "Foo" <> "replace" /\ lower "Foo" <> "append" /\
   lower "Foo" <> "prepend" /\ lower "Foo" <> "upsert") /\
  mergeList (JArr [obj_a_x1]) (mkPatch (JStr "Foo") JUndef JUndef) = Some [obj_a_x1] /\
  mergeList (JArr [obj_a_x1]) (mkPatch (JStr "Foo") JUndef (JArr [JStr "a"])) = Some [].
Proof.
  assert (A : "Foo" <> "") by discriminate.
  assert (B1 : lower "Foo" <> "replace") by (vm_compute; discriminate).
  assert (B2 : lower "Foo" <> "append") by (vm_compute; discriminate).
  assert (B3 : lower "Foo" <> "prepend") by (vm_compute; discriminate).
  assert (B4 : lower "Foo" <> "upsert") by (vm_compute; discriminate).
  split; [repeat split; assumption|]. split.
  - exact (proj2 (mergeList_unknown_mode [obj_a_x1] JUndef JUndef "Foo" A B1 B2 B3 B4)
                 (or_introl eq_refl)).
  - rewrite (proj1 (mergeList_unknown_mode [obj_a_x1] JUndef (JArr [JStr "a"]) "Foo"
                      A B1 B2 B3 B4)).
    vm_compute. reflexivity.
Defined.

(** C10 (counterexample).  The empty mode string lower-cases to "", none of
    the four names, yet [mode || "replace"] treats it as "replace" and the
    existing entry is lost; and with an unknown mode and a non-empty
    [removeIds], a [null] entry whose id is not listed is dropped too. *)
Lemma mergeList_unknown_mode_counterexample :
  lower "" <> "replace" /\
  mergeList (JArr [obj_a_x1]) (mkPatch (JStr "") (JArr []) JUndef) = Some [] /\
  mergeList (JArr [JNull; obj_a_x1]) (mkPatch (JStr "foo") (JArr []) (JArr [JStr "b"]))
    = Some [obj_a_x1].
Proof. vm_compute. repeat split; try reflexivity. discriminate. Qed.

(** *** SameValueZero *)

Lemma sv0_sym (a b : jsval) : sv0 a b = sv0 b a.
Proof.
  destruct a, b; simpl; try reflexivity.
  - destruct b, b0; reflexivity.
  - destruct (Qeq_bool q q0) eqn:E1, (Qeq_bool q0 q) eqn:E2; try reflexivity.
    + apply Qeq_bool_iff in E1. apply Qeq_bool_neq in E2. exfalso. apply E2. now symmetry.
    + apply Qeq_bool_iff in E2. apply Qeq_bool_neq in E1. exfalso. apply E1. now symmetry.
  - apply String.eqb_sym.
Qed.

Lemma sv0_trans (a b c : jsval) : sv0 a b = true -> sv0 a c = sv0 b c.
Proof.
  destruct a, b; simpl; try discriminate; intro H; destruct c; try reflexivity.
  - apply Bool.eqb_prop in H. now subst.
  - apply Qeq_bool_iff in H. simpl.
    destruct (Qeq_bool q q1) eqn:E1, (Qeq_bool q0 q1) eqn:E2; try reflexivity.
    + apply Qeq_bool_iff in E1. apply Qeq_bool_neq in E2. exfalso. apply E2.
      now rewrite <- H.
    + apply Qeq_bool_iff in E2. apply Qeq_bool_neq in E1. exfalso. apply E1.
      now rewrite H.
  - apply String.eqb_eq in H. now subst.
Qed.

(** *** Property lookup through object spreads *)

Lemma lookup_fold_absent (k : string) (ys : list (string * jsval)) (r : jsval) :
  existsb (fun kv => String.eqb (fst kv) k) ys = false ->
  fold_left (lookup_step k) ys r = r.
Proof.
  revert r. induction ys as [|[k' v] ys IH]; intros r H; simpl in *; [reflexivity|].
  apply orb_false_iff in H as [H1 H2]. unfold lookup_step at 2. simpl. rewrite H1.
  now apply IH.
Qed.

Lemma lookup_fold_present (k : string) (ys : list (string * jsval)) (r1 r2 : jsval) :
  existsb (fun kv => String.eqb (fst kv) k) ys = true ->
  fold_left (lookup_step k) ys r1 = fold_left (lookup_step k) ys r2.
Proof.
  revert r1 r2. induction ys as [|[k' v] ys IH]; intros r1 r2 H; simpl in *; [discriminate|].
  unfold lookup_step at 2 4. simpl.
  destruct (String.eqb k' k) eqn:E; [reflexivity|]. simpl in H. now apply IH.
Qed.

Lemma lookup_map_same (k : string) (v : jsval) (fs : list (string * jsval)) (r : jsval) :
  fold_left (lookup_step k)
    (List.map (fun kv' => if String.eqb (fst kv') k then (fst kv', v) else kv') fs) r =
  if existsb (fun kv => String.eqb (fst kv) k) fs then v else r.
Proof.
  revert r. induction fs as [|[k' w] fs IH]; intro r; simpl; [reflexivity|].
  destruct (String.eqb k' k) eqn:E; simpl; rewrite IH; unfold lookup_step; simpl;
    rewrite E; [destruct (existsb _ fs); reflexivity | reflexivity].
Qed.

Lemma lookup_map_other (k k0 : string) (v : jsval) (fs : list (string * jsval)) (r : jsval) :
  k0 <> k ->
  fold_left (lookup_step k)
    (List.map (fun kv' => if String.eqb (fst kv') k0 then (fst kv', v) else kv') fs) r =
  fold_left (lookup_step k) fs r.
Proof.
  intro Hne. revert r. induction fs as [|[k' w] fs IH]; intro r; simpl; [reflexivity|].
  destruct (String.eqb k' k0) eqn:E; simpl; rewrite IH; [|reflexivity].
  apply String.eqb_eq in E. subst k'. unfold lookup_step. simpl.
  apply String.eqb_neq in Hne. now rewrite Hne.
Qed.

Lemma lookup_assign (k : string) (fs : list (string * jsval)) (kv : string * jsval) :
  prop_lookup k (assign fs kv) = prop_lookup k (fs ++ [kv]).
Proof.
  destruct kv as [k0 v]. unfold assign, prop_lookup.
  rewrite fold_left_app. simpl. unfold lookup_step at 2. simpl.
  destruct (existsb (fun kv' => String.eqb (fst kv') k0) fs) eqn:Ex.
  - destruct (String.eqb k0 k) eqn:E.
    + apply String.eqb_eq in E. subst k0. rewrite lookup_map_same. now rewrite Ex.
    + apply String.eqb_neq in E. now rewrite lookup_map_other.
  - rewrite fold_left_app. simpl. unfold lookup_step at 2. simpl. reflexivity.
Qed.

Lemma lookup_fold_assign (k : string) (l acc : list (string * jsval)) :
  prop_lookup k (fold_left assign l acc) = prop_lookup k (acc ++ l).
Proof.
  revert acc. induction l as [|x l IH]; intro acc; simpl.
  - now rewrite app_nil_r.
  - rewrite IH. unfold prop_lookup. rewrite !fold_left_app.
    fold (prop_lookup k (assign acc x)). rewrite lookup_assign.
    unfold prop_lookup. rewrite fold_left_app. reflexivity.
Qed.

Lemma prop_id_spread_merge (e item : jsval) :
  truthy (prop_id item) = true -> prop_id (spread_merge e item) = prop_id item.
Proof.
  intro H. destruct item as [| | | | | |fs]; try discriminate H.
  unfold spread_merge, prop_id, get_id in *. simpl own_props.
  rewrite lookup_fold_assign. simpl. unfold prop_lookup in *.
  rewrite fold_left_app.
  destruct (existsb (fun kv => String.eqb (fst kv) "id") fs) eqn:Ex.
  - now apply lookup_fold_present.
  - rewrite lookup_fold_absent in H by exact Ex. discriminate H.
Qed.

(** *** The upsert map against the list description *)

(** A stored map key behaves, under SameValueZero, as the entry's id. *)
Definition keyrel (k e : jsval) : Prop := forall x, sv0 k x = sv0 (prop_id e) x.

Definition entry_rel (kv : jsval * jsval) (e : jsval) : Prop :=
  snd kv = e /\ keyrel (fst kv) e.

Lemma map_get_rel (m : @omap jsval jsval) (acc : list jsval) (i : jsval) :
  Forall2 entry_rel m acc ->
  map_get sv0 m i = find (fun e => sv0 (prop_id e) i) acc.
Proof.
  induction 1 as [|[k v] e m acc [Hv Hk] _ IH]; simpl; [reflexivity|].
  simpl in Hv, Hk. subst v. rewrite Hk. now destruct (sv0 (prop_id e) i).
Qed.

Lemma map_values_rel (m : @omap jsval jsval) (acc : list jsval) :
  Forall2 entry_rel m acc -> map_values m = acc.
Proof.
  induction 1 as [|[k v] e m acc [Hv _] _ IH]; simpl in *; [reflexivity|].
  unfold map_values in *. simpl. now rewrite Hv, IH.
Qed.

Lemma find_existsb {A} (f : A -> bool) (l : list A) :
  existsb f l = match find f l with Some _ => true | None => false end.
Proof. induction l as [|x l IH]; simpl; [reflexivity|]. now destruct (f x). Qed.

Lemma nomatch_maps (m : @omap jsval jsval) (acc : list jsval) (i v : jsval)
      (g : jsval -> jsval) :
  Forall2 entry_rel m acc ->
  (forall e, In e acc -> sv0 (prop_id e) i = false) ->
  List.map (fun kv => if sv0 (fst kv) i then (fst kv, v) else kv) m = m /\
  List.map (fun e => if sv0 (prop_id e) i then g e else e) acc = acc.
Proof.
  induction 1 as [|[k w] e m acc [Hw Hk] _ IH]; intro Hn; simpl in *; [split; reflexivity|].
  rewrite Hk. rewrite (Hn e (or_introl eq_refl)).
  destruct IH as [I1 I2]; [intros; apply Hn; now right|].
  now rewrite I1, I2.
Qed.

Lemma replace_rel (i item : jsval) :
  i = prop_id item -> truthy (prop_id item) = true ->
  forall m acc e0,
  Forall2 entry_rel m acc -> ids_distinct acc = true ->
  find (fun e => sv0 (prop_id e) i) acc = Some e0 ->
  Forall2 entry_rel
    (List.map (fun kv => if sv0 (fst kv) i then (fst kv, spread_merge e0 item) else kv) m)
    (List.map (fun e => if sv0 (prop_id e) i then spread_merge e item else e) acc).
Proof.
  intros Hi Ht m acc e0 H. revert e0.
  induction H as [|[k w] e m acc [Hw Hk] Hrest IH]; intros e0 Hd Hf; simpl in *;
    [discriminate|].
  apply andb_true_iff in Hd as [Hd1 Hd2]. subst w. rewrite Hk.
  destruct (sv0 (prop_id e) i) eqn:Ee.
  - injection Hf as <-.
    assert (Hno : forall e', In e' acc -> sv0 (prop_id e') i = false).
    { intros e' Hin. rewrite forallb_forall in Hd1. specialize (Hd1 e' Hin).
      destruct (sv0 (prop_id e') i) eqn:E'; [|reflexivity].
      rewrite (sv0_trans _ _ (prop_id e') Ee), sv0_sym, E' in Hd1. discriminate. }
    destruct (nomatch_maps m acc i (spread_merge e item) (fun e1 => spread_merge e1 item)
                Hrest Hno) as [N1 N2].
    rewrite N1, N2. constructor; [|exact Hrest].
    split; [reflexivity|]. intro x. simpl.
    rewrite Hk, prop_id_spread_merge by exact Ht. rewrite <- Hi.
    now apply sv0_trans.
  - constructor; [split; [reflexivity|exact Hk]|]. now apply IH.
Qed.

Lemma forallb_map_comp {A B} (g : B -> bool) (f : A -> B) (l : list A) :
  forallb g (List.map f l) = forallb (fun x => g (f x)) l.
Proof. induction l as [|x l IH]; simpl; [reflexivity|]. now rewrite IH. Qed.

Lemma forallb_ext_pt {A} (f1 f2 : A -> bool) (l : list A) :
  (forall x, f1 x = f2 x) -> forallb f1 l = forallb f2 l.
Proof. intro H. induction l as [|x l IH]; simpl; [reflexivity|]. now rewrite H, IH. Qed.

Lemma ids_distinct_map (f : jsval -> jsval) (acc : list jsval) :
  (forall e x, sv0 (prop_id (f e)) x = sv0 (prop_id e) x) ->
  ids_distinct (List.map f acc) = ids_distinct acc.
Proof.
  intro Hf. induction acc as [|e acc IH]; simpl; [reflexivity|].
  rewrite IH, forallb_map_comp. f_equal. apply forallb_ext_pt. intro e'.
  now rewrite Hf, sv0_sym, Hf, sv0_sym.
Qed.

Lemma ids_distinct_snoc (l : list jsval) (x : jsval) :
  ids_distinct l = true -> (forall e, In e l -> sv0 (prop_id e) (prop_id x) = false) ->
  ids_distinct (l ++ [x]) = true.
Proof.
  induction l as [|e l IH]; intros Hd Hn; simpl in *; [reflexivity|].
  apply andb_true_iff in Hd as [Hd1 Hd2].
  rewrite forallb_app, Hd1, IH; auto. simpl. now rewrite (Hn e (or_introl eq_refl)).
Qed.

Lemma upsert_step_rel (m : @omap jsval jsval) (acc : list jsval) (item : jsval) :
  Forall2 entry_rel m acc -> ids_distinct acc = true ->
  Forall2 entry_rel (upsert_step m item) (upsert_item acc item) /\
  ids_distinct (upsert_item acc item) = true.
Proof.
  intros H Hd. unfold upsert_step, upsert_item.
  destruct (negb (truthy item) || negb (truthy (prop_id item))) eqn:G; [split; assumption|].
  apply orb_false_iff in G as [_ G]. apply negb_false_iff in G.
  set (i := prop_id item).
  unfold map_set, map_has. rewrite (map_get_rel m acc i H), find_existsb.
  destruct (find (fun e => sv0 (prop_id e) i) acc) as [e0|] eqn:F.
  - split.
    + now apply (replace_rel i item eq_refl G m acc e0).
    + rewrite ids_distinct_map; [exact Hd|]. intros e x.
      destruct (sv0 (prop_id e) i) eqn:Ee; [|reflexivity].
      rewrite prop_id_spread_merge by exact G. fold i. symmetry. now apply sv0_trans.
  - assert (Hno : forall e, In e acc -> sv0 (prop_id e) i = false).
    { intros e Hin. destruct (sv0 (prop_id e) i) eqn:E; [|reflexivity].
      pose proof (find_none _ _ F e Hin) as C. simpl in C. congruence. }
    split.
    + apply Forall2_app; [exact H|]. constructor; [|constructor].
      split; [reflexivity|]. intro x. simpl. now rewrite prop_id_spread_merge.
    + apply ids_distinct_snoc; [exact Hd|]. intros e Hin.
      rewrite prop_id_spread_merge by exact G. now apply Hno.
Qed.

Lemma upsert_fold_rel (items : list jsval) :
  forall (m : @omap jsval jsval) (acc : list jsval),
  Forall2 entry_rel m acc -> ids_distinct acc = true ->
  Forall2 entry_rel (fold_left upsert_step items m) (fold_left upsert_item items acc).
Proof.
  induction items as [|it items IH]; intros m acc H Hd; simpl; [exact H|].
  destruct (upsert_step_rel m acc it H Hd) as [H1 H2]. now apply IH.
Qed.

Definition id_pair (e : jsval) : jsval * jsval := (prop_id e, e).

Lemma id_pairs_ok (cur : list jsval) :
  ids_present cur = true -> id_pairs cur = Some (List.map id_pair cur).
Proof.
  induction cur as [|e cur IH]; intro H; simpl in *; [reflexivity|].
  apply andb_true_iff in H as [H1 H2].
  destruct (get_id e) eqn:E; [|discriminate]. rewrite IH by exact H2.
  unfold id_pair, prop_id. now rewrite E.
Qed.

Lemma ids_distinct_prefix (l1 l2 : list jsval) (e : jsval) :
  ids_distinct (l1 ++ e :: l2) = true ->
  forall e', In e' l1 -> sv0 (prop_id e') (prop_id e) = false.
Proof.
  induction l1 as [|x l1 IH]; intros H e' Hin; simpl in *; [contradiction|].
  apply andb_true_iff in H as [H1 H2]. destruct Hin as [<- | Hin].
  - rewrite forallb_forall in H1.
    specialize (H1 e (in_or_app _ _ _ (or_intror (in_eq e l2)))).
    now apply negb_true_iff in H1.
  - now apply IH.
Qed.

Lemma map_get_none (m : @omap jsval jsval) (i : jsval) :
  (forall kv, In kv m -> sv0 (fst kv) i = false) -> map_get sv0 m i = None.
Proof.
  induction m as [|[k v] m IH]; intro H; simpl; [reflexivity|].
  pose proof (H (k, v) (or_introl eq_refl)) as Hk. simpl in Hk. rewrite Hk. apply IH. intros kv Hin. apply H. now right.
Qed.

Lemma map_of_pairs_gen (rest pre : list jsval) :
  ids_distinct (pre ++ rest) = true ->
  fold_left (fun m kv => map_set sv0 m (fst kv) (snd kv)) (List.map id_pair rest)
            (List.map id_pair pre) = List.map id_pair (pre ++ rest).
Proof.
  revert pre. induction rest as [|e rest IH]; intros pre H; simpl.
  - now rewrite app_nil_r.
  - unfold map_set, map_has.
    rewrite map_get_none.
    + assert (E : List.map id_pair pre ++ [(prop_id e, e)] = List.map id_pair (pre ++ [e]))
        by (rewrite List.map_app; reflexivity).
      simpl. rewrite E, IH; rewrite <- app_assoc; [reflexivity | exact H].
    + intros kv Hin. apply in_map_iff in Hin as [e' [<- Hin]].
      now apply (ids_distinct_prefix pre rest e H).
Qed.

Lemma map_of_pairs_ok (cur : list jsval) :
  ids_distinct cur = true -> map_of_pairs (List.map id_pair cur) = List.map id_pair cur.
Proof. intro H. exact (map_of_pairs_gen cur [] H). Qed.

Lemma id_pair_rel (cur : list jsval) : Forall2 entry_rel (List.map id_pair cur) cur.
Proof.
  induction cur as [|e cur IH]; simpl; constructor; [|exact IH].
  split; [reflexivity|]. intro x. reflexivity.
Qed.

(** C7 (amended).  [replace] yields the items, [append] existing followed by
    items, [prepend] items followed by existing; [upsert], when the existing
    entries are non-null with pairwise distinct ids, yields the existing
    entries with each one whose id matches an incoming item shallow-merged
    with it (in place), the incoming items with an unmatched id added at the
    end, and incoming items without a truthy id ignored.  In every mode the
    result then goes through the [removeIds] filter ([removal]), which drops
    the entries whose id is listed (and, when [removeIds] is a non-empty
    array, the falsy entries). *)
Theorem mergeList_modes (cur items : list jsval) (removeIds : jsval) :
  mergeList (JArr cur) (mkPatch (JStr "replace") (JArr items) removeIds)
    = Some (removal removeIds items) /\
  mergeList (JArr cur) (mkPatch (JStr "append") (JArr items) removeIds)
    = Some (removal removeIds (cur ++ items)) /\
  mergeList (JArr cur) (mkPatch (JStr "prepend") (JArr items) removeIds)
    = Some (removal removeIds (items ++ cur)) /\
  (ids_present cur = true -> ids_distinct cur = true ->
   mergeList (JArr cur) (mkPatch (JStr "upsert") (JArr items) removeIds)
     = Some (removal removeIds (upsert_spec cur items))).
Proof.
  split; [|split; [|split]];
    [unfold mergeList; simpl; destruct removeIds; reflexivity ..|].
  intros Hp Hd. unfold mergeList. simpl.
  rewrite (id_pairs_ok cur Hp), (map_of_pairs_ok cur Hd).
  rewrite (map_values_rel _ _ (upsert_fold_rel items _ cur (id_pair_rel cur) Hd)).
  destruct removeIds; reflexivity.
Qed.

Lemma mergeList_modes_witness :
  (ids_present [obj_a_x1] = true /\ ids_distinct [obj_a_x1] = true) /\
  mergeList (JArr [obj_a_x1]) (mkPatch (JStr "upsert") (JArr [obj_a_y2]) JUndef)
    = Some (removal JUndef (upsert_spec [obj_a_x1] [obj_a_y2])) /\
  mergeList (JArr []) (mkPatch (JStr "replace") (JArr [obj_a_x1]) (JArr [JStr "a"])) = Some [].
Proof.
  assert (A : ids_present [obj_a_x1] = true) by reflexivity.
  assert (B : ids_distinct [obj_a_x1] = true) by reflexivity.
  split; [split; assumption|]. split.
  - exact (proj2 (proj2 (proj2 (mergeList_modes [obj_a_x1] [obj_a_y2] JUndef))) A B).
  - rewrite (proj1 (mergeList_modes [] [obj_a_x1] (JArr [JStr "a"]))). vm_compute. reflexivity.
Defined.

(** C7 (counterexample).  [upsert] keys entries by id: two existing entries
    sharing the id "a" collapse into the last one although no incoming item
    matches them; an incoming item without an id is not added; a [null]
    existing entry makes [it.id] throw. *)
Lemma mergeList_upsert_counterexample :
  mergeList (JArr [obj_a_x1; JObj [("id", JStr "a"); ("x", JNum 2)]])
            (upsert_patch [])
    = Some [JObj [("id", JStr "a"); ("x", JNum 2)]] /\
  mergeList (JArr [obj_a_x1]) (upsert_patch [JObj [("x", JNum 5)]]) = Some [obj_a_x1] /\
  mergeList (JArr [JNull]) (upsert_patch [obj_a_x1]) = None.
Proof. vm_compute. repeat split. Qed.

(** ** Leaderboard *)

Definition finite_row (r : lb_row) : Prop := exists q, row_score r = Fin q.

Lemma sort_insert_perm (x : lb_row) (l : list lb_row) :
  Permutation (sort_insert x l) (x :: l).
Proof.
  induction l as [|y l IH]; simpl; [reflexivity|].
  destruct (num_ltz (lb_cmp x y)); [reflexivity|].
  rewrite IH. apply perm_swap.
Qed.

Lemma js_sort_perm_gen (l acc : list lb_row) :
  Permutation (fold_left (fun acc x => sort_insert x acc) l acc) (acc ++ l).
Proof.
  revert acc. induction l as [|x l IH]; intro acc; simpl.
  - now rewrite app_nil_r.
  - rewrite IH, sort_insert_perm. simpl. apply Permutation_middle.
Qed.

Lemma js_sort_perm (l : list lb_row) : Permutation (js_sort l) l.
Proof. exact (js_sort_perm_gen l []). Qed.

Lemma lb_cmp_fin (x y : lb_row) (qx qy : Q) :
  row_score x = Fin qx -> row_score y = Fin qy ->
  num_ltz (lb_cmp x y) = qltb (qy - qx) 0.
Proof. intros Hx Hy. unfold lb_cmp. now rewrite Hx, Hy. Qed.

Lemma qltb_iff (a b : Q) : qltb a b = true <-> a < b.
Proof.
  unfold qltb. split; intro H.
  - destruct (Qle_bool b a) eqn:E; [discriminate|].
    apply Qnot_le_lt. intro C. apply Qle_bool_iff in C. congruence.
  - destruct (Qle_bool b a) eqn:E; [|reflexivity].
    apply Qle_bool_iff in E. lra.
Qed.

Lemma sort_insert_sorted (x : lb_row) (l : list lb_row) :
  finite_row x -> Forall finite_row l -> Sorted row_ge l -> Sorted row_ge (sort_insert x l).
Proof.
  intros [qx Hx]. induction l as [|y l IH]; intros Hf Hs; simpl.
  - repeat constructor.
  - inversion Hf as [|? ? [qy Hy] Hf']; subst.
    rewrite (lb_cmp_fin x y qx qy Hx Hy).
    destruct (qltb (qy - qx) 0) eqn:E.
    + apply qltb_iff in E. constructor; [exact Hs|].
      constructor. exists qx, qy. repeat split; auto. lra.
    + assert (Hle : qx <= qy).
      { destruct (Qlt_le_dec qy qx) as [C|C]; [|exact C].
        assert (qy - qx < 0) as C' by lra. apply qltb_iff in C'. congruence. }
      apply Sorted_inv in Hs as [Hs Hh].
      constructor; [now apply IH|].
      destruct l as [|z l]; simpl.
      * constructor. exists qy, qx. repeat split; auto.
      * inversion Hf' as [|? ? [qz Hz] _]; subst.
        rewrite (lb_cmp_fin x z qx qz Hx Hz).
        destruct (qltb (qz - qx) 0); constructor.
        -- exists qy, qx. repeat split; auto.
        -- now inversion Hh.
Qed.

Lemma js_sort_sorted_gen (l acc : list lb_row) :
  Forall finite_row l -> Forall finite_row acc -> Sorted row_ge acc ->
  Sorted row_ge (fold_left (fun acc x => sort_insert x acc) l acc).
Proof.
  revert acc. induction l as [|x l IH]; intros acc Hl Ha Hs; simpl; [exact Hs|].
  inversion Hl as [|? ? Hx Hl']; subst. apply IH; [exact Hl'| |].
  - apply (Permutation_Forall (Permutation_sym (sort_insert_perm x acc))).
    now constructor.
  - now apply sort_insert_sorted.
Qed.

Lemma rank_from_unrank (n : nat) (l : list lb_row) :
  List.map unrank (rank_from n l) = l.
Proof.
  revert n. induction l as [|[a b c] l IH]; intro n; simpl; [reflexivity|].
  now rewrite IH.
Qed.

Lemma rank_from_ranks (n : nat) (l : list lb_row) :
  List.map rk_rank (rank_from n l) = seq n (List.length l).
Proof.
  revert n. induction l as [|r l IH]; intro n; simpl; [reflexivity|]. now rewrite IH.
Qed.

Lemma project_finite (p : participant) :
  p_score p <> PInf -> p_score p <> NInf -> finite_row (project p).
Proof.
  intros H1 H2. unfold project, finite_row. simpl.
  destruct (p_score p) as [q| | |]; simpl; try congruence.
  - destruct (Qeq_bool q 0); eauto.
  - eauto.
Qed.

(** C9.  The leaderboard lists every participant (as the row
    [{participantId, codename, score: score || 0}]) exactly once, sorted by
    score descending, with rank equal to the 1-based position, so tied
    scores get distinct consecutive ranks; for the scores [50, 90, 90] the
    order is [90, 90, 50] with ranks [1, 2, 3].  Scores are finite or NaN
    (the only values the scoring code produces). *)
Theorem leaderboard_sorted_ranked (ps : @omap string participant) :
  (forall p, In p (map_values ps) -> p_score p <> PInf /\ p_score p <> NInf) ->
  Permutation (List.map unrank (leaderboard ps)) (List.map project (map_values ps)) /\
  Sorted row_ge (List.map unrank (leaderboard ps)) /\
  List.map rk_rank (leaderboard ps) = seq 1 (List.length ps) /\
  List.map (fun r => (rk_participantId r, rk_score r, rk_rank r))
           (leaderboard example_participants)
    = [("p2", Fin 90, 1%nat); ("p3", Fin 90, 2%nat); ("p1", Fin 50, 3%nat)].
Proof.
  intro Hfin. unfold leaderboard. rewrite rank_from_unrank.
  split; [apply js_sort_perm|]. split; [|split; [|vm_compute; reflexivity]].
  - apply js_sort_sorted_gen; [|constructor|constructor].
    apply Forall_forall. intros r Hin. apply in_map_iff in Hin as [p [<- Hp]].
    destruct (Hfin p Hp). now apply project_finite.
  - rewrite rank_from_ranks. f_equal.
    rewrite (Permutation_length (js_sort_perm _)), length_map.
    unfold map_values. now rewrite length_map.
Qed.

Lemma leaderboard_sorted_ranked_witness :
  (forall p, In p (map_values example_participants) ->
             p_score p <> PInf /\ p_score p <> NInf) /\
  List.map rk_rank (leaderboard example_participants) = [1; 2; 3]%nat.
Proof.
  assert (H : forall p, In p (map_values example_participants) ->
                        p_score p <> PInf /\ p_score p <> NInf).
  { intros p Hp. simpl in Hp.
    destruct Hp as [<- | [<- | [<- | []]]]; simpl; split; discriminate. }
  split; [exact H|].
  exact (proj1 (proj2 (proj2 (leaderboard_sorted_ranked example_participants H)))).
Defined.

(** ** Input acceptance *)

Section StringMap.
Context {V : Type}.

Lemma map_get_app (m1 m2 : @omap string V) (q : string) :
  map_get String.eqb (m1 ++ m2) q =
  match map_get String.eqb m1 q with Some x => Some x | None => map_get String.eqb m2 q end.
Proof.
  induction m1 as [|[k w] m1 IH]; simpl; [reflexivity|].
  destruct (String.eqb k q); [reflexivity|exact IH].
Qed.

Lemma map_get_replace (m : @omap string V) (k q : string) (v : V) :
  map_get String.eqb
    (List.map (fun kv => if String.eqb (fst kv) k then (fst kv, v) else kv) m) q =
  if String.eqb k q then option_map (fun _ => v) (map_get String.eqb m k)
  else map_get String.eqb m q.
Proof.
  induction m as [|[k' w] m IH]; simpl.
  - now destruct (String.eqb k q).
  - destruct (String.eqb k' k) eqn:E1; simpl.
    + apply String.eqb_eq in E1. subst k'.
      destruct (String.eqb k q) eqn:Ekq; [reflexivity|].
      rewrite IH. now rewrite ?Ekq.
    + rewrite IH. destruct (String.eqb k' q) eqn:E2; [|reflexivity].
      apply String.eqb_eq in E2. subst k'.
      rewrite String.eqb_sym, E1. reflexivity.
Qed.

Lemma map_get_set (m : @omap string V) (k q : string) (v : V) :
  map_get String.eqb (map_set String.eqb m k v) q =
  if String.eqb k q then Some v else map_get String.eqb m q.
Proof.
  unfold map_set, map_has.
  destruct (map_get String.eqb m k) eqn:E.
  - rewrite map_get_replace, E. reflexivity.
  - rewrite map_get_app. simpl.
    destruct (String.eqb k q) eqn:Ekq.
    + apply String.eqb_eq in Ekq. subst q. rewrite E. simpl. now rewrite ?String.eqb_refl.
    + destruct (map_get String.eqb m q); reflexivity.
Qed.
End StringMap.

Lemma score_of_upsert (s : session) (pid codename q : string) :
  score_of (set_participants s (map_set String.eqb (s_participants s) pid
                                  (upsert_participant (s_participants s) pid codename))) q
  = score_of s q.
Proof.
  unfold score_of. simpl. rewrite map_get_set.
  destruct (String.eqb pid q) eqn:E; [|reflexivity].
  apply String.eqb_eq in E. subst q. unfold upsert_participant.
  destruct (map_get String.eqb (s_participants s) pid); reflexivity.
Qed.

(** C3 (amended).  A submission whose elapsed time is before the offset of
    its (existing) event gets HTTP 409 and leaves the InputRecords, every
    score, the aggregate, the events and the timers as they were, and sends
    nothing; the only change is the participant upsert done at the top of
    the handler (created with score 0, or codename updated). *)
Theorem postInput_too_early (s : session) (now : Z) (rq : input_req) (ev : event) :
  find_event (s_events s) (rq_eventId rq) = Some ev ->
  inject_Z (getSessionT s now) < ev_t ev ->
  postInput s now rq =
    (set_participants s (map_set String.eqb (s_participants s) (req_pid rq)
                          (upsert_participant (s_participants s) (req_pid rq) (req_codename rq))),
     [], RStatus 409 "TOO_EARLY") /\
  s_inputs (post_state s now rq) = s_inputs s /\
  s_scoreAgg (post_state s now rq) = s_scoreAgg s /\
  (forall q, score_of (post_state s now rq) q = score_of s q).
Proof.
  intros Hf Ht.
  assert (E : postInput s now rq =
    (set_participants s (map_set String.eqb (s_participants s) (req_pid rq)
                          (upsert_participant (s_participants s) (req_pid rq) (req_codename rq))),
     [], RStatus 409 "TOO_EARLY")).
  { unfold postInput. simpl. rewrite Hf.
    unfold getSessionT in *. simpl. now rewrite (qltb_true _ _ Ht). }
  unfold post_state. rewrite E. simpl. split; [reflexivity|].
  split; [reflexivity|]. split; [reflexivity|]. intro q. apply score_of_upsert.
Qed.

Lemma postInput_too_early_witness :
  (find_event (s_events session_started) (rq_eventId (rq_p1 "Dispatch")) = Some ev_dispatch /\
   inject_Z (getSessionT session_started 5000) < ev_t ev_dispatch) /\
  post_response session_started 5000 (rq_p1 "Dispatch") = RStatus 409 "TOO_EARLY".
Proof.
  assert (A : find_event (s_events session_started) (rq_eventId (rq_p1 "Dispatch"))
              = Some ev_dispatch) by reflexivity.
  assert (B : inject_Z (getSessionT session_started 5000) < ev_t ev_dispatch)
    by (vm_compute; reflexivity).
  split; [split; assumption|]. unfold post_response.
  rewrite (proj1 (postInput_too_early session_started 5000 (rq_p1 "Dispatch") ev_dispatch A B)).
  reflexivity.
Defined.

(** C3 (counterexample).  In a started session with no participant, an
    input for the event at offset 10 s sent at 5 s gets 409, yet the
    participant "p1" now exists. *)
Lemma postInput_too_early_counterexample :
  s_participants session_started = [] /\
  post_response session_started 5000 (rq_p1 "Dispatch") = RStatus 409 "TOO_EARLY" /\
  s_participants (post_state session_started 5000 (rq_p1 "Dispatch"))
    = [("p1", mkParticipant "p1" "Ash" (Fin 0))].
Proof. vm_compute. repeat split. Qed.

Lemma upsert_participant_score (ps : @omap string participant) (pid c : string) :
  p_score (upsert_participant ps pid c) =
  match map_get String.eqb ps pid with Some p => p_score p | None => Fin 0 end.
Proof. unfold upsert_participant. now destruct (map_get String.eqb ps pid). Qed.

Lemma post_state_frame (s : session) (now : Z) (rq : input_req) :
  s_events (post_state s now rq) = s_events s /\
  s_startedAt (post_state s now rq) = s_startedAt s.
Proof.
  unfold post_state, postInput. cbn zeta.
  destruct (find_event _ _) as [ev|]; [|split; reflexivity].
  destruct (qltb _ _); [split; reflexivity|].
  destruct (qltb _ _); [split; reflexivity|].
  destruct (map_has _ _ _); split; reflexivity.
Qed.

Lemma getSessionT_post (s : session) (now now' : Z) (rq : input_req) :
  getSessionT (post_state s now rq) now' = getSessionT s now'.
Proof. unfold getSessionT. now rewrite (proj2 (post_state_frame s now rq)). Qed.

Lemma getSessionT_set_participants (s : session) ps (now : Z) :
  getSessionT (set_participants s ps) now = getSessionT s now.
Proof. reflexivity. Qed.

Lemma postInput_late_step (s : session) (now : Z) (rq : input_req) (ev : event) :
  find_event (s_events s) (rq_eventId rq) = Some ev ->
  0 <= ev_responseWindowSec ev ->
  ev_t ev + ev_responseWindowSec ev < inject_Z (getSessionT s now) ->
  post_response s now rq = RAccepted false (Some "late") /\
  s_inputs (post_state s now rq) = s_inputs s /\
  score_of (post_state s now rq) (req_pid rq)
    = num_add (score_of s (req_pid rq)) (Fin (late_penalty ev)) /\
  (forall q, q <> req_pid rq -> score_of (post_state s now rq) q = score_of s q).
Proof.
  intros Hf Hw Hl.
  unfold post_response, post_state, postInput. cbn zeta. simpl s_events. rewrite Hf.
  rewrite getSessionT_set_participants.
  rewrite (qltb_false (inject_Z (getSessionT s now)) (ev_t ev) ltac:(lra)), (qltb_true _ _ Hl).
  cbn [fst snd].
  split; [reflexivity|]. split; [reflexivity|].
  unfold score_of, set_scoreAgg, set_participants. cbn [s_participants].
  split.
  - rewrite !map_get_set, String.eqb_refl. unfold set_score. cbn [p_score].
    rewrite upsert_participant_score. reflexivity.
  - intros q Hq. rewrite !map_get_set.
    assert (Hq2 : (req_pid rq =? q)%string = false) by (apply String.eqb_neq; congruence).
    now rewrite Hq2.
Qed.

(** C4 (amended).  With a non-negative window, a submission whose elapsed time is
    strictly past offset + window is answered accepted:false, reason "late",
    adds penalties.late (default -50) to the submitter's score, leaves the
    other scores alone and stores no InputRecord; so the same request sent
    again at any number of such instants is penalized once per submission. *)
Theorem postInput_late (s : session) (now : Z) (rq : input_req) (ev : event) (nows : list Z) :
  find_event (s_events s) (rq_eventId rq) = Some ev ->
  0 <= ev_responseWindowSec ev ->
  ev_t ev + ev_responseWindowSec ev < inject_Z (getSessionT s now) ->
  Forall (fun n => ev_t ev + ev_responseWindowSec ev < inject_Z (getSessionT s n)) nows ->
  (post_response s now rq = RAccepted false (Some "late") /\
   s_inputs (post_state s now rq) = s_inputs s /\
   score_of (post_state s now rq) (req_pid rq)
     = num_add (score_of s (req_pid rq)) (Fin (late_penalty ev))) /\
  (s_inputs (resubmit s rq nows) = s_inputs s /\
   score_of (resubmit s rq nows) (req_pid rq)
     = fold_left (fun x _ => num_add x (Fin (late_penalty ev))) nows (score_of s (req_pid rq))).
Proof.
  intros Hf Hw Hl Hall.
  destruct (postInput_late_step s now rq ev Hf Hw Hl) as (A & B & C & _).
  split; [auto|].
  unfold resubmit. clear now Hl A B C.
  revert s Hf Hall. induction nows as [|n nows IH]; intros s Hf Hall; simpl; [auto|].
  inversion Hall as [|? ? Hn Hrest]; subst.
  destruct (postInput_late_step s n rq ev Hf Hw Hn) as (_ & B & C & _).
  destruct (post_state_frame s n rq) as [Fe Fs].
  destruct (IH (post_state s n rq)) as [IH1 IH2].
  - now rewrite Fe.
  - eapply Forall_impl; [|exact Hrest]. intros m Hm. now rewrite getSessionT_post.
  - split; [now rewrite IH1, B|]. now rewrite IH2, C.
Qed.

Lemma postInput_late_witness :
  (find_event (s_events session_started) (rq_eventId (rq_p1 "Dispatch")) = Some ev_dispatch /\
   0 <= ev_responseWindowSec ev_dispatch /\
   ev_t ev_dispatch + ev_responseWindowSec ev_dispatch
     < inject_Z (getSessionT session_started 25000) /\
   Forall (fun n => ev_t ev_dispatch + ev_responseWindowSec ev_dispatch
                     < inject_Z (getSessionT session_started n)) [30000%Z; 40000%Z]) /\
  score_of (resubmit session_started (rq_p1 "Dispatch") [30000%Z; 40000%Z]) "p1" = Fin (-100).
Proof.
  assert (A : find_event (s_events session_started) (rq_eventId (rq_p1 "Dispatch"))
              = Some ev_dispatch) by reflexivity.
  assert (B : 0 <= ev_responseWindowSec ev_dispatch) by (vm_compute; discriminate).
  assert (C : ev_t ev_dispatch + ev_responseWindowSec ev_dispatch
              < inject_Z (getSessionT session_started 25000)) by (vm_compute; reflexivity).
  assert (D : Forall (fun n => ev_t ev_dispatch + ev_responseWindowSec ev_dispatch
                       < inject_Z (getSessionT session_started n)) [30000%Z; 40000%Z])
    by (repeat constructor; vm_compute; reflexivity).
  split; [auto|].
  destruct (postInput_late session_started 25000 (rq_p1 "Dispatch") ev_dispatch
              [30000%Z; 40000%Z] A B C D) as [_ [_ E]].
  change "p1" with (req_pid (rq_p1 "Dispatch")). rewrite E. vm_compute. reflexivity.
Defined.

(** C4 (counterexample).  With a negative window (offset 10 s, window
    -5 s) a submission at elapsed 7 s is past offset + window, yet the
    too-early check comes first: the answer is 409 TOO_EARLY, not late. *)
Lemma postInput_late_counterexample :
  find_event (s_events (fst (startSession (new_session [ev_with 10 (-5) None] None) 0))) "E1"
    = Some (clear_flags (ev_with 10 (-5) None)) /\
  ev_t (ev_with 10 (-5) None) + ev_responseWindowSec (ev_with 10 (-5) None)
    < inject_Z (getSessionT (fst (startSession (new_session [ev_with 10 (-5) None] None) 0)) 7000) /\
  post_response (fst (startSession (new_session [ev_with 10 (-5) None] None) 0)) 7000
    (rq_p1 "Dispatch") = RStatus 409 "TOO_EARLY".
Proof. split; [|split]; vm_compute; reflexivity. Qed.

(** ** Write-once InputRecords *)

Lemma openEventsIfNeeded_inputs (s : session) (t : Z) :
  s_inputs (fst (openEventsIfNeeded s t)) = s_inputs s.
Proof.
  unfold openEventsIfNeeded.
  destruct (open_pass (s_events s) (inject_Z t)) as [[evs eff] tms]. reflexivity.
Qed.

Lemma closeEvent_inputs (s : session) (eventId : string) :
  s_inputs (fst (closeEvent s eventId)) = s_inputs s.
Proof.
  unfold closeEvent. destruct (find_event _ _) as [ev|]; [|reflexivity].
  destruct (ev_closed ev); [reflexivity|]. cbn zeta.
  destruct (penalize_missing _ _ _ _ _) as [ps fb].
  destruct (forallb ev_closed _); reflexivity.
Qed.

Lemma finalizeSession_inputs (s : session) :
  s_inputs (fst (finalizeSession s)) = s_inputs s.
Proof. unfold finalizeSession. destruct (s_finalized s); reflexivity. Qed.

Lemma step_inputs_other (s : session) (o : op) :
  (forall now rq, o <> OInput now rq) -> s_inputs (fst (step s o)) = s_inputs s.
Proof.
  intro Ho. destruct o as [now|now|k now|now rq|now w ca loc nid|hnow ws pid cn|ws].
  - unfold step, startSession. destruct (s_startedAt s); reflexivity.
  - unfold step, tick. destruct (s_intervalOn s); [|reflexivity].
    pose proof (openEventsIfNeeded_inputs s (getSessionT s now)) as E.
    destruct (openEventsIfNeeded s (getSessionT s now)). exact E.
  - unfold step, fireTimer. destruct (nth_error (s_timers s) k) as [tm|]; [|reflexivity].
    destruct tm.
    + cbn zeta. destruct (Qle_bool _ _); reflexivity.
    + rewrite closeEvent_inputs. reflexivity.
    + rewrite finalizeSession_inputs. reflexivity.
  - exfalso. exact (Ho now rq eq_refl).
  - unfold step, devOpen. destruct (s_startedAt s); [|reflexivity]. cbn zeta.
    pose proof (openEventsIfNeeded_inputs
                  (set_events s (s_events s ++ [mkEvent nid (inject_Z (getSessionT s now)) w ca
                     (Some 100) (mkPenalties (Some (-100)) (Some (-50)) (Some (-50)))
                     (Some [(0, String.append "EXECUTE: " (String.append ca
                        (String.append " at " (String.append loc "."))))])
                     loc false false false false]))
                  (getSessionT s now)) as E.
    destruct (openEventsIfNeeded _ _). exact E.
  - reflexivity.
  - unfold step, leaveControl in *; destruct (map_has String.eqb (s_control s) ws); (reflexivity).
Qed.

Lemma map_has_none {V} (m : @omap string V) (k : string) :
  map_has String.eqb m k = false -> map_get String.eqb m k = None.
Proof. unfold map_has. now destruct (map_get String.eqb m k). Qed.

Lemma postInput_keeps_input (s : session) (now : Z) (rq : input_req) (e p : string)
      (r : input_rec) :
  input_of s e p = Some r -> input_of (post_state s now rq) e p = Some r.
Proof.
  intro H. unfold post_state, postInput. cbn zeta.
  destruct (find_event _ _) as [ev|]; [|exact H].
  destruct (qltb _ _); [exact H|].
  destruct (qltb _ _); [exact H|].
  destruct (map_has _ _ _) eqn:Hhas; [exact H|]. cbn [fst].
  unfold set_participants at 1 in Hhas. cbn [s_inputs] in Hhas.
  unfold input_of in *. unfold set_scoreAgg, set_participants, set_inputs.
  cbn [s_inputs s_participants].
  rewrite map_get_set. destruct (String.eqb (rq_eventId rq) e) eqn:Ee; [|exact H].
  apply String.eqb_eq in Ee. subst e.
  destruct (map_get String.eqb (s_inputs s) (rq_eventId rq)) as [m|] eqn:Em; [|discriminate].
  rewrite map_get_set. destruct (String.eqb (req_pid rq) p) eqn:Ep; [|exact H].
  apply String.eqb_eq in Ep. subst p.
  apply map_has_none in Hhas. congruence.
Qed.

Lemma step_keeps_input (s : session) (o : op) (e p : string) (r : input_rec) :
  input_of s e p = Some r -> input_of (fst (step s o)) e p = Some r.
Proof.
  intro H. destruct o as [now|now|k now|now rq|now w ca loc nid|hnow ws pid cn|ws];
    try (unfold input_of; rewrite step_inputs_other; [exact H| intros ? ? ?; discriminate]).
  pose proof (postInput_keeps_input s now rq e p r H) as K. unfold post_state in K.
  unfold step. destruct (postInput s now rq) as [[s' eff] resp]. exact K.
Qed.

Lemma exec_keeps_input (ops : list op) (s : session) (e p : string) (r : input_rec) :
  input_of s e p = Some r -> input_of (fst (exec s ops)) e p = Some r.
Proof.
  revert s. induction ops as [|o ops IH]; intros s H; [exact H|].
  simpl. pose proof (step_keeps_input s o e p r H) as H1.
  destruct (step s o) as [s1 e1]. simpl in H1.
  specialize (IH s1 H1). destruct (exec s1 ops) as [s2 e2]. exact IH.
Qed.

(** C2 (amended).  A submission that arrives inside its event's window
    (offset <= elapsed <= offset + window) for a pair that already has an
    InputRecord is answered accepted:false, reason "duplicate", with the
    InputRecords, the aggregate and every score unchanged; and an
    InputRecord, once stored, is kept unchanged by every later sequence of
    operations, so a pair never gets a second one.  (A second submission
    past the window takes the late path instead.) *)
Theorem postInput_duplicate_write_once (s : session) (now : Z) (rq : input_req) (ev : event)
        (r0 : input_rec) :
  find_event (s_events s) (rq_eventId rq) = Some ev ->
  ev_t ev <= inject_Z (getSessionT s now) <= ev_t ev + ev_responseWindowSec ev ->
  input_of s (rq_eventId rq) (req_pid rq) = Some r0 ->
  (post_response s now rq = RAccepted false (Some "duplicate") /\
   s_inputs (post_state s now rq) = s_inputs s /\
   s_scoreAgg (post_state s now rq) = s_scoreAgg s /\
   (forall q, score_of (post_state s now rq) q = score_of s q)) /\
  (forall ops e p r, input_of s e p = Some r -> input_of (fst (exec s ops)) e p = Some r).
Proof.
  intros Hf [Hlo Hhi] Hin. split; [|intros ops e p r; apply exec_keeps_input].
  assert (Hhas : map_has String.eqb
                   (match map_get String.eqb (s_inputs s) (rq_eventId rq) with
                    | Some m => m | None => [] end) (req_pid rq) = true).
  { unfold input_of in Hin. unfold map_has.
    destruct (map_get String.eqb (s_inputs s) (rq_eventId rq)); [|discriminate].
    now rewrite Hin. }
  assert (E : postInput s now rq =
    (set_participants s (map_set String.eqb (s_participants s) (req_pid rq)
                          (upsert_participant (s_participants s) (req_pid rq) (req_codename rq))),
     [ToOps (MLog "INPUT")], RAccepted false (Some "duplicate"))).
  { unfold postInput. cbn zeta. cbn [s_events set_participants]. rewrite Hf.
    rewrite getSessionT_set_participants.
    rewrite (qltb_false (inject_Z (getSessionT s now)) (ev_t ev) Hlo).
    rewrite (qltb_false (ev_t ev + ev_responseWindowSec ev) (inject_Z (getSessionT s now)) Hhi).
    cbn [s_inputs set_participants]. now rewrite Hhas. }
  unfold post_response, post_state. rewrite E. cbn [fst snd].
  split; [reflexivity|]. split; [reflexivity|]. split; [reflexivity|].
  intro q. apply score_of_upsert.
Qed.

Lemma postInput_duplicate_write_once_witness :
  (find_event (s_events session_answered) (rq_eventId (rq_p1 "Dispatch")) = Some ev_dispatch /\
   input_of session_answered "E1" "p1" = Some (mkInput "p1" "E1" "Dispatch" 12 (Fin 90) "correct")) /\
  post_response session_answered 15000 (rq_p1 "Dispatch") = RAccepted false (Some "duplicate").
Proof.
  assert (A : find_event (s_events session_answered) (rq_eventId (rq_p1 "Dispatch"))
              = Some ev_dispatch) by (vm_compute; reflexivity).
  assert (B : ev_t ev_dispatch <= inject_Z (getSessionT session_answered 15000)
              <= ev_t ev_dispatch + ev_responseWindowSec ev_dispatch)
    by (split; vm_compute; discriminate).
  assert (C : input_of session_answered (rq_eventId (rq_p1 "Dispatch"))
                (req_pid (rq_p1 "Dispatch"))
              = Some (mkInput "p1" "E1" "Dispatch" 12 (Fin 90) "correct"))
    by (vm_compute; reflexivity).
  split; [split; [exact A | exact C]|].
  exact (proj1 (proj1 (postInput_duplicate_write_once session_answered 15000
                         (rq_p1 "Dispatch") ev_dispatch _ A B C))).
Defined.

(** C2 (counterexample).  "p1" has a stored InputRecord for "E1" (score 90);
    the same submission sent again at 25 s, past the 10 s + 10 s window, is
    answered reason "late" rather than "duplicate", and the score drops to 40. *)
Lemma postInput_second_submission_counterexample :
  input_of session_answered "E1" "p1"
    = Some (mkInput "p1" "E1" "Dispatch" 12 (Fin 90) "correct") /\
  score_of session_answered "p1" = Fin 90 /\
  post_response session_answered 25000 (rq_p1 "Dispatch") = RAccepted false (Some "late") /\
  score_of (post_state session_answered 25000 (rq_p1 "Dispatch")) "p1" = Fin 40.
Proof. vm_compute. repeat split. Qed.

(** ** Event lifecycle and finalization *)

Lemma qltb_false_le (a b : Q) : qltb a b = false -> b <= a.
Proof.
  unfold qltb. destruct (Qle_bool b a) eqn:E; [|discriminate].
  intros _. now apply Qle_bool_iff.
Qed.

Lemma open_pass_spec (evs : list event) (tSec : Q) :
  open_pass evs tSec =
  (List.map (open_step tSec) evs, flat_map (open_step_effects tSec) evs,
   flat_map (open_step_timers tSec) evs).
Proof.
  induction evs as [|ev rest IH]; [reflexivity|]. simpl. rewrite IH.
  unfold open_step, open_step_effects, open_step_timers.
  destruct (ev_opened ev || qltb tSec (ev_t ev)); reflexivity.
Qed.

Lemma openEventsIfNeeded_eq (s : session) (t : Z) :
  openEventsIfNeeded s t =
  (set_timers (set_events s (List.map (open_step (inject_Z t)) (s_events s)))
              (s_timers s ++ flat_map (open_step_timers (inject_Z t)) (s_events s)),
   flat_map (open_step_effects (inject_Z t)) (s_events s)).
Proof. unfold openEventsIfNeeded. now rewrite open_pass_spec. Qed.

Lemma count_board_app (l1 l2 : list effect) :
  (count_board (l1 ++ l2) = count_board l1 + count_board l2)%nat.
Proof. unfold count_board. now rewrite List.filter_app, List.length_app. Qed.

Lemma count_board_map0 {A} (l : list A) (f : A -> effect) :
  (forall x, is_final_board (f x) = false) -> count_board (List.map f l) = 0%nat.
Proof.
  intro Hf. induction l as [|x l IH]; [reflexivity|].
  unfold count_board in *. cbn [List.map List.filter]. rewrite Hf. exact IH.
Qed.

Lemma count_fin_app (l1 l2 : list timer) :
  (count_fin (l1 ++ l2) = count_fin l1 + count_fin l2)%nat.
Proof. unfold count_fin. now rewrite List.filter_app, List.length_app. Qed.

Lemma count_fin_remove_nth (k : nat) (l : list timer) :
  (count_fin (remove_nth k l) <= count_fin l)%nat.
Proof.
  unfold count_fin. revert k. induction l as [|x l IH]; intro k; [destruct k; simpl; lia|].
  destruct k; simpl.
  - destruct (is_finalize_timer x); simpl; lia.
  - destruct (is_finalize_timer x); simpl; specialize (IH k); lia.
Qed.

Lemma count_board_personal (s : session) (pid : string) (m : msg) :
  (forall rows, m <> MFinalBoard rows) -> count_board (personal s pid m) = 0%nat.
Proof. intros _. unfold personal. destruct (List.find _ _) as [[? ?]|]; reflexivity. Qed.

Lemma count_board_open (tSec : Q) (evs : list event) :
  count_board (flat_map (open_step_effects tSec) evs) = 0%nat.
Proof.
  induction evs as [|ev rest IH]; [reflexivity|].
  simpl. rewrite count_board_app, IH. unfold open_step_effects.
  destruct (ev_opened ev || qltb tSec (ev_t ev)); [reflexivity|].
  unfold open_effects. destruct (ev_algoCopy ev), (ev_dashboard ev); reflexivity.
Qed.

Lemma count_fin_open (tSec : Q) (evs : list event) :
  count_fin (flat_map (open_step_timers tSec) evs) = 0%nat.
Proof.
  induction evs as [|ev rest IH]; [reflexivity|].
  simpl. rewrite count_fin_app, IH. unfold open_step_timers.
  destruct (ev_opened ev || qltb tSec (ev_t ev)); [reflexivity|].
  unfold open_timers. rewrite count_fin_app.
  destruct (ev_algoCopy ev) as [hints|]; [|reflexivity].
  assert (H : forall hs : list (Q * string),
             count_fin (List.map (fun h => TAlgo (ev_id ev) (ev_t ev + ev_responseWindowSec ev)
                                   (snd h) (Qmax 0 ((ev_t ev + fst h - tSec) * 1000))) hs) = 0%nat).
  { induction hs as [|h hs IHh]; [reflexivity|]. exact IHh. }
  rewrite H. reflexivity.
Qed.

Lemma count_board_penalize (s : session) (eventId : string) (delta : Q)
      (perEvent : @omap string input_rec) (ps : @omap string participant) :
  count_board (snd (penalize_missing s eventId delta perEvent ps)) = 0%nat.
Proof.
  induction ps as [|[pid p] rest IH]; [reflexivity|]. simpl.
  destruct (penalize_missing s eventId delta perEvent rest) as [rest' eff]. simpl in IH.
  destruct (map_has String.eqb perEvent pid); [exact IH|]. simpl.
  rewrite count_board_app, IH, count_board_personal; [reflexivity|discriminate].
Qed.

(** Flags of an event list. *)

Lemma flag_at_map (f : event -> bool) (g : event -> event) (i : nat) (l : list event) :
  flag_at f i (List.map g l) = match nth_error l i with Some e => f (g e) | None => false end.
Proof. unfold flag_at. rewrite List.nth_error_map. now destruct (nth_error l i). Qed.

Lemma flag_opened_open_step (tSec : Q) (i : nat) (l : list event) :
  flag_at ev_opened i l = true -> flag_at ev_opened i (List.map (open_step tSec) l) = true.
Proof.
  rewrite flag_at_map. unfold flag_at. destruct (nth_error l i) as [e|]; [|discriminate].
  intro H. unfold open_step. rewrite H. simpl. exact H.
Qed.

Lemma flag_closed_open_step (tSec : Q) (i : nat) (l : list event) :
  flag_at ev_closed i (List.map (open_step tSec) l) = flag_at ev_closed i l.
Proof.
  rewrite flag_at_map. unfold flag_at. destruct (nth_error l i) as [e|]; [|reflexivity].
  unfold open_step. destruct (ev_opened e || qltb tSec (ev_t e)); reflexivity.
Qed.

Lemma flag_open_step_rise (tSec : Q) (i : nat) (l : list event) :
  flag_at ev_opened i l = false -> flag_at ev_opened i (List.map (open_step tSec) l) = true ->
  exists e', nth_error (List.map (open_step tSec) l) i = Some e' /\ ev_t e' <= tSec.
Proof.
  unfold flag_at. rewrite List.nth_error_map.
  destruct (nth_error l i) as [e|]; simpl; [|discriminate].
  intros H0 H1. exists (open_step tSec e). split; [reflexivity|].
  unfold open_step in *. rewrite H0 in *. simpl in *.
  destruct (qltb tSec (ev_t e)) eqn:E; [congruence|]. now apply qltb_false_le.
Qed.

Lemma flag_close_first (f : event -> bool) (eventId : string) (i : nat) (l : list event) :
  (forall e, f e = true -> f (set_closed e) = true) ->
  flag_at f i l = true -> flag_at f i (close_first eventId l) = true.
Proof.
  intro Hf. revert i. unfold flag_at.
  induction l as [|e l IH]; intros i H; [destruct i; discriminate|].
  simpl. destruct (String.eqb (ev_id e) eventId); destruct i; simpl in *; auto.
Qed.

Lemma flag_opened_close_first (eventId : string) (i : nat) (l : list event) :
  flag_at ev_opened i (close_first eventId l) = flag_at ev_opened i l.
Proof.
  revert i. unfold flag_at.
  induction l as [|e l IH]; intro i; [reflexivity|].
  simpl. destruct (String.eqb (ev_id e) eventId); destruct i; simpl; auto.
Qed.

Lemma flag_app (f : event -> bool) (i : nat) (l m : list event) :
  flag_at f i l = true -> flag_at f i (l ++ m) = true.
Proof.
  unfold flag_at. destruct (nth_error l i) eqn:E; [|discriminate].
  intro H. rewrite List.nth_error_app1; [now rewrite E|].
  apply List.nth_error_Some. congruence.
Qed.

Lemma flag_app_new (f : event -> bool) (i : nat) (l : list event) (x : event) :
  flag_at f i l = false -> f x = false -> flag_at f i (l ++ [x]) = false.
Proof.
  unfold flag_at. intros H Hx.
  destruct (Nat.lt_ge_cases i (List.length l)) as [Hi|Hi].
  - now rewrite List.nth_error_app1.
  - rewrite List.nth_error_app2 by exact Hi.
    destruct (i - List.length l)%nat as [|j]; [exact Hx|]. destruct j; reflexivity.
Qed.

Lemma flag_clear (f : event -> bool) (i : nat) (l : list event) :
  (forall e, f (clear_flags e) = false) -> flag_at f i (List.map clear_flags l) = false.
Proof.
  intro Hf. rewrite flag_at_map. destruct (nth_error l i); [apply Hf|reflexivity].
Qed.

Lemma flag_unflagged (f : event -> bool) (i : nat) (l : list event) :
  (forall e, In e l -> f e = false) -> flag_at f i l = false.
Proof.
  intro H. unfold flag_at. destruct (nth_error l i) eqn:E; [|reflexivity].
  apply H. eapply List.nth_error_In. exact E.
Qed.

Lemma closeEvent_facts (s : session) (eventId : string) :
  s_startedAt (fst (closeEvent s eventId)) = s_startedAt s /\
  s_intervalOn (fst (closeEvent s eventId)) = s_intervalOn s /\
  s_finalized (fst (closeEvent s eventId)) = s_finalized s /\
  (s_events (fst (closeEvent s eventId)) = s_events s \/
   s_events (fst (closeEvent s eventId)) = close_first eventId (s_events s)) /\
  count_board (snd (closeEvent s eventId)) = 0%nat /\
  (s_timers (fst (closeEvent s eventId)) = s_timers s \/
   (forallb ev_closed (s_events (fst (closeEvent s eventId))) = true /\
    s_timers (fst (closeEvent s eventId))
      = s_timers s ++ [TFinalize (with_default 8 (s_endBufferSec s) * 1000)])).
Proof.
  unfold closeEvent. destruct (find_event _ _) as [ev|].
  2: { cbn [fst snd]. repeat split; auto. }
  destruct (ev_closed ev). { cbn [fst snd]. repeat split; auto. }
  cbn zeta.
  pose proof (count_board_penalize s eventId (with_default (-50) (pen_noResponse (ev_penalties ev)))
                (match map_get String.eqb (s_inputs s) eventId with Some m => m | None => [] end)
                (s_participants s)) as Hc.
  destruct (penalize_missing _ _ _ _ _) as [ps fb]. cbn [snd] in Hc.
  assert (He : count_board
                 ([ToOps (MLog "EVENT CLOSE")] ++ fb ++
                  [ToOps (MEventClose eventId); ToControl (MEventClose eventId)] ++
                  (if ev_dashboardClose ev then [ToOps MDashboardPatch] else [])) = 0%nat).
  { rewrite !count_board_app, Hc. destruct (ev_dashboardClose ev); reflexivity. }
  destruct (forallb ev_closed (close_first eventId (s_events s))) eqn:Hall;
    cbn [fst snd]; repeat split; auto.
Qed.

Lemma finalizeSession_facts (s : session) :
  s_startedAt (fst (finalizeSession s)) = s_startedAt s /\
  s_events (fst (finalizeSession s)) = s_events s /\
  s_timers (fst (finalizeSession s)) = s_timers s /\
  ((s_finalized s = true /\ finalizeSession s = (s, [])) \/
   (s_finalized s = false /\ s_finalized (fst (finalizeSession s)) = true /\
    s_intervalOn (fst (finalizeSession s)) = false /\
    count_board (snd (finalizeSession s)) = 1%nat)).
Proof.
  unfold finalizeSession. destruct (s_finalized s) eqn:F.
  - cbn [fst]. repeat split; auto.
  - cbn [fst snd]. repeat split; auto. right. repeat split; auto.
    rewrite count_board_app.
    assert (H : forall (l : @omap string string) (f : string * string -> effect),
               (forall x, is_final_board (f x) = false) -> count_board (List.map f l) = 0%nat).
    { intros l f Hf. induction l as [|x l IH]; [reflexivity|].
      unfold count_board in *. cbn [List.map List.filter]. rewrite Hf. exact IH. }
    rewrite H; [reflexivity|intro x; reflexivity].
Qed.

Lemma postInput_frame (s : session) (now : Z) (rq : input_req) :
  s_startedAt (post_state s now rq) = s_startedAt s /\
  s_intervalOn (post_state s now rq) = s_intervalOn s /\
  s_finalized (post_state s now rq) = s_finalized s /\
  s_events (post_state s now rq) = s_events s /\
  s_timers (post_state s now rq) = s_timers s /\
  count_board (snd (fst (postInput s now rq))) = 0%nat.
Proof.
  unfold post_state, postInput. cbn zeta.
  destruct (find_event _ _) as [ev|]; [|repeat split].
  destruct (qltb _ _); [repeat split|].
  destruct (qltb _ _).
  - cbn [fst snd]. repeat split. rewrite count_board_app, count_board_personal; [reflexivity|discriminate].
  - destruct (map_has _ _ _); cbn [fst snd]; repeat split.
    rewrite count_board_app, count_board_personal; [reflexivity|discriminate].
Qed.

Lemma devOpen_eq (s : session) (now : Z) (w : Q) (ca loc nid : string) (st : Z) :
  s_startedAt s = Some st ->
  devOpen s now w ca loc nid =
  (fst (openEventsIfNeeded (set_events s (s_events s ++ [dev_event s now w ca loc nid]))
                           (getSessionT s now)),
   snd (openEventsIfNeeded (set_events s (s_events s ++ [dev_event s now w ca loc nid]))
                           (getSessionT s now)) ++ [ToOps (MLog "DEV")]).
Proof.
  intro H. unfold devOpen. rewrite H. cbn zeta. unfold dev_event.
  destruct (openEventsIfNeeded _ _). reflexivity.
Qed.

Lemma step_startedAt (s : session) (o : op) :
  s_startedAt (fst (step s o)) =
  match o with
  | OStart now => match s_startedAt s with None => Some now | Some x => Some x end
  | _ => s_startedAt s
  end.
Proof.
  destruct o as [now|now|k now|now rq|now w ca loc nid|hnow ws pid cn|ws]; unfold step.
  - unfold startSession. destruct (s_startedAt s) eqn:E; cbn [fst]; [exact E|reflexivity].
  - unfold tick. destruct (s_intervalOn s); [|reflexivity].
    rewrite openEventsIfNeeded_eq. reflexivity.
  - unfold fireTimer. destruct (nth_error (s_timers s) k) as [tm|]; [|reflexivity].
    destruct tm as [id we txt d|id d|d].
    + cbn zeta. destruct (Qle_bool _ _); reflexivity.
    + rewrite (proj1 (closeEvent_facts _ id)). reflexivity.
    + rewrite (proj1 (finalizeSession_facts _)). reflexivity.
  - pose proof (postInput_frame s now rq) as (F & _). unfold post_state in F.
    destruct (postInput s now rq) as [[s' eff] r]. exact F.
  - destruct (s_startedAt s) as [st|] eqn:E.
    + rewrite (devOpen_eq s now w ca loc nid st E), openEventsIfNeeded_eq. exact E.
    + unfold devOpen. rewrite E. exact E.
  - reflexivity.
  - unfold step, leaveControl in *; destruct (map_has String.eqb (s_control s) ws); (reflexivity).
Qed.

Lemma step_unstarted (s : session) (o : op) :
  s_startedAt s = None -> s_timers s = [] -> s_intervalOn s = false ->
  (forall now, o <> OStart now) ->
  s_events (fst (step s o)) = s_events s /\ s_timers (fst (step s o)) = [] /\
  s_intervalOn (fst (step s o)) = false /\ s_finalized (fst (step s o)) = s_finalized s.
Proof.
  intros Hs Ht Hi Ho.
  destruct o as [now|now|k now|now rq|now w ca loc nid|hnow ws pid cn|ws]; unfold step.
  - exfalso. exact (Ho now eq_refl).
  - unfold tick. rewrite Hi. auto.
  - unfold fireTimer. rewrite Ht. destruct k; auto.
  - pose proof (postInput_frame s now rq) as (_ & F2 & F3 & F4 & F5 & _).
    unfold post_state in *. destruct (postInput s now rq) as [[s' eff] r].
    cbn [fst] in *. rewrite F2, F3, F4, F5. auto.
  - unfold devOpen. rewrite Hs. auto.
  - cbn. auto.
  - unfold step, leaveControl in *; destruct (map_has String.eqb (s_control s) ws); (cbn; auto).
Qed.

Lemma step_interval (s : session) (o : op) :
  (forall now, o <> OStart now) ->
  s_intervalOn (fst (step s o)) = s_intervalOn s \/ s_intervalOn (fst (step s o)) = false.
Proof.
  intro Ho. destruct o as [now|now|k now|now rq|now w ca loc nid|hnow ws pid cn|ws]; unfold step.
  - exfalso. exact (Ho now eq_refl).
  - unfold tick. destruct (s_intervalOn s) eqn:E; [|auto].
    rewrite openEventsIfNeeded_eq. left. exact E.
  - unfold fireTimer. destruct (nth_error (s_timers s) k) as [tm|]; [|auto].
    destruct tm as [id we txt d|id d|d].
    + cbn zeta. destruct (Qle_bool _ _); auto.
    + left. apply (closeEvent_facts (set_timers s (remove_nth k (s_timers s))) id).
    + destruct (finalizeSession_facts (set_timers s (remove_nth k (s_timers s))))
        as (_ & _ & _ & [[_ E]|(_ & _ & E & _)]).
      * rewrite E. auto.
      * auto.
  - pose proof (postInput_frame s now rq) as (_ & F2 & _). unfold post_state in F2.
    destruct (postInput s now rq) as [[s' eff] r]. auto.
  - destruct (s_startedAt s) as [st|] eqn:E.
    + rewrite (devOpen_eq s now w ca loc nid st E), openEventsIfNeeded_eq. auto.
    + unfold devOpen. rewrite E. auto.
  - auto.
  - unfold step, leaveControl in *; destruct (map_has String.eqb (s_control s) ws); (auto).
Qed.

Lemma step_final (s : session) (o : op) :
  (s_finalized (fst (step s o)) = s_finalized s /\ count_board (snd (step s o)) = 0%nat) \/
  (s_finalized s = false /\ s_finalized (fst (step s o)) = true /\
   s_intervalOn (fst (step s o)) = false /\ count_board (snd (step s o)) = 1%nat).
Proof.
  destruct o as [now|now|k now|now rq|now w ca loc nid|hnow ws pid cn|ws]; unfold step.
  - unfold startSession. destruct (s_startedAt s); auto.
  - unfold tick. destruct (s_intervalOn s); [|auto].
    rewrite openEventsIfNeeded_eq. cbn [fst snd]. left. split; [reflexivity|].
    rewrite count_board_app, count_board_open. reflexivity.
  - unfold fireTimer. destruct (nth_error (s_timers s) k) as [tm|]; [|auto].
    destruct tm as [id we txt d|id d|d].
    + cbn zeta. destruct (Qle_bool _ _); auto.
    + left. pose proof (closeEvent_facts (set_timers s (remove_nth k (s_timers s))) id)
        as (_ & _ & F & _ & C & _). auto.
    + destruct (finalizeSession_facts (set_timers s (remove_nth k (s_timers s))))
        as (_ & _ & _ & [[_ E]|(F0 & F1 & F2 & F3)]).
      * rewrite E. auto.
      * right. auto.
  - pose proof (postInput_frame s now rq) as (_ & _ & F3 & _ & _ & C). unfold post_state in F3.
    destruct (postInput s now rq) as [[s' eff] r]. auto.
  - destruct (s_startedAt s) as [st|] eqn:E.
    + rewrite (devOpen_eq s now w ca loc nid st E), openEventsIfNeeded_eq. cbn [fst snd].
      left. split; [reflexivity|]. rewrite count_board_app, count_board_open. reflexivity.
    + unfold devOpen. rewrite E. auto.
  - left. split; [reflexivity|]. unfold helloControl. cbn [snd].
    rewrite count_board_app, count_board_map0; [reflexivity|intro; reflexivity].
  - unfold step, leaveControl in *; destruct (map_has String.eqb (s_control s) ws); (auto).
Qed.

Lemma step_startedAt_other (s : session) (o : op) :
  (forall now, o <> OStart now) -> s_startedAt (fst (step s o)) = s_startedAt s.
Proof.
  intro Ho. rewrite step_startedAt.
  destruct o as [now|now|k now|now rq|now w ca loc nid|hnow ws pid cn|ws]; try reflexivity.
  exfalso. exact (Ho now eq_refl).
Qed.

Lemma start_or_other (o : op) : {now | o = OStart now} + {forall now, o <> OStart now}.
Proof. destruct o; [left; eexists; reflexivity|right; intros ? ?; discriminate ..]. Qed.

Lemma session_okb_spec (s : session) :
  session_okb s = true <->
  ((s_startedAt s = None ->
    s_timers s = [] /\ s_intervalOn s = false /\ s_finalized s = false /\
    (forall e, In e (s_events s) -> ev_opened e = false /\ ev_closed e = false)) /\
   (s_finalized s = true -> s_intervalOn s = false)).
Proof.
  unfold session_okb. split.
  - intro H. apply andb_true_iff in H as [H1 H2]. split.
    + intro Hn. rewrite Hn in H1.
      apply andb_true_iff in H1 as [H1 H4]. apply andb_true_iff in H1 as [H1 H3].
      apply andb_true_iff in H1 as [H1 H0].
      destruct (s_timers s); [|discriminate].
      split; [reflexivity|]. split; [now apply negb_true_iff|].
      split; [now apply negb_true_iff|].
      intros e He. rewrite forallb_forall in H4. specialize (H4 e He).
      apply andb_true_iff in H4 as [A B]. split; now apply negb_true_iff.
    + intro Hf. rewrite Hf in H2. simpl in H2. now apply negb_true_iff.
  - intros [H1 H2]. apply andb_true_iff. split.
    + destruct (s_startedAt s) eqn:E; [reflexivity|].
      destruct (H1 eq_refl) as (A & B & C & D). rewrite A, B, C. simpl.
      apply forallb_forall. intros e He. destruct (D e He) as [D1 D2]. now rewrite D1, D2.
    + destruct (s_finalized s) eqn:E; [|reflexivity]. now rewrite (H2 eq_refl).
Qed.

Lemma step_ok (s : session) (o : op) :
  session_okb s = true -> session_okb (fst (step s o)) = true.
Proof.
  intro H. apply session_okb_spec in H as [U F]. apply session_okb_spec.
  destruct (start_or_other o) as [[now ->]|Ho].
  - unfold step, startSession. destruct (s_startedAt s) eqn:E.
    + cbn [fst]. split; [intro; congruence|exact F].
    + destruct (U eq_refl) as (_ & _ & Hf & _). cbn. split; [discriminate|]. congruence.
  - split.
    + intro Hn. rewrite (step_startedAt_other s o Ho) in Hn.
      destruct (U Hn) as (Ht & Hi & Hf & Hev).
      destruct (step_unstarted s o Hn Ht Hi Ho) as (Ee & Et & Ei & Ef).
      rewrite Ee, Et, Ei, Ef. auto.
    + intro Hf'. destruct (step_final s o) as [[Ef _]|(_ & _ & Ei & _)].
      * rewrite Ef in Hf'. specialize (F Hf').
        destruct (step_interval s o Ho) as [Ei|Ei]; rewrite Ei; auto.
      * exact Ei.
Qed.

Lemma exec_ok (ops : list op) (s : session) :
  session_okb s = true -> session_okb (fst (exec s ops)) = true.
Proof.
  revert s. induction ops as [|o ops IH]; intros s H; [exact H|].
  simpl. pose proof (step_ok s o H) as H1.
  destruct (step s o) as [s1 e1]. specialize (IH s1 H1).
  destruct (exec s1 ops) as [s2 e2]. exact IH.
Qed.

Tactic Notation "evs_simpl" :=
  cbn [fst snd s_events set_timers set_events set_clock set_participants
       set_control set_scoreAgg set_inputs].
Tactic Notation "evs_simpl" "in" hyp(H) :=
  cbn [fst snd s_events set_timers set_events set_clock set_participants
       set_control set_scoreAgg set_inputs] in H.

Lemma step_flags (s : session) (o : op) (i : nat) :
  session_okb s = true ->
  (opened_at i s = true -> opened_at i (fst (step s o)) = true) /\
  (closed_at i s = true -> closed_at i (fst (step s o)) = true).
Proof.
  intro Hok. apply session_okb_spec in Hok as [U _]. unfold opened_at, closed_at.
  destruct o as [now|now|k now|now rq|now w ca loc nid|hnow ws pid cn|ws]; unfold step.
  - unfold startSession. destruct (s_startedAt s) eqn:E; [auto|].
    destruct (U eq_refl) as (_ & _ & _ & Hev).
    rewrite (flag_unflagged ev_opened i (s_events s)) by (intros e He; exact (proj1 (Hev e He))).
    rewrite (flag_unflagged ev_closed i (s_events s)) by (intros e He; exact (proj2 (Hev e He))).
    split; discriminate.
  - unfold tick. destruct (s_intervalOn s); [|auto].
    rewrite openEventsIfNeeded_eq. evs_simpl. split.
    + apply flag_opened_open_step.
    + now rewrite flag_closed_open_step.
  - unfold fireTimer. destruct (nth_error (s_timers s) k) as [tm|]; [|auto].
    destruct tm as [id we txt d|id d|d].
    + cbn zeta. destruct (Qle_bool _ _); auto.
    + destruct (closeEvent_facts (set_timers s (remove_nth k (s_timers s))) id)
        as (_ & _ & _ & [Ee|Ee] & _); rewrite Ee; evs_simpl; [auto|]. split.
      * now rewrite flag_opened_close_first.
      * apply flag_close_first. reflexivity.
    + rewrite (proj1 (proj2 (finalizeSession_facts _))). auto.
  - pose proof (postInput_frame s now rq) as (_ & _ & _ & F4 & _). unfold post_state in F4.
    destruct (postInput s now rq) as [[s' eff] r]. cbn [fst] in *. rewrite F4. auto.
  - destruct (s_startedAt s) as [st|] eqn:E.
    + rewrite (devOpen_eq s now w ca loc nid st E), openEventsIfNeeded_eq. evs_simpl. split.
      * intro H. apply flag_opened_open_step. now apply flag_app.
      * intro H. rewrite flag_closed_open_step. now apply flag_app.
    + unfold devOpen. rewrite E. auto.
  - auto.
  - unfold step, leaveControl in *; destruct (map_has String.eqb (s_control s) ws); (auto).
Qed.

Lemma step_rise (s : session) (o : op) (i : nat) :
  opened_at i s = false -> opened_at i (fst (step s o)) = true ->
  exists now e', open_pass_time o = Some now /\
                 nth_error (s_events (fst (step s o))) i = Some e' /\
                 ev_t e' <= inject_Z (getSessionT s now).
Proof.
  unfold opened_at.
  destruct o as [now|now|k now|now rq|now w ca loc nid|hnow ws pid cn|ws]; unfold step; intros H0 H1.
  - unfold startSession in *. destruct (s_startedAt s); cbn [fst] in H1; [congruence|].
    evs_simpl in H1. exfalso. rewrite flag_clear in H1 by reflexivity. discriminate.
  - unfold tick in *. destruct (s_intervalOn s); [|cbn [fst] in H1; congruence].
    rewrite openEventsIfNeeded_eq in *. evs_simpl. evs_simpl in H1.
    destruct (flag_open_step_rise _ i _ H0 H1) as (e' & A & B).
    exists now, e'. auto.
  - exfalso. unfold fireTimer in H1. destruct (nth_error (s_timers s) k) as [tm|];
      [|cbn [fst] in H1; congruence].
    destruct tm as [id we txt d|id d|d].
    + cbn zeta in H1. destruct (Qle_bool _ _); cbn [fst] in H1; evs_simpl in H1; congruence.
    + destruct (closeEvent_facts (set_timers s (remove_nth k (s_timers s))) id)
        as (_ & _ & _ & [Ee|Ee] & _); rewrite Ee in H1; evs_simpl in H1; [congruence|].
      rewrite flag_opened_close_first in H1. congruence.
    + rewrite (proj1 (proj2 (finalizeSession_facts _))) in H1. evs_simpl in H1. congruence.
  - exfalso. pose proof (postInput_frame s now rq) as (_ & _ & _ & F4 & _).
    unfold post_state in F4. destruct (postInput s now rq) as [[s' eff] r].
    cbn [fst] in *. rewrite F4 in H1. congruence.
  - destruct (s_startedAt s) as [st|] eqn:E.
    + rewrite (devOpen_eq s now w ca loc nid st E), openEventsIfNeeded_eq in *.
      evs_simpl. evs_simpl in H1.
      assert (H2 : flag_at ev_opened i (s_events s ++ [dev_event s now w ca loc nid]) = false)
        by (apply flag_app_new; [exact H0|reflexivity]).
      destruct (flag_open_step_rise _ i _ H2 H1) as (e' & A & B).
      exists now, e'. auto.
    + exfalso. unfold devOpen in H1. rewrite E in H1. cbn [fst] in H1. congruence.
  - exfalso. cbn in H1. congruence.
  - unfold step, leaveControl in *; destruct (map_has String.eqb (s_control s) ws); (exfalso; cbn in H1; congruence).
Qed.

Lemma step_fin_timer (s : session) (o : op) :
  (count_fin (s_timers (fst (step s o))) > count_fin (s_timers s))%nat ->
  exists k now id d,
    o = OFire k now /\ nth_error (s_timers s) k = Some (TClose id d) /\
    forallb ev_closed (s_events (fst (step s o))) = true /\
    s_timers (fst (step s o))
      = remove_nth k (s_timers s) ++ [TFinalize (with_default 8 (s_endBufferSec s) * 1000)].
Proof.
  destruct o as [now|now|k now|now rq|now w ca loc nid|hnow ws pid cn|ws]; unfold step; intro H.
  - exfalso. unfold startSession in H. destruct (s_startedAt s); unfold count_fin in H; cbn in H; lia.
  - exfalso. unfold tick in H. destruct (s_intervalOn s); [|cbn [fst] in H; lia].
    rewrite openEventsIfNeeded_eq in H. cbn [fst s_timers set_timers] in H.
    rewrite count_fin_app, count_fin_open in H. lia.
  - unfold fireTimer in *. destruct (nth_error (s_timers s) k) as [tm|] eqn:Hk;
      [|cbn [fst] in H; lia].
    pose proof (count_fin_remove_nth k (s_timers s)) as Hr.
    destruct tm as [id we txt d|id d|d].
    + exfalso. cbn zeta in H. destruct (Qle_bool _ _); cbn [fst s_timers set_timers] in H; lia.
    + destruct (closeEvent_facts (set_timers s (remove_nth k (s_timers s))) id)
        as (_ & _ & _ & _ & _ & [Et|[Ea Et]]).
      * exfalso. rewrite Et in H. cbn [s_timers set_timers] in H. lia.
      * exists k, now, id, d. split; [reflexivity|]. split; [exact Hk|]. split; [exact Ea|exact Et].
    + exfalso. rewrite (proj1 (proj2 (proj2 (finalizeSession_facts _)))) in H.
      cbn [s_timers set_timers] in H. lia.
  - exfalso. pose proof (postInput_frame s now rq) as (_ & _ & _ & _ & F5 & _).
    unfold post_state in F5. destruct (postInput s now rq) as [[s' eff] r].
    cbn [fst] in *. rewrite F5 in H. lia.
  - exfalso. destruct (s_startedAt s) as [st|] eqn:E.
    + rewrite (devOpen_eq s now w ca loc nid st E), openEventsIfNeeded_eq in H.
      cbn [fst s_timers set_timers set_events] in H.
      rewrite count_fin_app, count_fin_open in H. lia.
    + unfold devOpen in H. rewrite E in H. cbn [fst] in H. lia.
  - exfalso. unfold count_fin in H. cbn in H. lia.
  - unfold step, leaveControl in *; destruct (map_has String.eqb (s_control s) ws); (exfalso; unfold count_fin in H; cbn in H; lia).
Qed.

Lemma step_finalized_by_timer (s : session) (o : op) :
  s_finalized s = false -> s_finalized (fst (step s o)) = true ->
  exists k now d, o = OFire k now /\ nth_error (s_timers s) k = Some (TFinalize d).
Proof.
  intros F0 F1. destruct o as [now|now|k now|now rq|now w ca loc nid|hnow ws pid cn|ws];
    unfold step in F1.
  - exfalso. unfold startSession in F1. destruct (s_startedAt s); cbn in F1; congruence.
  - exfalso. unfold tick in F1. destruct (s_intervalOn s); [|cbn in F1; congruence].
    rewrite openEventsIfNeeded_eq in F1. cbn in F1. congruence.
  - unfold fireTimer in F1. destruct (nth_error (s_timers s) k) as [tm|] eqn:Hk;
      [|cbn in F1; congruence].
    destruct tm as [id we txt d|id d|d].
    + exfalso. cbn zeta in F1. destruct (Qle_bool _ _); cbn in F1; congruence.
    + exfalso. rewrite (proj1 (proj2 (proj2 (closeEvent_facts _ id)))) in F1.
      cbn in F1. congruence.
    + exists k, now, d. auto.
  - exfalso. pose proof (postInput_frame s now rq) as (_ & _ & F3 & _).
    unfold post_state in F3. destruct (postInput s now rq) as [[s' eff] r].
    cbn [fst] in *. congruence.
  - exfalso. destruct (s_startedAt s) as [st|] eqn:E.
    + rewrite (devOpen_eq s now w ca loc nid st E), openEventsIfNeeded_eq in F1.
      cbn in F1. congruence.
    + unfold devOpen in F1. rewrite E in F1. cbn in F1. congruence.
  - exfalso. cbn in F1. congruence.
  - unfold step, leaveControl in *; destruct (map_has String.eqb (s_control s) ws); (exfalso; cbn in F1; congruence).
Qed.

Lemma rises_all_true (l : list bool) : monotone (true :: l) -> rises (true :: l) = 0%nat.
Proof.
  induction l as [|b l IH]; [reflexivity|].
  intros [Hb Hm]. rewrite (Hb eq_refl) in *. simpl. exact (IH Hm).
Qed.

Lemma rises_le (l : list bool) : monotone l -> (rises l <= 1)%nat.
Proof.
  induction l as [|a l IH]; [simpl; lia|].
  destruct l as [|b l]; [simpl; lia|].
  intros [Hab Hm]. destruct a.
  - rewrite rises_all_true; [lia|]. split; assumption.
  - destruct b.
    + change (rises (false :: true :: l)) with (1 + rises (true :: l))%nat.
      rewrite rises_all_true by exact Hm. lia.
    + change (rises (false :: false :: l)) with (0 + rises (false :: l))%nat.
      specialize (IH Hm). lia.
Qed.

Lemma trace_monotone (f : session -> bool) (ops : list op) (s : session) :
  (forall st o, session_okb st = true -> f st = true -> f (fst (step st o)) = true) ->
  session_okb s = true -> monotone (List.map f (s :: trace s ops)).
Proof.
  intro Hf. revert s. induction ops as [|o ops IH]; intros s Hs; [exact I|].
  specialize (IH (fst (step s o)) (step_ok s o Hs)). simpl in IH |- *.
  split; [apply Hf; exact Hs|exact IH].
Qed.

Lemma exec_board (ops : list op) (s : session) :
  count_board (snd (exec s ops)) =
    (if s_finalized s then 0 else if s_finalized (fst (exec s ops)) then 1 else 0)%nat /\
  (s_finalized s = true -> s_finalized (fst (exec s ops)) = true).
Proof.
  revert s. induction ops as [|o ops IH]; intro s.
  - simpl. destruct (s_finalized s); auto.
  - simpl. pose proof (step_final s o) as SF.
    destruct (step s o) as [s1 e1]. cbn [fst snd] in SF.
    specialize (IH s1). destruct (exec s1 ops) as [s2 e2]. cbn [fst snd] in *.
    rewrite count_board_app. destruct IH as [IH1 IH2].
    destruct SF as [[F C]|(F0 & F1 & _ & C)].
    + rewrite C, IH1, F. split; [reflexivity|]. intro H. apply IH2. congruence.
    + rewrite C, IH1, F0, F1, (IH2 F1). split; [reflexivity|discriminate].
Qed.

Lemma exec_app_state (ops1 ops2 : list op) (s : session) :
  fst (exec s (ops1 ++ ops2)) = fst (exec (fst (exec s ops1)) ops2).
Proof.
  revert s. induction ops1 as [|o ops1 IH]; intro s; [reflexivity|].
  simpl. destruct (step s o) as [s1 e1]. specialize (IH s1). revert IH.
  destruct (exec s1 (ops1 ++ ops2)) as [s2 e2].
  destruct (exec s1 ops1) as [s3 e3]. cbn [fst]. auto.
Qed.

(** C5.  From any well-formed session (before the start nothing is pending
    and no event is flagged), along every sequence of operations the opened
    flag and the closed flag of every event go from false to true at most
    once and never back; the opened flag is only raised by an open pass
    (tick or dev/open) whose elapsed time is at least the event's offset;
    a close of an already closed event changes nothing and sends nothing;
    and the open pass leaves an already opened event as it is, with no
    message and no timer for it. *)
Theorem event_flags_once (s : session) (ops : list op) (i : nat) :
  session_okb s = true ->
  (rises (List.map (opened_at i) (s :: trace s ops)) <= 1)%nat /\
  (rises (List.map (closed_at i) (s :: trace s ops)) <= 1)%nat /\
  monotone (List.map (opened_at i) (s :: trace s ops)) /\
  monotone (List.map (closed_at i) (s :: trace s ops)) /\
  (forall st o, opened_at i st = false -> opened_at i (fst (step st o)) = true ->
     exists now e', open_pass_time o = Some now /\
                    nth_error (s_events (fst (step st o))) i = Some e' /\
                    ev_t e' <= inject_Z (getSessionT st now)) /\
  (forall st eventId ev, find_event (s_events st) eventId = Some ev -> ev_closed ev = true ->
     closeEvent st eventId = (st, [])) /\
  (forall evs tSec, open_pass evs tSec =
     (List.map (open_step tSec) evs, flat_map (open_step_effects tSec) evs,
      flat_map (open_step_timers tSec) evs)) /\
  (forall tSec ev, ev_opened ev = true ->
     open_step tSec ev = ev /\ open_step_effects tSec ev = [] /\ open_step_timers tSec ev = []).
Proof.
  intro Hs.
  assert (Mo : monotone (List.map (opened_at i) (s :: trace s ops))).
  { apply trace_monotone; [|exact Hs]. intros st o Hst. apply (step_flags st o i Hst). }
  assert (Mc : monotone (List.map (closed_at i) (s :: trace s ops))).
  { apply trace_monotone; [|exact Hs]. intros st o Hst. apply (step_flags st o i Hst). }
  split; [apply rises_le, Mo|]. split; [apply rises_le, Mc|].
  split; [exact Mo|]. split; [exact Mc|]. split; [intros st o; apply (step_rise st o i)|]. split.
  { intros st eventId ev Hf Hc. unfold closeEvent. now rewrite Hf, Hc. }
  split; [apply open_pass_spec|].
  intros tSec ev Ho. unfold open_step, open_step_effects, open_step_timers.
  rewrite Ho. auto.
Qed.

Lemma event_flags_once_witness :
  session_okb (new_session [ev_dispatch] None) = true /\
  (rises (List.map (opened_at 0) (new_session [ev_dispatch] None
                                   :: trace (new_session [ev_dispatch] None) full_run)) <= 1)%nat.
Proof.
  assert (H : session_okb (new_session [ev_dispatch] None) = true) by reflexivity.
  split; [exact H|]. exact (proj1 (event_flags_once _ full_run 0 H)).
Defined.

(** C6.  Finalizing an already finalized session does nothing; the first
    finalization emits the leaderboard broadcast and a final total to
    every connected participant socket, sets the finalized flag and stops the
    interval.  Along any run the leaderboard is broadcast exactly once if
    the session ends finalized and never otherwise; a session only becomes
    finalized by firing a pending finalize timer; such a timer is only
    added by the close timer of an event whose close leaves every event
    closed, with the end-buffer delay (default 8 s); and once finalized, a
    well-formed session keeps its interval stopped whatever comes next. *)
Theorem finalize_once (s : session) (ops ops' : list op) :
  session_okb s = true ->
  (forall st, s_finalized st = true -> finalizeSession st = (st, [])) /\
  (forall st, s_finalized st = false ->
     count_board (snd (finalizeSession st)) = 1%nat /\
     s_finalized (fst (finalizeSession st)) = true /\
     s_intervalOn (fst (finalizeSession st)) = false /\
     (forall ws pid, In (ws, pid) (s_control st) ->
        exists v, In (ToSocket ws (MFinalPersonal v)) (snd (finalizeSession st)))) /\
  count_board (snd (exec s ops)) =
    (if s_finalized s then 0 else if s_finalized (fst (exec s ops)) then 1 else 0)%nat /\
  (forall st o, s_finalized st = false -> s_finalized (fst (step st o)) = true ->
     exists k now d, o = OFire k now /\ nth_error (s_timers st) k = Some (TFinalize d)) /\
  (forall st o, (count_fin (s_timers (fst (step st o))) > count_fin (s_timers st))%nat ->
     exists k now id d,
       o = OFire k now /\ nth_error (s_timers st) k = Some (TClose id d) /\
       forallb ev_closed (s_events (fst (step st o))) = true /\
       s_timers (fst (step st o))
         = remove_nth k (s_timers st) ++ [TFinalize (with_default 8 (s_endBufferSec st) * 1000)]) /\
  (s_finalized (fst (exec s ops)) = true ->
     s_finalized (fst (exec s (ops ++ ops'))) = true /\
     s_intervalOn (fst (exec s (ops ++ ops'))) = false).
Proof.
  intro Hs. split.
  { intros st F. unfold finalizeSession. now rewrite F. }
  split.
  { intros st F.
    destruct (finalizeSession_facts st) as (_ & _ & _ & [[F' _]|(_ & F1 & I1 & C1)]);
      [congruence|].
    split; [exact C1|]. split; [exact F1|]. split; [exact I1|].
    intros ws pid Hin. unfold finalizeSession. rewrite F. cbn [snd].
    eexists. apply in_or_app. right. apply in_map_iff. exists (ws, pid).
    split; [reflexivity|exact Hin]. }
  split; [apply exec_board|].
  split; [apply step_finalized_by_timer|].
  split; [apply step_fin_timer|].
  intro Hf. rewrite exec_app_state.
  assert (F2 : s_finalized (fst (exec (fst (exec s ops)) ops')) = true)
    by (apply (proj2 (exec_board ops' (fst (exec s ops)))); exact Hf).
  split; [exact F2|].
  pose proof (exec_ok ops' (fst (exec s ops)) (exec_ok ops s Hs)) as Hok.
  apply session_okb_spec in Hok as [_ Hfin]. exact (Hfin F2).
Qed.

Lemma finalize_once_witness :
  session_okb (new_session [ev_dispatch] None) = true /\
  count_board (snd (exec (new_session [ev_dispatch] None) full_run)) = 1%nat.
Proof.
  assert (H : session_okb (new_session [ev_dispatch] None) = true) by reflexivity.
  split; [exact H|].
  rewrite (proj1 (proj2 (proj2 (finalize_once (new_session [ev_dispatch] None) full_run [] H)))).
  vm_compute. reflexivity.
Defined.

(** ** Session log *)

Lemma log_push_lastn {A} (l : list A) (e : A) :
  log_push l e = lastn MAX_SESSION_LOGS (l ++ [e]).
Proof.
  unfold log_push, lastn. destruct (Nat.ltb _ _) eqn:E; [reflexivity|].
  apply Nat.ltb_ge in E. replace (Nat.sub _ MAX_SESSION_LOGS) with 0%nat by lia.
  reflexivity.
Qed.

Lemma lastn_lastn_app {A} (n : nat) (l m : list A) :
  lastn n (lastn n l ++ m) = lastn n (l ++ m).
Proof.
  unfold lastn. rewrite List.length_app, length_skipn, List.length_app.
  set (k := Nat.sub (List.length l) n).
  assert (Hk : (k <= List.length l)%nat) by (unfold k; lia).
  assert (E : skipn k l ++ m = skipn k (l ++ m)).
  { rewrite skipn_app. replace (Nat.sub k (List.length l)) with 0%nat by lia. reflexivity. }
  rewrite E, skipn_skipn. f_equal. unfold k. lia.
Qed.

Lemma log_all_gen {A} (entries logs : list A) :
  fold_left log_push entries (lastn MAX_SESSION_LOGS logs)
  = lastn MAX_SESSION_LOGS (logs ++ entries).
Proof.
  revert logs. induction entries as [|e rest IH]; intro logs; simpl.
  - now rewrite app_nil_r.
  - rewrite log_push_lastn, lastn_lastn_app, IH. now rewrite <- app_assoc.
Qed.

Lemma length_lastn {A} (n : nat) (l : list A) : (List.length (lastn n l) <= n)%nat.
Proof. unfold lastn. rewrite length_skipn. lia. Qed.

(** X1.  [sessionLog] keeps a bounded log: from any log of at most 400
    entries (a session starts with none), pushing any sequence of entries
    leaves exactly the last [min(400, total)] entries of the whole history,
    oldest first, so the log never exceeds 400 entries and the oldest are
    the ones dropped. *)
Theorem sessionLog_keeps_last_400 {A} (logs entries : list A) :
  (List.length logs <= MAX_SESSION_LOGS)%nat ->
  log_all logs entries = lastn MAX_SESSION_LOGS (logs ++ entries) /\
  (List.length (log_all logs entries) <= MAX_SESSION_LOGS)%nat.
Proof.
  intro H. unfold log_all.
  assert (E : lastn MAX_SESSION_LOGS logs = logs).
  { unfold lastn. replace (Nat.sub _ _) with 0%nat by lia. reflexivity. }
  assert (R : fold_left log_push entries logs = lastn MAX_SESSION_LOGS (logs ++ entries)).
  { rewrite <- E at 1. apply log_all_gen. }
  rewrite R. split; [reflexivity|apply length_lastn].
Qed.

Lemma sessionLog_keeps_last_400_witness :
  (List.length (@nil nat) <= MAX_SESSION_LOGS)%nat /\
  log_all [] (seq 0 450) = seq 50 400.
Proof.
  split; [cbv; lia|].
  rewrite (proj1 (sessionLog_keeps_last_400 (@nil nat) (seq 0 450) ltac:(cbv; lia))).
  vm_compute. reflexivity.
Defined.

(** ** Trend series *)

Lemma Qfloor_unique (z : Z) (q : Q) :
  inject_Z z <= q -> q < inject_Z (z + 1) -> Qfloor q = z.
Proof.
  intros H1 H2.
  pose proof (Qfloor_le q) as F1. pose proof (Qlt_floor q) as F2.
  assert (A : (z < Qfloor q + 1)%Z) by (rewrite Zlt_Qlt; eapply Qle_lt_trans; eauto).
  assert (B : (Qfloor q < z + 1)%Z) by (rewrite Zlt_Qlt; eapply Qle_lt_trans; eauto).
  lia.
Qed.

Lemma Qfloor_Z_minus (z : Z) (q : Q) : Qfloor (inject_Z z - q) = (z - Qceiling q)%Z.
Proof.
  apply Qfloor_unique.
  - pose proof (Qle_ceiling q). unfold Z.sub. rewrite inject_Z_plus, inject_Z_opp. lra.
  - pose proof (Qceiling_lt q). unfold Z.sub in *.
    rewrite !inject_Z_plus, !inject_Z_opp in *.
    change (inject_Z 1) with 1 in *. change (inject_Z (-1)) with (-1) in *. lra.
Qed.

Lemma trend_cap_eq (limit : Q) (l : list trend_point) :
  trend_cap limit l = skipn (Nat.sub (List.length l) (Z.to_nat (Qceiling limit))) l.
Proof.
  unfold trend_cap, slice_from.
  set (n := List.length l).
  destruct (qltb limit (inject_Z (Z.of_nat n))) eqn:E.
  - apply qltb_iff in E.
    assert (Hc : (Qceiling limit <= Z.of_nat n)%Z).
    { rewrite <- (Qceiling_Z (Z.of_nat n)). apply Qceiling_resp_le. lra. }
    assert (Ht : q_trunc (inject_Z (Z.of_nat n) - limit) = (Z.of_nat n - Qceiling limit)%Z).
    { unfold q_trunc. replace (Qle_bool 0 _) with true.
      - apply Qfloor_Z_minus.
      - symmetry. apply Qle_bool_iff. lra. }
    rewrite Ht. f_equal. destruct (Z.ltb_spec (Z.of_nat n - Qceiling limit) 0); lia.
  - apply qltb_false_le in E.
    assert (Hc : (Z.of_nat n <= Qceiling limit)%Z).
    { rewrite <- (Qceiling_Z (Z.of_nat n)). apply Qceiling_resp_le. exact E. }
    replace (Nat.sub n (Z.to_nat (Qceiling limit))) with 0%nat by lia. reflexivity.
Qed.

(** X2.  The [limit] of a [trendSeries] patch keeps a suffix: whatever the
    mode, the series that results is the tail of the merged series made of
    its last [min(length, ceil(limit))] points, no point for a limit of 0
    or below, and a fractional limit keeps [ceil(limit)] points (slice
    truncates the start index); a missing or non-finite [Number(cfg.limit)]
    counts as 120. *)
Theorem trendSeries_limit_suffix (mode : string) (series normalized : list trend_point)
        (limitNum : num) :
  let merged := trend_merge mode series normalized in
  let r := trendSeries_patch mode series normalized limitNum in
  (exists k, r = skipn k merged) /\
  List.length r = Nat.min (List.length merged) (Z.to_nat (Qceiling (trend_limit_of limitNum))) /\
  trend_limit_of limitNum = match limitNum with Fin q => q | _ => 120 end.
Proof.
  cbv zeta. unfold trendSeries_patch. rewrite trend_cap_eq.
  split; [eexists; reflexivity|]. split; [|reflexivity].
  rewrite length_skipn. lia.
Qed.

Lemma trend_insert_perm (x : trend_point) (l : list trend_point) :
  Permutation (trend_insert x l) (x :: l).
Proof.
  induction l as [|y ys IH]; simpl; [reflexivity|].
  destruct (qltb _ _); [reflexivity|].
  rewrite IH. apply perm_swap.
Qed.

Lemma trend_insert_sorted (x : trend_point) (l : list trend_point) :
  StronglySorted t_lt l -> Forall (fun y => ~ tp_t x == tp_t y) l ->
  StronglySorted t_lt (trend_insert x l).
Proof.
  induction l as [|y ys IH]; intros Hs Hd; simpl.
  - repeat constructor.
  - inversion Hs as [|? ? Hs' Hy]; subst. inversion Hd as [|? ? Hxy Hd']; subst.
    destruct (qltb (tp_t x - tp_t y) 0) eqn:E.
    + apply qltb_iff in E.
      constructor; [exact Hs|]. constructor; [unfold t_lt; lra|].
      eapply Forall_impl; [|exact Hy]. unfold t_lt. intros a Ha. lra.
    + apply qltb_false_le in E.
      assert (Hyx : tp_t y < tp_t x).
      { destruct (Qlt_le_dec (tp_t y) (tp_t x)) as [h|h]; [exact h|].
        exfalso. apply Hxy. lra. }
      constructor; [now apply IH|].
      apply (Permutation_Forall (Permutation_sym (trend_insert_perm x ys))).
      constructor; [exact Hyx|exact Hy].
Qed.

Lemma trend_sort_sorted_gen (l acc : list trend_point) :
  StronglySorted t_lt acc ->
  (forall a b, In a acc -> In b l -> ~ tp_t a == tp_t b) ->
  ForallOrdPairs (fun a b => ~ tp_t a == tp_t b) l ->
  StronglySorted t_lt (fold_left (fun acc x => trend_insert x acc) l acc).
Proof.
  revert acc. induction l as [|x l IH]; intros acc Hs Hd Hp; simpl; [exact Hs|].
  inversion Hp as [|? ? Hx Hp']; subst.
  apply IH; [| |exact Hp'].
  - apply trend_insert_sorted; [exact Hs|].
    apply Forall_forall. intros y Hy Heq. apply (Hd y x Hy (or_introl eq_refl)).
    now symmetry.
  - intros a b Ha Hb.
    apply (Permutation_in _ (trend_insert_perm x acc)) in Ha.
    destruct Ha as [<- | Ha].
    + rewrite Forall_forall in Hx. now apply Hx.
    + apply Hd; [exact Ha|now right].
Qed.

Lemma FOP_snoc {A} (R : A -> A -> Prop) (l : list A) (x : A) :
  ForallOrdPairs R l -> Forall (fun a => R a x) l -> ForallOrdPairs R (l ++ [x]).
Proof.
  induction l as [|a l IH]; intros Hp Hf; simpl.
  - repeat constructor.
  - inversion Hp; subst. inversion Hf; subst. constructor.
    + apply Forall_app. split; [assumption|]. now repeat constructor.
    + now apply IH.
Qed.

Lemma map_get_Q_none (m : @omap Q trend_point) (k : Q) :
  map_get Qeq_bool m k = None -> Forall (fun kv => ~ fst kv == k) m.
Proof.
  induction m as [|[k' v] m IH]; intro H; simpl in *; [constructor|].
  destruct (Qeq_bool k' k) eqn:E; [discriminate|].
  constructor; [apply Qeq_bool_neq, E|now apply IH].
Qed.

Lemma trend_map_set_ok (m : @omap Q trend_point) (p : trend_point) :
  trend_map_ok m -> trend_map_ok (map_set Qeq_bool m (tp_t p) p).
Proof.
  intros [Hk Hd]. unfold map_set, map_has.
  destruct (map_get Qeq_bool m (tp_t p)) eqn:E.
  - split.
    + rewrite Forall_map. eapply Forall_impl; [|exact Hk].
      intros [k v] H. simpl in *. destruct (Qeq_bool k (tp_t p)) eqn:Ek; simpl; [|exact H].
      now apply Qeq_bool_iff.
    + clear E Hk. induction Hd as [|[k v] l Ha Hl IH]; simpl; constructor.
      * rewrite Forall_map. eapply Forall_impl; [|exact Ha].
        intros [k' v'] H. simpl in H |- *.
        destruct (Qeq_bool k (tp_t p)), (Qeq_bool k' (tp_t p)); exact H.
      * exact IH.
  - split.
    + apply Forall_app. split; [exact Hk|]. constructor; [simpl; reflexivity|constructor].
    + apply FOP_snoc; [exact Hd|]. apply map_get_Q_none in E.
      eapply Forall_impl; [|exact E]. intros a H. exact H.
Qed.

Lemma trend_set_all_ok (m : @omap Q trend_point) (l : list trend_point) :
  trend_map_ok m -> trend_map_ok (trend_set_all m l).
Proof.
  unfold trend_set_all. revert m. induction l as [|p l IH]; intros m H; simpl; [exact H|].
  apply IH, trend_map_set_ok, H.
Qed.

Lemma trend_values_distinct (m : @omap Q trend_point) :
  trend_map_ok m -> ForallOrdPairs (fun a b => ~ tp_t a == tp_t b) (map_values m).
Proof.
  intros [Hk Hd]. unfold map_values.
  induction Hd as [|[k v] l Ha Hl IH]; simpl; constructor.
  - inversion Hk as [|? ? Hkv Hk']; subst. simpl in Hkv.
    rewrite Forall_map. rewrite Forall_forall in Ha |- *. intros [k' v'] Hin Heq.
    pose proof (Ha _ Hin) as Hne. simpl in *.
    rewrite Forall_forall in Hk'. pose proof (Hk' _ Hin) as Hkv'. simpl in Hkv'.
    apply Hne. rewrite Hkv, Hkv'. exact Heq.
  - inversion Hk; subst. now apply IH.
Qed.

Lemma StronglySorted_skipn {A} (R : A -> A -> Prop) (k : nat) (l : list A) :
  StronglySorted R l -> StronglySorted R (skipn k l).
Proof.
  revert l. induction k as [|k IH]; intros l H; [exact H|].
  destruct l as [|x l]; [constructor|]. simpl. apply IH. now inversion H.
Qed.

Lemma trend_map_set_vals (m : @omap Q trend_point) (p v : trend_point) :
  trend_map_ok m -> In v (map_values (map_set Qeq_bool m (tp_t p) p)) ->
  v = p \/ (In v (map_values m) /\ ~ tp_t p == tp_t v).
Proof.
  intros [Hk _] Hin. unfold map_set, map_has in Hin.
  rewrite Forall_forall in Hk.
  destruct (map_get Qeq_bool m (tp_t p)) eqn:E.
  - unfold map_values in Hin. rewrite List.map_map in Hin.
    apply in_map_iff in Hin as [[k w] [Hw Hkw]]. cbn [fst snd] in Hw.
    destruct (Qeq_bool k (tp_t p)) eqn:Ek; cbn [snd] in Hw; [now left|].
    right. subst v. split.
    + unfold map_values. apply in_map_iff. exists (k, w). split; [reflexivity|exact Hkw].
    + pose proof (Hk _ Hkw) as H. cbn [fst snd] in H. apply Qeq_bool_neq in Ek.
      intro Heq. apply Ek. rewrite H. symmetry. exact Heq.
  - unfold map_values in Hin. rewrite List.map_app in Hin.
    apply in_app_or in Hin as [Hin|[<-|[]]]; [right|now left].
    apply in_map_iff in Hin as [[k w] [Hw Hkw]]. cbn [snd] in Hw. subst w.
    split; [unfold map_values; apply in_map_iff; exists (k, v); split; [reflexivity|exact Hkw]|].
    apply map_get_Q_none in E. rewrite Forall_forall in E.
    pose proof (E _ Hkw) as Hne. pose proof (Hk _ Hkw) as H. cbn [fst snd] in Hne, H.
    intro Heq. apply Hne. rewrite H. symmetry. exact Heq.
Qed.

Lemma trend_set_all_vals (m : @omap Q trend_point) (l : list trend_point) (v : trend_point) :
  trend_map_ok m -> In v (map_values (trend_set_all m l)) ->
  In v l \/ (In v (map_values m) /\ Forall (fun q => ~ tp_t q == tp_t v) l).
Proof.
  unfold trend_set_all. revert m. induction l as [|p l IH]; intros m Hm Hin; simpl in Hin.
  - right. split; [exact Hin|constructor].
  - destruct (IH _ (trend_map_set_ok m p Hm) Hin) as [H|[H1 H2]]; [left; now right|].
    destruct (trend_map_set_vals m p v Hm H1) as [->|[H3 H4]]; [left; now left|].
    right. split; [exact H3|constructor; assumption].
Qed.

Lemma trend_sort_in (l acc : list trend_point) (x : trend_point) :
  In x (fold_left (fun acc x => trend_insert x acc) l acc) -> In x l \/ In x acc.
Proof.
  revert acc. induction l as [|a l IH]; intros acc H; simpl in H; [now right|].
  destruct (IH _ H) as [H1|H1]; [left; now right|].
  apply (Permutation_in _ (trend_insert_perm a acc)) in H1.
  destruct H1 as [<-|H1]; [left; now left|now right].
Qed.

Lemma In_skipn {A} (k : nat) (l : list A) (x : A) : In x (skipn k l) -> In x l.
Proof. intro H. rewrite <- (firstn_skipn k l). apply in_or_app. now right. Qed.

(** X3.  In [upsert] mode the [trendSeries] patch yields a series sorted by
    strictly increasing [t]: points with the same [t] (SameValueZero) are
    collapsed into one, whatever duplicates the stored series or the patch
    held, and the [limit] cut keeps that order.  An incoming point replaces
    a stored one with the same [t]: every point of the result whose [t] is
    the [t] of an incoming point is itself one of the incoming points. *)
Theorem trendSeries_upsert_sorted (series normalized : list trend_point) (limitNum : num) :
  StronglySorted (fun a b => tp_t a < tp_t b)
    (trendSeries_patch "upsert" series normalized limitNum) /\
  (forall p q, In p (trendSeries_patch "upsert" series normalized limitNum) ->
     In q normalized -> tp_t p == tp_t q -> In p normalized).
Proof.
  split.
  - unfold trendSeries_patch. rewrite trend_cap_eq. apply StronglySorted_skipn.
    unfold trend_merge. cbn [String.eqb Ascii.eqb Bool.eqb].
    unfold trend_sort. apply trend_sort_sorted_gen.
    + constructor.
    + intros a b [].
    + apply trend_values_distinct. apply trend_set_all_ok, trend_set_all_ok.
      split; constructor.
  - intros p q Hp Hq Heq.
    unfold trendSeries_patch in Hp. rewrite trend_cap_eq in Hp. apply In_skipn in Hp.
    unfold trend_merge in Hp. cbn [String.eqb Ascii.eqb Bool.eqb] in Hp.
    unfold trend_sort in Hp. apply trend_sort_in in Hp as [Hp|[]].
    assert (Hok : trend_map_ok (trend_set_all [] series))
      by (apply trend_set_all_ok; split; constructor).
    destruct (trend_set_all_vals _ _ _ Hok Hp) as [H|[_ H]]; [exact H|].
    rewrite Forall_forall in H. exfalso. apply (H q Hq). symmetry. exact Heq.
Qed.

(** ** Social feed *)

Lemma social_from_spec (fresh : nat -> string) (i : nat) (l : list jsval) :
  List.map (fun it => obj_get it "text") (social_from fresh i l) =
  List.map (fun e => match e with JStr s => JStr s | _ => obj_get e "text" end)
           (List.filter social_kept l) /\
  Forall social_shaped (social_from fresh i l).
Proof.
  revert i. induction l as [|e l IH]; intro i; simpl; [split; constructor|].
  destruct (IH (S i)) as [IH1 IH2].
  destruct e as [| | b | q | s | a | fs]; simpl; try (split; assumption).
  - split; [rewrite IH1; reflexivity|].
    constructor; [left; eauto|exact IH2].
  - destruct (prop_lookup "text" fs) as [| | | | t | |] eqn:Et; simpl; try (split; assumption).
    destruct (String.eqb t "") eqn:Etn; simpl; [split; assumption|].
    split.
    + rewrite Et, IH1. reflexivity.
    + constructor; [right; eauto 6|exact IH2].
Qed.

(** X4.  [normalizeSocialItems] keeps, in order and one item each, exactly
    the string entries and the object entries whose [text] is a non-empty
    string, copying their text; every item has the shape [{id, text}] (from
    a string) or [{id, text, tone, source}] (from an object).  A string
    entry is kept even when empty, so an item with empty text can only come
    from a [""] entry; a non-array [items] gives the empty list. *)
Theorem normalizeSocialItems_kept (fresh : nat -> string) (items : jsval) :
  match items with
  | JArr l =>
      List.map (fun it => obj_get it "text") (normalizeSocialItems fresh items) =
      List.map (fun e => match e with JStr s => JStr s | _ => obj_get e "text" end)
               (List.filter social_kept l)
  | _ => normalizeSocialItems fresh items = []
  end /\
  Forall social_shaped (normalizeSocialItems fresh items).
Proof.
  destruct items as [| | | | | l |]; simpl; try (split; [reflexivity|constructor]).
  exact (social_from_spec fresh 0 l).
Qed.

Lemma spread_social (c : jsval) (i t : string) (a b : jsval) :
  social_shaped c ->
  spread_merge c (JObj [("id", JStr i); ("text", JStr t); ("tone", a); ("source", b)])
  = JObj [("id", JStr i); ("text", JStr t); ("tone", a); ("source", b)].
Proof.
  intros [[i' [t' ->]] | [i' [t' [a' [b' ->]]]]]; reflexivity.
Qed.

Lemma social_upsert_map (current : list jsval) (it : jsval) :
  (forall c, In c current -> social_shaped c) ->
  (exists i t a b, it = JObj [("id", JStr i); ("text", JStr t); ("tone", a); ("source", b)]) ->
  map_values (social_upsert_step (List.map id_pair current) it) =
  if existsb (fun c => sv0 (prop_id c) (prop_id it)) current
  then List.map (fun c => if sv0 (prop_id c) (prop_id it) then it else c) current
  else current ++ [it].
Proof.
  intros Hs [i [t [a [b ->]]]].
  set (it := JObj [("id", JStr i); ("text", JStr t); ("tone", a); ("source", b)]).
  unfold social_upsert_step, map_set, map_has.
  assert (Hg : forall l, (forall c, In c l -> social_shaped c) ->
            match map_get sv0 (List.map id_pair l) (prop_id it) with
            | Some o => social_shaped o /\ existsb (fun c => sv0 (prop_id c) (prop_id it)) l = true
            | None => existsb (fun c => sv0 (prop_id c) (prop_id it)) l = false
            end).
  { induction l as [|c l IH]; intro H; simpl; [reflexivity|].
    destruct (sv0 (prop_id c) (prop_id it)) eqn:E; simpl.
    - split; [apply H; now left|reflexivity].
    - apply IH. intros c' Hc'. apply H. now right. }
  specialize (Hg current Hs).
  destruct (map_get sv0 (List.map id_pair current) (prop_id it)) as [o|] eqn:Eg.
  - destruct Hg as [Ho He]. rewrite He. unfold it at 2. rewrite spread_social by exact Ho.
    fold it. unfold map_values. rewrite List.map_map, List.map_map. apply map_ext.
    intro c. simpl. destruct (sv0 (prop_id c) (prop_id it)); reflexivity.
  - rewrite Hg. unfold map_values. rewrite List.map_app, List.map_map. simpl.
    rewrite map_id. reflexivity.
Qed.

(** X5.  In [upsert] mode of the [socialFeed] patch, an item normalized
    from an object entry replaces, in place, the stored item with the same
    id as a whole: a [tone] or [source] it lacks becomes [undefined] rather
    than keeping the stored value; with no stored item of that id it is
    appended.  This holds when the stored feed holds normalized items
    with pairwise distinct ids; the feed does not keep that by itself
    ([replace] and [append] store repeated ids as given, and [upsert] then
    collapses the entries sharing an id into one). *)
Theorem socialFeed_upsert_replaces (current : list jsval) (fresh : string)
        (fs : list (string * jsval)) (it : jsval) :
  Forall social_shaped current ->
  ids_distinct current = true ->
  normalize_social_entry fresh (JObj fs) = Some it ->
  socialFeed_patch "upsert" current [it] =
  (if existsb (fun c => sv0 (prop_id c) (prop_id it)) current
   then List.map (fun c => if sv0 (prop_id c) (prop_id it) then it else c) current
   else current ++ [it]) /\
  obj_get it "tone" = str_or_undef (obj_get (JObj fs) "tone") /\
  obj_get it "source" = str_or_undef (obj_get (JObj fs) "source").
Proof.
  intros Hs Hd Hn.
  assert (Hit : exists i t, it = JObj [("id", JStr i); ("text", JStr t);
                                       ("tone", str_or_undef (obj_get (JObj fs) "tone"));
                                       ("source", str_or_undef (obj_get (JObj fs) "source"))]).
  { unfold normalize_social_entry in Hn.
    destruct (obj_get (JObj fs) "text") as [| | | | t | |]; try discriminate.
    destruct (String.eqb t ""); [discriminate|]. injection Hn as <-. eauto. }
  destruct Hit as [i [t Hit]].
  split; [|rewrite Hit; split; reflexivity].
  unfold socialFeed_patch. cbn [String.eqb Ascii.eqb Bool.eqb]. simpl fold_left.
  fold (id_pair). change (List.map id_pair current) with (List.map id_pair current).
  rewrite map_of_pairs_ok by exact Hd.
  apply social_upsert_map; [now apply Forall_forall|].
  rewrite Hit. eauto.
Qed.

Lemma socialFeed_upsert_replaces_witness :
  let cur := [JObj [("id", JStr "s1"); ("text", JStr "old"); ("tone", JStr "angry");
                    ("source", JUndef)]] in
  let e := [("id", JStr "s1"); ("text", JStr "new")] in
  Forall social_shaped cur /\ ids_distinct cur = true /\
  normalize_social_entry "zz" (JObj e)
    = Some (JObj [("id", JStr "s1"); ("text", JStr "new"); ("tone", JUndef);
                  ("source", JUndef)]) /\
  socialFeed_patch "upsert" cur
    [JObj [("id", JStr "s1"); ("text", JStr "new"); ("tone", JUndef); ("source", JUndef)]]
  = [JObj [("id", JStr "s1"); ("text", JStr "new"); ("tone", JUndef); ("source", JUndef)]].
Proof.
  cbv zeta.
  assert (H1 : Forall social_shaped
                 [JObj [("id", JStr "s1"); ("text", JStr "old"); ("tone", JStr "angry");
                        ("source", JUndef)]]).
  { constructor; [right; eauto 6|constructor]. }
  assert (H2 : ids_distinct [JObj [("id", JStr "s1"); ("text", JStr "old");
                                   ("tone", JStr "angry"); ("source", JUndef)]] = true)
    by reflexivity.
  assert (H3 : normalize_social_entry "zz" (JObj [("id", JStr "s1"); ("text", JStr "new")])
               = Some (JObj [("id", JStr "s1"); ("text", JStr "new"); ("tone", JUndef);
                             ("source", JUndef)])) by reflexivity.
  split; [exact H1|]. split; [exact H2|]. split; [exact H3|].
  rewrite (proj1 (socialFeed_upsert_replaces _ "zz" _ _ H1 H2 H3)). reflexivity.
Defined.

(** ** [publicEvent] *)

Lemma lookup_filter (k : string) (f : string * jsval -> bool) (fs : list (string * jsval))
      (r : jsval) :
  (forall kv, fst kv = k -> f kv = true) ->
  fold_left (lookup_step k) (List.filter f fs) r = fold_left (lookup_step k) fs r.
Proof.
  revert r. induction fs as [|kv fs IH]; intros r H; simpl; [reflexivity|].
  destruct (f kv) eqn:E; simpl; [apply IH, H|].
  rewrite IH by exact H. f_equal. unfold lookup_step.
  destruct (String.eqb (fst kv) k) eqn:Ek; [|reflexivity].
  apply String.eqb_eq, H in Ek. congruence.
Qed.

Lemma existsb_flag_filter (fs : list (string * jsval)) :
  existsb (fun kv => internal_flag (fst kv))
    (List.filter (fun kv => negb (String.eqb (fst kv) "_opened")
                            && negb (String.eqb (fst kv) "_closed")) fs) = false.
Proof.
  induction fs as [|kv fs IH]; [reflexivity|]. cbn [List.filter].
  destruct (String.eqb (fst kv) "_opened") eqn:E1, (String.eqb (fst kv) "_closed") eqn:E2;
    cbn [negb andb]; try exact IH.
  cbn [existsb]. unfold internal_flag at 1. rewrite E1, E2. exact IH.
Qed.

(** X6.  [publicEvent] strips the internal [_opened] / [_closed] flags, sets
    [actions] to [allowedActions] exactly when [actions] is not a non-empty
    array and [allowedActions] is one, and leaves every other property as
    it was. *)
Theorem publicEvent_spec (ev : list (string * jsval)) :
  existsb (fun kv => internal_flag (fst kv)) (publicEvent ev) = false /\
  prop_lookup "actions" (publicEvent ev) =
    (if negb (array_nonempty (prop_lookup "actions" ev))
        && array_nonempty (prop_lookup "allowedActions" ev)
     then prop_lookup "allowedActions" ev else prop_lookup "actions" ev) /\
  (forall k, internal_flag k = false -> k <> "actions" ->
     prop_lookup k (publicEvent ev) = prop_lookup k ev).
Proof.
  set (f := fun kv : string * jsval => negb (String.eqb (fst kv) "_opened")
                                       && negb (String.eqb (fst kv) "_closed")).
  assert (Hl : forall k, internal_flag k = false ->
                 prop_lookup k (List.filter f ev) = prop_lookup k ev).
  { intros k Hk. unfold prop_lookup. apply lookup_filter.
    intros kv <-. unfold f. unfold internal_flag in Hk.
    apply orb_false_iff in Hk as [-> ->]. reflexivity. }
  assert (Ha := Hl "actions" eq_refl). assert (Hal := Hl "allowedActions" eq_refl).
  unfold publicEvent. fold f. rewrite Ha, Hal.
  destruct (negb (array_nonempty (prop_lookup "actions" ev))
            && array_nonempty (prop_lookup "allowedActions" ev)).
  - split; [|split].
    + unfold assign. destruct (existsb _ (List.filter f ev)).
      * pose proof (existsb_flag_filter ev) as H. fold f in H.
        revert H. generalize (List.filter f ev). intros l H.
        induction l as [|kv l IH]; simpl in *; [reflexivity|].
        apply orb_false_iff in H as [H1 H2].
        destruct (String.eqb (fst kv) "actions") eqn:E; simpl.
        -- apply String.eqb_eq in E. rewrite E in H1 |- *. simpl. exact (IH H2).
        -- rewrite H1. exact (IH H2).
      * rewrite existsb_app. pose proof (existsb_flag_filter ev) as H. fold f in H.
        rewrite H. reflexivity.
    + rewrite lookup_assign. unfold prop_lookup. rewrite fold_left_app. reflexivity.
    + intros k Hk Hna. rewrite lookup_assign. unfold prop_lookup. rewrite fold_left_app.
      cbn [fold_left]. unfold lookup_step at 1. cbn [fst snd].
      destruct (String.eqb "actions" k) eqn:E; [apply String.eqb_eq in E; congruence|].
      exact (Hl k Hk).
  - split; [|split].
    + pose proof (existsb_flag_filter ev) as H. exact H.
    + exact Ha.
    + intros k Hk _. exact (Hl k Hk).
Qed.

(** ** Scoring branches and the session clock *)

(** X7.  [computeScore] checks lateness first: past [t + window] the result
    is the late penalty (default -50) even when the action is correct, and,
    for a negative window, even before [t]; inside [t + window] but before
    [t] it is 0 with reason [too_early]; inside the window a wrong action
    gets the wrong penalty (default -100). *)
Theorem computeScore_outcomes (ev : event) (action : string) (n : Q) :
  (ev_t ev + ev_responseWindowSec ev < n ->
   computeScore ev action n = mkScore (Fin (late_penalty ev)) "late" None) /\
  (n <= ev_t ev + ev_responseWindowSec ev -> n < ev_t ev ->
   computeScore ev action n = mkScore (Fin 0) "too_early" None) /\
  (n <= ev_t ev + ev_responseWindowSec ev -> ev_t ev <= n -> action <> ev_correctAction ev ->
   computeScore ev action n
   = mkScore (Fin (with_default (-100) (pen_wrong (ev_penalties ev)))) "wrong" None).
Proof.
  unfold computeScore, late_penalty. cbn zeta. split; [|split].
  - intro H. now rewrite (qltb_true _ _ H).
  - intros H1 H2. now rewrite (qltb_false _ _ H1), (qltb_true _ _ H2).
  - intros H1 H2 H3. rewrite (qltb_false _ _ H1), (qltb_false _ _ H2).
    apply String.eqb_neq in H3. now rewrite H3.
Qed.

Lemma computeScore_outcomes_witness :
  computeScore (ev_with 10 (-5) None) "Dispatch" 7 = mkScore (Fin (-50)) "late" None /\
  computeScore ev_dispatch "Dispatch" 5 = mkScore (Fin 0) "too_early" None /\
  computeScore ev_dispatch "Hold" 12 = mkScore (Fin (-100)) "wrong" None.
Proof.
  split; [|split].
  - apply (proj1 (computeScore_outcomes (ev_with 10 (-5) None) "Dispatch" 7)).
    vm_compute. reflexivity.
  - apply (proj1 (proj2 (computeScore_outcomes ev_dispatch "Dispatch" 5)));
      vm_compute; first [reflexivity | discriminate].
  - apply (proj2 (proj2 (computeScore_outcomes ev_dispatch "Hold" 12)));
      vm_compute; first [reflexivity | discriminate].
Defined.

(** X8.  [getSessionT] is 0 before the session starts, never negative, 0
    during the first second after the start (and for any clock reading
    before it), and never decreases as the wall clock advances. *)
Theorem getSessionT_props (s : session) (now now' : Z) :
  (s_startedAt s = None -> getSessionT s now = 0%Z) /\
  (0 <= getSessionT s now)%Z /\
  (forall st, s_startedAt s = Some st -> (now < st + 1000)%Z -> getSessionT s now = 0%Z) /\
  ((now <= now')%Z -> (getSessionT s now <= getSessionT s now')%Z).
Proof.
  unfold getSessionT. split; [|split; [|split]].
  - intro H. now rewrite H.
  - destruct (s_startedAt s); lia.
  - intros st H Hlt. rewrite H.
    assert (((now - st) / 1000 < 1)%Z) by (apply Z.div_lt_upper_bound; lia). lia.
  - intro H. destruct (s_startedAt s) as [st|]; [|lia].
    assert (((now - st) / 1000 <= (now' - st) / 1000)%Z) by (apply Z.div_le_mono; lia).
    lia.
Qed.

Lemma getSessionT_props_witness :
  getSessionT session_started (-5000) = 0%Z /\ (getSessionT session_started 999 <= getSessionT session_started 2500)%Z.
Proof.
  split.
  - apply (proj1 (proj2 (proj2 (getSessionT_props session_started (-5000) 0%Z))) 0%Z);
      vm_compute; first [reflexivity | discriminate].
  - apply (proj2 (proj2 (proj2 (getSessionT_props session_started 999 2500)))).
    vm_compute. discriminate.
Defined.

(** ** Score aggregate *)

Lemma fold_num_add_fin (qs : list Q) (a : Q) :
  fold_left num_add (List.map Fin qs) (Fin a) = Fin (fold_left Qplus qs a).
Proof. revert a. induction qs as [|q qs IH]; intro a; simpl; [reflexivity|apply IH]. Qed.

Lemma fold_num_max_fin (qs : list Q) (a : Q) :
  fold_left num_max (List.map Fin qs) (Fin a) = Fin (fold_left Qmax qs a).
Proof. revert a. induction qs as [|q qs IH]; intro a; simpl; [reflexivity|apply IH]. Qed.

Lemma fold_Qmax_ub (qs : list Q) (a : Q) :
  a <= fold_left Qmax qs a /\ (forall q, In q qs -> q <= fold_left Qmax qs a).
Proof.
  revert a. induction qs as [|q qs IH]; intro a; simpl.
  - split; [lra|contradiction].
  - destruct (IH (Qmax a q)) as [H1 H2].
    pose proof (Q.le_max_l a q). pose proof (Q.le_max_r a q).
    split; [eapply Qle_trans; eauto|].
    intros x [<-|Hx]; [eapply Qle_trans; eauto|auto].
Qed.

Lemma fold_Qmax_attained (qs : list Q) (a : Q) :
  fold_left Qmax qs a = a \/ In (fold_left Qmax qs a) qs.
Proof.
  revert a. induction qs as [|q qs IH]; intro a; simpl; [now left|].
  destruct (IH (Qmax a q)) as [H|H]; [|now right; right].
  rewrite H. unfold Qmax, GenericMinMax.gmax.
  destruct (Qcompare a q); [now left|now right; left|now left].
Qed.

Lemma vals_fin (ps : list participant) :
  (forall p, In p ps -> p_score p <> PInf /\ p_score p <> NInf) ->
  List.map (fun p => score_or0 (p_score p)) ps = List.map Fin (List.map score_q ps).
Proof.
  induction ps as [|p ps IH]; intro H; simpl; [reflexivity|].
  f_equal; [|apply IH; intros; apply H; now right].
  destruct (H p (or_introl eq_refl)) as [H1 H2]. unfold score_q.
  destruct (p_score p) as [q| | |]; simpl; try congruence.
  destruct (Qeq_bool q 0); reflexivity.
Qed.

(** X9.  [recomputeAgg] counts every participant; with none it is
    [{mean: 0, max: 0, activeCount: 0}]; when no score is infinite, the
    mean is the sum of the [score || 0] values divided by their number,
    and the max is one of those values and at least every other one. *)
Theorem recomputeAgg_spec (ps : @omap string participant) :
  agg_activeCount (recomputeAgg ps) = List.length ps /\
  (ps = [] -> recomputeAgg ps = mkAgg (Fin 0) (Fin 0) 0) /\
  ((forall p, In p (map_values ps) -> p_score p <> PInf /\ p_score p <> NInf) -> ps <> [] ->
   agg_mean (recomputeAgg ps)
     = Fin (fold_left Qplus (List.map score_q (map_values ps)) 0
            / inject_Z (Z.of_nat (List.length ps))) /\
   exists m, agg_max (recomputeAgg ps) = Fin m /\
     (forall p, In p (map_values ps) -> score_q p <= m) /\
     (exists p, In p (map_values ps) /\ score_q p = m)).
Proof.
  split; [|split].
  - unfold recomputeAgg. cbn zeta. cbn [agg_activeCount].
    unfold map_values. now rewrite !List.length_map.
  - intros ->. reflexivity.
  - intros Hf Hne. unfold recomputeAgg. cbn zeta.
    rewrite (vals_fin _ Hf).
    assert (Hl : List.length (List.map Fin (List.map score_q (map_values ps))) = List.length ps)
      by (unfold map_values; now rewrite !List.length_map).
    rewrite Hl.
    destruct ps as [|kv ps']; [congruence|].
    set (qs := List.map score_q (map_values (kv :: ps'))).
    assert (Hqs : qs = score_q (snd kv) :: List.map score_q (map_values ps')) by reflexivity.
    rewrite Hqs. cbn [List.map agg_mean agg_max].
    split.
    + cbn [fold_left]. replace (num_add (Fin 0) (Fin (score_q (snd kv))))
        with (Fin (0 + score_q (snd kv))) by reflexivity.
      rewrite fold_num_add_fin. unfold num_div.
      replace (Qeq_bool (inject_Z (Z.of_nat (List.length (kv :: ps')))) 0) with false.
      * reflexivity.
      * symmetry. destruct (Qeq_bool _ 0) eqn:E; [|reflexivity]. exfalso.
        apply Qeq_bool_iff in E. revert E. cbn [List.length]. rewrite Nat2Z.inj_succ.
        unfold Z.succ. rewrite inject_Z_plus. change (inject_Z 1) with 1.
        assert (0 <= inject_Z (Z.of_nat (List.length ps')))
          by (change 0 with (inject_Z 0); rewrite <- Zle_Qle; lia).
        intro E. lra.
    + cbn [fold_left]. change (num_max NInf (Fin (score_q (snd kv))))
        with (Fin (score_q (snd kv))).
      rewrite fold_num_max_fin.
      set (m := fold_left Qmax (List.map score_q (map_values ps')) (score_q (snd kv))).
      exists m. split; [reflexivity|]. split.
      * intros p Hp. destruct (fold_Qmax_ub (List.map score_q (map_values ps')) (score_q (snd kv)))
          as [H1 H2].
        destruct Hp as [<-|Hp]; [exact H1|]. apply H2. now apply in_map.
      * destruct (fold_Qmax_attained (List.map score_q (map_values ps')) (score_q (snd kv)))
          as [H|H].
        -- exists (snd kv). split; [now left|]. symmetry. exact H.
        -- apply in_map_iff in H as [p [Hp Hin]]. exists p. split; [now right|exact Hp].
Qed.

Lemma recomputeAgg_spec_witness :
  agg_max (recomputeAgg example_participants) = Fin 90.
Proof.
  destruct (proj2 (proj2 (recomputeAgg_spec example_participants))) as [_ [m [Hm [Hub [p [Hp Hpm]]]]]].
  - intros p Hp. simpl in Hp.
    destruct Hp as [<-|[<-|[<-|[]]]]; split; discriminate.
  - discriminate.
  - rewrite Hm. vm_compute in Hm. injection Hm as <-. reflexivity.
Defined.

(** ** Closing an event *)

Lemma penalize_missing_fst (s : session) (eventId : string) (delta : Q)
      (perEvent : @omap string input_rec) (ps : @omap string participant) :
  fst (penalize_missing s eventId delta perEvent ps) =
  List.map (fun kv => if map_has String.eqb perEvent (fst kv) then kv
                      else (fst kv, set_score (snd kv)
                                      (num_add (score_or0 (p_score (snd kv))) (Fin delta))))
           ps.
Proof.
  induction ps as [|[pid p] rest IH]; [reflexivity|].
  cbn [penalize_missing List.map fst snd].
  destruct (penalize_missing s eventId delta perEvent rest) as [r e].
  cbn [fst] in IH. subst r.
  destruct (map_has String.eqb perEvent pid); reflexivity.
Qed.

(** X10.  Closing an open event ([closeEvent]) penalizes exactly the
    participants without an InputRecord for it: each of them gets
    [(score || 0) + noResponse] (default -50), the others keep their entry
    untouched, the participants keep their order; the event is marked
    closed, the aggregate is recomputed from the new scores, and the
    InputRecords are left as they were. *)
Theorem closeEvent_no_response (s : session) (eventId : string) (ev : event) :
  find_event (s_events s) eventId = Some ev ->
  ev_closed ev = false ->
  s_participants (fst (closeEvent s eventId)) =
    List.map (fun kv =>
      if map_has String.eqb
           (match map_get String.eqb (s_inputs s) eventId with Some m => m | None => [] end)
           (fst kv)
      then kv
      else (fst kv, set_score (snd kv)
                      (num_add (score_or0 (p_score (snd kv)))
                               (Fin (with_default (-50) (pen_noResponse (ev_penalties ev)))))))
      (s_participants s) /\
  s_events (fst (closeEvent s eventId)) = close_first eventId (s_events s) /\
  s_scoreAgg (fst (closeEvent s eventId)) = recomputeAgg (s_participants (fst (closeEvent s eventId))) /\
  s_inputs (fst (closeEvent s eventId)) = s_inputs s.
Proof.
  intros Hf Hc. unfold closeEvent. rewrite Hf, Hc. cbn zeta.
  pose proof (penalize_missing_fst s eventId (with_default (-50) (pen_noResponse (ev_penalties ev)))
                (match map_get String.eqb (s_inputs s) eventId with Some m => m | None => [] end)
                (s_participants s)) as Hp.
  destruct (penalize_missing _ _ _ _ _) as [ps fb]. cbn [fst] in Hp.
  destruct (forallb ev_closed (close_first eventId (s_events s)));
    cbn [fst s_participants s_events s_scoreAgg s_inputs set_timers set_scoreAgg
         set_participants set_events];
    repeat split; assumption.
Qed.

Lemma closeEvent_no_response_witness :
  find_event (s_events session_half_answered) "E1" = Some (clear_flags ev_dispatch) /\
  ev_closed (clear_flags ev_dispatch) = false /\
  List.map (fun kv => score_or0 (p_score (snd kv)))
    (s_participants (fst (closeEvent session_half_answered "E1"))) = [Fin (-50); Fin 90].
Proof.
  assert (H1 : find_event (s_events session_half_answered) "E1" = Some (clear_flags ev_dispatch))
    by (vm_compute; reflexivity).
  assert (H2 : ev_closed (clear_flags ev_dispatch) = false) by reflexivity.
  split; [exact H1|]. split; [exact H2|].
  rewrite (proj1 (closeEvent_no_response session_half_answered "E1" _ H1 H2)).
  vm_compute. reflexivity.
Defined.

(** ** [POST /api/session/:id/dev/open] *)

Lemma flat_map_snoc {A B} (f : A -> list B) (l : list A) (x : A) :
  flat_map f (l ++ [x]) = flat_map f l ++ f x.
Proof. rewrite flat_map_app. simpl. now rewrite app_nil_r. Qed.

(** X11.  [dev/open] on a session that has not started changes nothing;
    on a started one it appends a synthetic event at the current elapsed
    second and opens it on the spot: the event is the last of the
    scenario, flagged open, and the timers end with its hint at delay 0
    and its auto-close after [max(0, windowSec)] seconds, after the timers
    of any other event the same pass opened. *)
Theorem devOpen_opens_now (s : session) (now : Z) (w : Q) (ca loc nid : string) :
  (s_startedAt s = None -> devOpen s now w ca loc nid = (s, [])) /\
  (forall st, s_startedAt s = Some st ->
   List.length (s_events (fst (devOpen s now w ca loc nid))) = S (List.length (s_events s)) /\
   nth_error (s_events (fst (devOpen s now w ca loc nid))) (List.length (s_events s))
     = Some (set_opened (dev_event s now w ca loc nid)) /\
   exists tms d1 d2,
     s_timers (fst (devOpen s now w ca loc nid)) =
       s_timers s ++ tms ++
       [TAlgo nid (inject_Z (getSessionT s now) + w)
              (String.append "EXECUTE: " (String.append ca (String.append " at "
                 (String.append loc ".")))) d1;
        TClose nid d2] /\
     d1 == 0 /\ d2 == Qmax 0 (w * 1000)).
Proof.
  split.
  - intro H. unfold devOpen. now rewrite H.
  - intros st H. rewrite (devOpen_eq s now w ca loc nid st H), openEventsIfNeeded_eq.
    cbn [fst s_events s_timers set_timers set_events].
    set (T := inject_Z (getSessionT s now)).
    set (d := dev_event s now w ca loc nid).
    assert (Ho : open_step T d = set_opened d).
    { unfold open_step. replace (ev_opened d || qltb T (ev_t d)) with false; [reflexivity|].
      unfold d, dev_event. cbn [ev_opened ev_t]. fold T.
      rewrite qltb_false by apply Qle_refl. reflexivity. }
    split; [|split].
    + rewrite List.map_app, List.length_app, List.length_map. simpl. lia.
    + rewrite List.map_app, nth_error_app2; rewrite List.length_map; [|lia].
      rewrite Nat.sub_diag. simpl. now rewrite Ho.
    + rewrite flat_map_snoc.
      exists (flat_map (open_step_timers T) (s_events s)),
             (Qmax 0 ((T + 0 - T) * 1000)), (Qmax 0 ((T + w - T) * 1000)).
      split; [|split].
      * f_equal. f_equal.
        unfold open_step_timers. replace (ev_opened d || qltb T (ev_t d)) with false.
        -- reflexivity.
        -- unfold d, dev_event. cbn [ev_opened ev_t]. fold T.
           rewrite qltb_false by apply Qle_refl. reflexivity.
      * apply Q.max_l. lra.
      * destruct (Qlt_le_dec 0 (w * 1000)) as [Hw|Hw].
        -- rewrite (Q.max_r 0 ((T + w - T) * 1000)) by lra.
           rewrite (Q.max_r 0 (w * 1000)) by lra. ring.
        -- rewrite (Q.max_l 0 ((T + w - T) * 1000)) by lra.
           rewrite (Q.max_l 0 (w * 1000)) by lra. reflexivity.
Qed.

Lemma devOpen_opens_now_witness :
  s_startedAt session_started = Some 0%Z /\
  nth_error (s_events (fst (devOpen session_started 5000 15 "ACK" "Gate" "N1"))) 1
    = Some (set_opened (dev_event session_started 5000 15 "ACK" "Gate" "N1")).
Proof.
  assert (H : s_startedAt session_started = Some 0%Z) by reflexivity.
  split; [exact H|].
  exact (proj1 (proj2 (proj2 (devOpen_opens_now session_started 5000 15 "ACK" "Gate" "N1") 0%Z H))).
Defined.

(** ** Input handler: other outcomes *)

Lemma map_get_set_same {V} (m : @omap string V) (k : string) (v : V) :
  map_get String.eqb (map_set String.eqb m k v) k = Some v.
Proof. rewrite map_get_set. now rewrite String.eqb_refl. Qed.

(** X12.  An input naming an event that is not in the scenario is
    rejected with HTTP 400 [EVENT_NOT_FOUND] and sends nothing, yet the
    participant upsert at the top of the handler has already happened: the
    participant is registered (with score 0 when new) and no score or
    InputRecord changes. *)
Theorem postInput_unknown_event (s : session) (now : Z) (rq : input_req) :
  find_event (s_events s) (rq_eventId rq) = None ->
  post_response s now rq = RStatus 400 "EVENT_NOT_FOUND" /\
  snd (fst (postInput s now rq)) = [] /\
  map_has String.eqb (s_participants (post_state s now rq)) (req_pid rq) = true /\
  (forall q, score_of (post_state s now rq) q = score_of s q) /\
  s_inputs (post_state s now rq) = s_inputs s.
Proof.
  intro Hf.
  assert (E : postInput s now rq =
    (set_participants s (map_set String.eqb (s_participants s) (req_pid rq)
                          (upsert_participant (s_participants s) (req_pid rq) (req_codename rq))),
     [], RStatus 400 "EVENT_NOT_FOUND")).
  { unfold postInput. cbn zeta. cbn [s_events set_participants]. now rewrite Hf. }
  unfold post_response, post_state. rewrite E. cbn [fst snd].
  split; [reflexivity|]. split; [reflexivity|]. split; [|split; [|reflexivity]].
  - unfold map_has. cbn [s_participants set_participants]. now rewrite map_get_set_same.
  - intro q. apply score_of_upsert.
Qed.

Lemma postInput_unknown_event_witness :
  find_event (s_events session_started) "NOPE" = None /\
  map_has String.eqb
    (s_participants (post_state session_started 12000 (mkReq "p9" "Zed" "NOPE" "Dispatch" "x" "y")))
    "p9" = true.
Proof.
  assert (H : find_event (s_events session_started)
                (rq_eventId (mkReq "p9" "Zed" "NOPE" "Dispatch" "x" "y")) = None)
    by (vm_compute; reflexivity).
  split; [exact H|].
  exact (proj1 (proj2 (proj2 (postInput_unknown_event session_started 12000 _ H)))).
Defined.

(** X13.  A first input inside the window of an existing event is accepted
    ([accepted: true], also for a wrong action): the InputRecord stored for
    the pair is exactly [computeScore]'s outcome at the current elapsed
    second, the participant's score grows by that delta (from 0 for a new
    participant), no other score changes, and the recomputed aggregate is
    stored and broadcast to the ops sockets. *)
Theorem postInput_accepted (s : session) (now : Z) (rq : input_req) (ev : event) :
  find_event (s_events s) (rq_eventId rq) = Some ev ->
  ev_t ev <= inject_Z (getSessionT s now) <= ev_t ev + ev_responseWindowSec ev ->
  input_of s (rq_eventId rq) (req_pid rq) = None ->
  post_response s now rq = RAccepted true None /\
  input_of (post_state s now rq) (rq_eventId rq) (req_pid rq) =
    Some (mkInput (req_pid rq) (rq_eventId rq) (rq_action rq) (getSessionT s now)
            (sr_delta (computeScore ev (rq_action rq) (inject_Z (getSessionT s now))))
            (sr_reason (computeScore ev (rq_action rq) (inject_Z (getSessionT s now))))) /\
  score_of (post_state s now rq) (req_pid rq) =
    num_add (score_of s (req_pid rq))
            (sr_delta (computeScore ev (rq_action rq) (inject_Z (getSessionT s now)))) /\
  (forall q, q <> req_pid rq -> score_of (post_state s now rq) q = score_of s q) /\
  s_scoreAgg (post_state s now rq) = recomputeAgg (s_participants (post_state s now rq)) /\
  In (ToOps (MScoreAgg (s_scoreAgg (post_state s now rq)))) (snd (fst (postInput s now rq))).
Proof.
  intros Hf [Hlo Hhi] Hin.
  assert (Hhas : map_has String.eqb
                   (match map_get String.eqb (s_inputs s) (rq_eventId rq) with
                    | Some m => m | None => [] end) (req_pid rq) = false).
  { unfold input_of in Hin. unfold map_has.
    destruct (map_get String.eqb (s_inputs s) (rq_eventId rq)); [now rewrite Hin|reflexivity]. }
  unfold post_response, post_state, postInput. cbn zeta. cbn [s_events set_participants].
  rewrite Hf, getSessionT_set_participants.
  rewrite (qltb_false (inject_Z (getSessionT s now)) (ev_t ev) Hlo).
  rewrite (qltb_false (ev_t ev + ev_responseWindowSec ev) (inject_Z (getSessionT s now)) Hhi).
  cbn [s_inputs set_participants]. rewrite Hhas.
  cbn [fst snd]. unfold set_scoreAgg, set_participants, set_inputs.
  cbn [s_inputs s_participants s_scoreAgg].
  split; [reflexivity|]. split; [|split; [|split; [|split]]].
  - unfold input_of. cbn [s_inputs]. rewrite map_get_set_same, map_get_set_same. reflexivity.
  - unfold score_of. cbn [s_participants]. rewrite map_get_set_same. cbn [p_score set_score].
    rewrite upsert_participant_score. reflexivity.
  - intros q Hq. unfold score_of. cbn [s_participants].
    assert (Hne : String.eqb (req_pid rq) q = false) by (apply String.eqb_neq; congruence).
    rewrite !map_get_set, Hne. reflexivity.
  - reflexivity.
  - apply in_or_app. right. now left.
Qed.

Lemma postInput_accepted_witness :
  find_event (s_events session_started) "E1" = Some (clear_flags ev_dispatch) /\
  post_response session_started 12000 (rq_p1 "Hold") = RAccepted true None /\
  score_of (post_state session_started 12000 (rq_p1 "Hold")) "p1" = Fin (-100).
Proof.
  assert (H1 : find_event (s_events session_started) (rq_eventId (rq_p1 "Hold"))
               = Some (clear_flags ev_dispatch)) by (vm_compute; reflexivity).
  assert (H2 : ev_t (clear_flags ev_dispatch) <= inject_Z (getSessionT session_started 12000)
               <= ev_t (clear_flags ev_dispatch) + ev_responseWindowSec (clear_flags ev_dispatch))
    by (vm_compute; split; discriminate).
  assert (H3 : input_of session_started (rq_eventId (rq_p1 "Hold")) (req_pid (rq_p1 "Hold")) = None)
    by reflexivity.
  destruct (postInput_accepted session_started 12000 (rq_p1 "Hold") _ H1 H2 H3)
    as [R [_ [S _]]].
  split; [exact H1|]. split; [exact R|].
  refine (eq_trans S _). vm_compute. reflexivity.
Defined.

(** ** [mergeList] errors *)

Lemma id_pairs_none (l : list jsval) :
  id_pairs l = None <-> exists e, In e l /\ get_id e = None.
Proof.
  induction l as [|e l IH]; simpl.
  - split; [discriminate|]. intros [e [[] _]].
  - destruct (get_id e) eqn:Ee.
    + destruct (id_pairs l) eqn:El.
      * split; [discriminate|]. intros [x [[<-|Hx] Hg]]; [congruence|].
        assert (Some l0 = None) by (apply IH; exists x; split; assumption). congruence.
      * split; [intros _|reflexivity]. destruct (proj1 IH eq_refl) as [x [Hx Hg]].
        exists x. split; [now right|exact Hg].
    + split; [intros _|reflexivity]. exists e. split; [now left|exact Ee].
Qed.

Lemma lower_upsert_nonempty (s : string) : lower s = "upsert" -> s <> "".
Proof. intros H ->. discriminate. Qed.

(** X14.  [mergeList] throws exactly in two cases: the mode is truthy but
    not a string ([toLowerCase] is not a function), or the mode lower-cases
    to [upsert] while some existing entry is [null] or [undefined] (reading
    its [id]); every other call returns a list. *)
Theorem mergeList_throws (existing : jsval) (pt : patch) :
  mergeList existing pt = None <->
  (truthy (match p_mode pt with JUndef => JStr "replace" | m => m end) = true /\
   (forall s, match p_mode pt with JUndef => JStr "replace" | m => m end <> JStr s)) \/
  (exists s, match p_mode pt with JUndef => JStr "replace" | m => m end = JStr s /\
             lower s = "upsert" /\
             exists e, In e (match existing with JArr l => l | _ => [] end) /\ get_id e = None).
Proof.
  unfold mergeList. cbv zeta.
  generalize (match p_mode pt with JUndef => JStr "replace" | m => m end) as mode.
  generalize (match existing with JArr l => l | _ => [] end) as cur.
  generalize (match match p_items pt with JUndef => JArr [] | i => i end with
              | JArr l => l | _ => [] end) as its.
  generalize (match p_removeIds pt with JUndef => JArr [] | r => r end) as rids.
  intros rids its cur mode.
  destruct (truthy mode) eqn:Ht.
  - destruct mode as [| | b | q | s | a | fs];
      try (split; [intros _; left; split; [reflexivity|intros s' H; discriminate]|reflexivity]).
    (* a string mode *)
    destruct (String.eqb (lower s) "replace") eqn:E1.
    { split; [discriminate|]. intros [[_ H]|[s' [Hs [Hl _]]]]; [destruct (H s eq_refl)|].
      injection Hs as <-. rewrite Hl in E1. discriminate. }
    destruct (String.eqb (lower s) "append") eqn:E2.
    { split; [discriminate|]. intros [[_ H]|[s' [Hs [Hl _]]]]; [destruct (H s eq_refl)|].
      injection Hs as <-. rewrite Hl in E2. discriminate. }
    destruct (String.eqb (lower s) "prepend") eqn:E3.
    { split; [discriminate|]. intros [[_ H]|[s' [Hs [Hl _]]]]; [destruct (H s eq_refl)|].
      injection Hs as <-. rewrite Hl in E3. discriminate. }
    destruct (String.eqb (lower s) "upsert") eqn:E4.
    + apply String.eqb_eq in E4.
      destruct (id_pairs cur) eqn:Ec.
      * split; [discriminate|]. intros [[_ H]|[s' [Hs [Hl He]]]]; [destruct (H s eq_refl)|].
        apply id_pairs_none in He. congruence.
      * split; [intros _|reflexivity]. right. exists s. split; [reflexivity|].
        split; [exact E4|]. now apply id_pairs_none.
    + split; [discriminate|]. intros [[_ H]|[s' [Hs [Hl _]]]]; [destruct (H s eq_refl)|].
      injection Hs as <-. rewrite Hl in E4. discriminate.
  - split; [discriminate|]. intros [[H _]|[s [-> [Hl _]]]]; [congruence|].
    apply lower_upsert_nonempty in Hl. simpl in Ht.
    destruct (String.eqb s "") eqn:Es; [apply String.eqb_eq in Es; contradiction|discriminate].
Qed.

(** ** Socket handshake, start and tick *)

Lemma map_set_keys (m : @omap string string) (k v : string) :
  List.map fst (map_set String.eqb m k v) =
  if map_has String.eqb m k then List.map fst m else List.map fst m ++ [k].
Proof.
  unfold map_set. destruct (map_has String.eqb m k).
  - rewrite List.map_map. apply map_ext. intros [k' v']. simpl.
    destruct (String.eqb k' k); reflexivity.
  - rewrite List.map_app. reflexivity.
Qed.

Lemma map_get_set_other {V} (m : @omap string V) (k k' : string) (v : V) :
  k' <> k -> map_get String.eqb (map_set String.eqb m k v) k' = map_get String.eqb m k'.
Proof.
  intro H. rewrite map_get_set.
  assert (E : String.eqb k k' = false) by (apply String.eqb_neq; congruence).
  now rewrite E.
Qed.

(** X15.  The [hello] of a participant socket [ws] registers the
    participant (created with score 0 when new) and sets its codename to
    the one of the handshake (the handler always has one: the message's
    or a random ["Unit NNNN"]); it adds [ws] to the Set of control sockets
    with [_pid] set to the participant (a socket already in the Set keeps
    its place, so a repeated hello adds nothing), leaves every other
    socket as it was, and changes no score and no InputRecord. *)
Theorem helloControl_joins (s : session) (ws pid cn : string) (now : Z) :
  (forall q, score_of (fst (helloControl s ws pid cn now)) q = score_of s q) /\
  (exists p, map_get String.eqb (s_participants (fst (helloControl s ws pid cn now))) pid = Some p /\
             (cn <> "" -> p_codename p = cn)) /\
  map_get String.eqb (s_control (fst (helloControl s ws pid cn now))) ws = Some pid /\
  (forall ws', ws' <> ws ->
     map_get String.eqb (s_control (fst (helloControl s ws pid cn now))) ws'
     = map_get String.eqb (s_control s) ws') /\
  List.map fst (s_control (fst (helloControl s ws pid cn now))) =
    (if map_has String.eqb (s_control s) ws then List.map fst (s_control s)
     else List.map fst (s_control s) ++ [ws]) /\
  s_inputs (fst (helloControl s ws pid cn now)) = s_inputs s.
Proof.
  unfold helloControl, set_control, set_participants. cbn [fst s_participants s_control s_inputs].
  split; [|split; [|split; [|split; [|split]]]].
  - intro q. apply score_of_upsert.
  - rewrite map_get_set_same. eexists. split; [reflexivity|].
    intro H. unfold upsert_participant. cbn [p_codename].
    apply String.eqb_neq in H. now rewrite H.
  - apply map_get_set_same.
  - intros ws' H. now apply map_get_set_other.
  - apply map_set_keys.
  - reflexivity.
Qed.

Lemma helloControl_joins_witness :
  p_codename (upsert_participant (s_participants session_answered) "p1" "Unit 0042") = "Unit 0042".
Proof.
  destruct (proj1 (proj2 (helloControl_joins session_answered "w9" "p1" "Unit 0042" 15000)))
    as [p [Hp Hc]].
  unfold helloControl, set_control, set_participants in Hp. cbn [fst s_participants] in Hp.
  rewrite map_get_set_same in Hp. injection Hp as <-.
  apply Hc. discriminate.
Defined.

(** X16.  Starting a session stamps [startedAt], arms the tick interval
    and clears the open/closed flags of every scenario event (keeping the
    events and their order); starting it again changes nothing. *)
Theorem startSession_once (s : session) (n1 n2 : Z) :
  s_startedAt s = None ->
  s_startedAt (fst (startSession s n1)) = Some n1 /\
  s_intervalOn (fst (startSession s n1)) = true /\
  Forall (fun e => ev_opened e = false /\ ev_closed e = false) (s_events (fst (startSession s n1))) /\
  List.map ev_id (s_events (fst (startSession s n1))) = List.map ev_id (s_events s) /\
  startSession (fst (startSession s n1)) n2 = (fst (startSession s n1), []).
Proof.
  intro H.
  assert (E : startSession s n1 =
    (set_clock (set_events s (List.map clear_flags (s_events s))) (Some n1) true (s_finalized s),
     [ToOps (MLog "SESSION")])) by (unfold startSession; now rewrite H).
  rewrite E. cbn [fst]. unfold set_clock, set_events. cbn [s_startedAt s_intervalOn s_events].
  split; [reflexivity|]. split; [reflexivity|]. split; [|split].
  - apply Forall_map, Forall_forall. intros e _. split; reflexivity.
  - rewrite List.map_map. reflexivity.
  - reflexivity.
Qed.

Lemma startSession_once_witness :
  startSession session_started 5000 = (session_started, []).
Proof.
  exact (proj2 (proj2 (proj2 (proj2
           (startSession_once (new_session [ev_dispatch] None) 0 5000 eq_refl))))).
Defined.

(** X17.  A tick of the interval does nothing once the interval is off
    (before the start, after finalization); while it is on it first sends
    the elapsed second to the ops and the control sockets, then opens
    exactly the events whose offset has been reached and that were not
    open yet, leaving every closed flag as it was. *)
Theorem tick_opens_due (s : session) (now : Z) :
  (s_intervalOn s = false -> tick s now = (s, [])) /\
  (s_intervalOn s = true ->
   List.map ev_opened (s_events (fst (tick s now))) =
     List.map (fun e => ev_opened e || Qle_bool (ev_t e) (inject_Z (getSessionT s now)))
              (s_events s) /\
   List.map ev_closed (s_events (fst (tick s now))) = List.map ev_closed (s_events s) /\
   firstn 2 (snd (tick s now)) =
     [ToOps (MTick (getSessionT s now)); ToControl (MTick (getSessionT s now))]).
Proof.
  split.
  - intro H. unfold tick. now rewrite H.
  - intro H. unfold tick. rewrite H, openEventsIfNeeded_eq.
    cbn [fst snd s_events set_timers set_events].
    split; [|split; [|reflexivity]].
    + rewrite List.map_map. apply map_ext. intro e. unfold open_step, qltb.
      destruct (ev_opened e) eqn:Eo; [exact Eo|].
      destruct (Qle_bool (ev_t e) (inject_Z (getSessionT s now))); [reflexivity|exact Eo].
    + rewrite List.map_map. apply map_ext. intro e. unfold open_step.
      destruct (ev_opened e || qltb _ _); reflexivity.
Qed.

Lemma tick_opens_due_witness :
  List.map ev_opened (s_events (fst (tick session_started 10000))) = [true].
Proof.
  rewrite (proj1 (proj2 (tick_opens_due session_started 10000) eq_refl)).
  vm_compute. reflexivity.
Defined.

Lemma control_delete_set (m : @omap string string) (ws pid : string) :
  control_delete (map_set String.eqb m ws pid) ws = control_delete m ws.
Proof.
  unfold control_delete, map_set. destruct (map_has String.eqb m ws).
  - induction m as [|[k v] m IH]; [reflexivity|]. cbn [List.map List.filter fst].
    destruct (String.eqb k ws) eqn:E; cbn [fst negb]; rewrite ?E; cbn [negb]; [exact IH|].
    f_equal. exact IH.
  - rewrite List.filter_app. cbn [List.filter fst]. rewrite String.eqb_refl.
    cbn [negb]. apply app_nil_r.
Qed.

Lemma control_delete_absent (m : @omap string string) (ws : string) :
  map_has String.eqb m ws = false -> control_delete m ws = m.
Proof.
  unfold map_has, control_delete. induction m as [|[k v] m IH]; intro H; [reflexivity|].
  cbn [map_get] in H. cbn [List.filter fst].
  destruct (String.eqb k ws); [discriminate|]. cbn [negb]. f_equal. now apply IH.
Qed.

Lemma control_delete_gone (m : @omap string string) (ws : string) :
  map_has String.eqb (control_delete m ws) ws = false.
Proof.
  unfold map_has, control_delete.
  induction m as [|[k v] m IH]; [reflexivity|]. cbn [List.filter fst].
  destruct (String.eqb k ws) eqn:E; cbn [negb]; [exact IH|]. cbn [map_get]. now rewrite E.
Qed.

(** X18.  A control socket that says [hello] and then closes is removed
    from the Set: when it was new, the control sockets are exactly those
    before the hello; when it had already said hello (a repeated
    handshake), it is no longer in the Set.  In both cases the participant
    stays registered and every score is as before the hello: closing a
    socket never removes a participant. *)
Theorem helloControl_leaveControl (s : session) (ws pid cn : string) (now : Z) :
  (map_has String.eqb (s_control s) ws = false ->
   s_control (fst (leaveControl (fst (helloControl s ws pid cn now)) ws)) = s_control s) /\
  s_control (fst (leaveControl (fst (helloControl s ws pid cn now)) ws))
    = control_delete (s_control s) ws /\
  map_has String.eqb (s_control (fst (leaveControl (fst (helloControl s ws pid cn now)) ws))) ws
    = false /\
  s_participants (fst (leaveControl (fst (helloControl s ws pid cn now)) ws))
    = s_participants (fst (helloControl s ws pid cn now)) /\
  (forall q, score_of (fst (leaveControl (fst (helloControl s ws pid cn now)) ws)) q = score_of s q).
Proof.
  assert (Hin : map_has String.eqb (s_control (fst (helloControl s ws pid cn now))) ws = true).
  { unfold map_has. rewrite (proj1 (proj2 (proj2 (helloControl_joins s ws pid cn now)))).
    reflexivity. }
  assert (Hc : s_control (fst (leaveControl (fst (helloControl s ws pid cn now)) ws))
               = control_delete (s_control s) ws).
  { unfold leaveControl. rewrite Hin. unfold set_control. cbn [fst s_control].
    unfold helloControl, set_control, set_participants. cbn [fst s_control].
    apply control_delete_set. }
  assert (Hp : s_participants (fst (leaveControl (fst (helloControl s ws pid cn now)) ws))
               = s_participants (fst (helloControl s ws pid cn now))).
  { unfold leaveControl. rewrite Hin. reflexivity. }
  split; [|split; [exact Hc|split; [|split; [exact Hp|]]]].
  - intro H. rewrite Hc. now apply control_delete_absent.
  - rewrite Hc. apply control_delete_gone.
  - intro q. unfold score_of. rewrite Hp. apply score_of_upsert.
Qed.

Lemma helloControl_leaveControl_witness :
  s_control (fst (leaveControl (fst (helloControl session_started "w1" "p1" "Ash" 1000)) "w1"))
    = [].
Proof.
  exact (proj1 (helloControl_leaveControl session_started "w1" "p1" "Ash" 1000) eq_refl).
Defined.

(** X19.  Firing a hint timer of an opened event removes exactly that timer
    from the pending ones and changes nothing else; the hint is sent to
    the control and the ops sockets when the elapsed second has not passed
    the end of the event's window, and dropped silently otherwise. *)
Theorem fireTimer_algo (s : session) (k : nat) (now : Z)
        (eventId : string) (windowEnd : Q) (text : string) (d : Q) :
  nth_error (s_timers s) k = Some (TAlgo eventId windowEnd text d) ->
  fst (fireTimer s k now) = set_timers s (remove_nth k (s_timers s)) /\
  S (List.length (s_timers (fst (fireTimer s k now)))) = List.length (s_timers s) /\
  (inject_Z (getSessionT s now) <= windowEnd ->
   snd (fireTimer s k now) = [ToControl (MAlgo eventId text); ToOps (MAlgo eventId text)]) /\
  (windowEnd < inject_Z (getSessionT s now) -> snd (fireTimer s k now) = []).
Proof.
  intro H.
  assert (Hlen : forall (l : list timer) j x, nth_error l j = Some x ->
                   S (List.length (remove_nth j l)) = List.length l).
  { induction l as [|y l IH]; intros [|j] x Hx; simpl in *; try discriminate; [reflexivity|].
    f_equal. eapply IH. exact Hx. }
  assert (HT : getSessionT (set_timers s (remove_nth k (s_timers s))) now = getSessionT s now)
    by reflexivity.
  unfold fireTimer. rewrite H. cbn zeta. rewrite HT.
  split; [|split; [|split]].
  - destruct (Qle_bool _ _); reflexivity.
  - destruct (Qle_bool _ _); cbn [fst]; unfold set_timers; cbn [s_timers]; eapply Hlen; exact H.
  - intro Hle. apply Qle_bool_iff in Hle. now rewrite Hle.
  - intro Hlt. replace (Qle_bool (inject_Z (getSessionT s now)) windowEnd) with false; [reflexivity|].
    symmetry. apply not_true_iff_false. intro Hle. apply Qle_bool_iff in Hle. lra.
Qed.

Lemma fireTimer_algo_witness :
  snd (fireTimer (set_timers session_started [TAlgo "E1" 20 "hint" 0]) 0 15000)
    = [ToControl (MAlgo "E1" "hint"); ToOps (MAlgo "E1" "hint")] /\
  snd (fireTimer (set_timers session_started [TAlgo "E1" 20 "hint" 0]) 0 25000) = [].
Proof.
  split.
  - apply (proj1 (proj2 (proj2 (fireTimer_algo (set_timers session_started [TAlgo "E1" 20 "hint" 0]) 0 15000 "E1" 20 "hint" 0 eq_refl)))).
    vm_compute. discriminate.
  - apply (proj2 (proj2 (proj2 (fireTimer_algo (set_timers session_started [TAlgo "E1" 20 "hint" 0]) 0 25000 "E1" 20 "hint" 0 eq_refl)))).
    vm_compute. reflexivity.
Defined.
